(** * lnd-cc: the channel state machine and coin selection of [lnwallet]

    A shallow embedding of [lnwallet/channel.go], [lnwallet/colored.go] and
    the coin selection of [lnwallet/wallet.go].

    Conventions of the embedding:
    - Go's fixed-width integers are [Z] with the wrap-around written out
      ([wrap32], [wrap64] for [uint32]/[uint64]; [wrapI64] for [int64],
      the representation of [btcutil.Amount]).
    - [[]byte], [[32]byte] and serialized keys are [list byte].
    - A [*PaymentDescriptor] is a location in a [Store]; the two update
      logs ([container/list]) are lists of locations and the two index maps
      ([map[uint32]*list.Element]) are [gmap Z loc].  One list element owns
      one descriptor, so a location stands for both.
    - A nil dereference or an index out of range is the outcome [Panic].
    - Functions of other packages (scripts, signatures, elkrem, the
      database, the colored-coin encoding service) are the fields of the
      interface [Externals]. *)

From Stdlib Require Import ZArith Lia.
From Stdlib.Strings Require Import Byte.
From stdpp Require Import gmap list strings.

Local Open Scope Z_scope.

(** ** Machine integers *)

Definition wrap32 (z : Z) : Z := z mod 2 ^ 32.
Definition wrap64 (z : Z) : Z := z mod 2 ^ 64.
Definition wrapI64 (z : Z) : Z := (z + 2 ^ 63) mod 2 ^ 64 - 2 ^ 63.

Definition inI64 (z : Z) : Prop := - 2 ^ 63 <= z < 2 ^ 63.

Definition bytes := list byte.

#[global] Instance byte_eq_decision : EqDecision byte := Byte.byte_eq_dec.

(** [var zeroHash wire.ShaHash] *)
Definition zeroHash : bytes := replicate 32 x00.

(** ** Errors and outcomes *)

(** Errors produced by the packages behind [Externals]. *)
Inductive ExtError :=
  | ElkremError | ScriptError | SignError | ParseError | DbError
  | EncodeError | EngineError.

Inductive Error :=
  | ErrChanClosing
  | ErrNoWindow
  | ErrInsufficientFunds
  | ErrInvalidPaymentHash        (* "invalid payment hash" *)
  | ErrNonExistentLogEntry       (* "non existant log entry" *)
  | ErrInvalidCommitSig          (* "invalid commitment signature" *)
  | ErrRevocationKeyMismatch     (* "revocation key mismatch" *)
  | ErrRevocationHashMismatch    (* "revocation hash mismatch" *)
  | ErrExt (e : ExtError).

(** ** HTLC log entries *)

Inductive updateType := Add | Timeout | Settle.

#[global] Instance updateType_eq_decision : EqDecision updateType.
Proof. solve_decision. Defined.

Record PaymentDescriptor := mkPD {
  RHash : bytes;
  TimeoutHeight : Z;            (* field [Timeout uint32] *)
  Amount : Z;                   (* btcutil.Amount, int64 *)
  Index : Z;                    (* uint32 *)
  ParentIndex : Z;              (* uint32 *)
  Payload : bytes;
  EntryType : updateType;
  addCommitHeightRemote : Z;    (* uint64 *)
  addCommitHeightLocal : Z;
  removeCommitHeightRemote : Z;
  removeCommitHeightLocal : Z;
  isForwarded : bool;
  settled : bool;
}.

Definition zeroPD : PaymentDescriptor :=
  mkPD [] 0 0 0 0 [] Add 0 0 0 0 false false.

Definition set_addCommitHeightRemote (h : Z) (p : PaymentDescriptor) :=
  mkPD (RHash p) (TimeoutHeight p) (Amount p) (Index p) (ParentIndex p)
       (Payload p) (EntryType p) h (addCommitHeightLocal p)
       (removeCommitHeightRemote p) (removeCommitHeightLocal p)
       (isForwarded p) (settled p).

Definition set_addCommitHeightLocal (h : Z) (p : PaymentDescriptor) :=
  mkPD (RHash p) (TimeoutHeight p) (Amount p) (Index p) (ParentIndex p)
       (Payload p) (EntryType p) (addCommitHeightRemote p) h
       (removeCommitHeightRemote p) (removeCommitHeightLocal p)
       (isForwarded p) (settled p).

Definition set_removeCommitHeightRemote (h : Z) (p : PaymentDescriptor) :=
  mkPD (RHash p) (TimeoutHeight p) (Amount p) (Index p) (ParentIndex p)
       (Payload p) (EntryType p) (addCommitHeightRemote p)
       (addCommitHeightLocal p) h (removeCommitHeightLocal p)
       (isForwarded p) (settled p).

Definition set_removeCommitHeightLocal (h : Z) (p : PaymentDescriptor) :=
  mkPD (RHash p) (TimeoutHeight p) (Amount p) (Index p) (ParentIndex p)
       (Payload p) (EntryType p) (addCommitHeightRemote p)
       (addCommitHeightLocal p) (removeCommitHeightRemote p) h
       (isForwarded p) (settled p).

Definition set_isForwarded (b : bool) (p : PaymentDescriptor) :=
  mkPD (RHash p) (TimeoutHeight p) (Amount p) (Index p) (ParentIndex p)
       (Payload p) (EntryType p) (addCommitHeightRemote p)
       (addCommitHeightLocal p) (removeCommitHeightRemote p)
       (removeCommitHeightLocal p) b (settled p).

Definition set_settled (b : bool) (p : PaymentDescriptor) :=
  mkPD (RHash p) (TimeoutHeight p) (Amount p) (Index p) (ParentIndex p)
       (Payload p) (EntryType p) (addCommitHeightRemote p)
       (addCommitHeightLocal p) (removeCommitHeightRemote p)
       (removeCommitHeightLocal p) (isForwarded p) b.

(** The height fields of the chain a view is built for. *)
Definition addHeight (remoteChain : bool) (p : PaymentDescriptor) : Z :=
  if remoteChain then addCommitHeightRemote p else addCommitHeightLocal p.

Definition removeHeight (remoteChain : bool) (p : PaymentDescriptor) : Z :=
  if remoteChain then removeCommitHeightRemote p
  else removeCommitHeightLocal p.

Definition set_addHeight (remoteChain : bool) (h : Z) (p : PaymentDescriptor) :=
  if remoteChain then set_addCommitHeightRemote h p
  else set_addCommitHeightLocal h p.

Definition set_removeHeight (remoteChain : bool) (h : Z)
    (p : PaymentDescriptor) :=
  if remoteChain then set_removeCommitHeightRemote h p
  else set_removeCommitHeightLocal h p.

(** [processAddEntry]: the descriptor and the two balances are passed by
    pointer; the updated values are returned. *)
Definition processAddEntry (htlc : PaymentDescriptor)
    (ourBalance theirBalance : Z) (nextHeight : Z)
    (remoteChain isIncoming : bool) : PaymentDescriptor * Z * Z :=
  if negb (addHeight remoteChain htlc =? 0) then
    (htlc, ourBalance, theirBalance)
  else if isIncoming then
    (set_addHeight remoteChain nextHeight htlc,
     ourBalance, wrapI64 (theirBalance - Amount htlc))
  else
    (set_addHeight remoteChain nextHeight htlc,
     wrapI64 (ourBalance - Amount htlc), theirBalance).

(** [processRemoveEntry] *)
Definition processRemoveEntry (htlc : PaymentDescriptor)
    (ourBalance theirBalance : Z) (nextHeight : Z)
    (remoteChain isIncoming : bool) : PaymentDescriptor * Z * Z :=
  if negb (removeHeight remoteChain htlc =? 0) then
    (htlc, ourBalance, theirBalance)
  else
    let '(ourBalance', theirBalance') :=
      match isIncoming, EntryType htlc with
      | true, Settle => (wrapI64 (ourBalance + Amount htlc), theirBalance)
      | true, Timeout => (ourBalance, wrapI64 (theirBalance + Amount htlc))
      | false, Settle => (ourBalance, wrapI64 (theirBalance + Amount htlc))
      | false, Timeout => (wrapI64 (ourBalance + Amount htlc), theirBalance)
      | _, Add => (ourBalance, theirBalance)
      end in
    (set_removeHeight remoteChain nextHeight htlc, ourBalance', theirBalance').

(** ** Transactions ([wire]) *)

Record OutPoint := mkOutPoint { opHash : bytes; opIndex : Z }.

Record TxIn := mkTxIn {
  PreviousOutPoint : OutPoint;
  SignatureScript : bytes;
  Witness : list bytes;
  Sequence : Z;
}.

Record TxOut := mkTxOut { Value : Z; PkScript : bytes }.

Record MsgTx := mkMsgTx {
  Version : Z;
  txIn : list TxIn;
  txOut : list TxOut;
  LockTime : Z;
}.

#[global] Instance OutPoint_eq_decision : EqDecision OutPoint.
Proof. solve_decision. Defined.
#[global] Instance TxIn_eq_decision : EqDecision TxIn.
Proof. solve_decision. Defined.
#[global] Instance TxOut_eq_decision : EqDecision TxOut.
Proof. solve_decision. Defined.
#[global] Instance MsgTx_eq_decision : EqDecision MsgTx.
Proof. solve_decision. Defined.

(** [wire.NewMsgTx], [wire.NewTxIn], [wire.NewTxOut], [AddTxIn], [AddTxOut] *)
Definition NewMsgTx : MsgTx := mkMsgTx 1 [] [] 0.

Definition NewTxIn (prevOut : OutPoint) (sigScript : bytes)
    (witness : list bytes) : TxIn :=
  mkTxIn prevOut sigScript witness 4294967295.

Definition NewTxOut (value : Z) (pkScript : bytes) : TxOut :=
  mkTxOut value pkScript.

Definition AddTxIn (ti : TxIn) (tx : MsgTx) : MsgTx :=
  mkMsgTx (Version tx) (txIn tx ++ [ti]) (txOut tx) (LockTime tx).

Definition AddTxOut (to : TxOut) (tx : MsgTx) : MsgTx :=
  mkMsgTx (Version tx) (txIn tx) (txOut tx ++ [to]) (LockTime tx).

Definition set_Version (v : Z) (tx : MsgTx) : MsgTx :=
  mkMsgTx v (txIn tx) (txOut tx) (LockTime tx).

(** A transaction holds pointers to its inputs ([TxIn []*TxIn]), and
    [AddTxIn] stores the pointer it is given: an input added to several
    transactions is one object, and a write through one of them is seen
    through all.  Transactions are values here, so such a write is carried
    over to each transaction that holds the input: [shareTxIn old new tx]
    is [tx] after the input [old] it holds has become [new]. *)
Definition shareTxIn (old new : TxIn) (tx : MsgTx) : MsgTx :=
  mkMsgTx (Version tx)
          ((fun ti => if decide (ti = old) then new else ti) <$> txIn tx)
          (txOut tx) (LockTime tx).

(** [bytes.Compare]: lexicographic order on unsigned bytes. *)
Fixpoint bytesCompare (a b : bytes) : comparison :=
  match a, b with
  | [], [] => Eq
  | [], _ :: _ => Lt
  | _ :: _, [] => Gt
  | x :: a', y :: b' =>
      match N.compare (Byte.to_N x) (Byte.to_N y) with
      | Eq => bytesCompare a' b'
      | c => c
      end
  end.

(** [txsort]: the two [Less] functions of the canonical (BIP 69) order. *)
Definition inputLess (i j : TxIn) : bool :=
  let ihash := opHash (PreviousOutPoint i) in
  let jhash := opHash (PreviousOutPoint j) in
  if decide (ihash = jhash) then
    opIndex (PreviousOutPoint i) <? opIndex (PreviousOutPoint j)
  else
    match bytesCompare (reverse ihash) (reverse jhash) with
    | Lt => true
    | _ => false
    end.

Definition outputLess (i j : TxOut) : bool :=
  if Value i =? Value j then
    match bytesCompare (PkScript i) (PkScript j) with
    | Lt => true
    | _ => false
    end
  else Value i <? Value j.

(** [sort.Sort] as an insertion sort.  Outputs that compare equal are equal,
    so the result on outputs does not depend on the sorting algorithm. *)
Fixpoint sortInsert {A} (less : A -> A -> bool) (x : A) (l : list A) : list A :=
  match l with
  | [] => [x]
  | y :: l' => if less y x then y :: sortInsert less x l' else x :: l
  end.

Definition sortBy {A} (less : A -> A -> bool) (l : list A) : list A :=
  foldr (sortInsert less) [] l.

(** [txsort.InPlaceSort] *)
Definition InPlaceSort (tx : MsgTx) : MsgTx :=
  mkMsgTx (Version tx) (sortBy inputLess (txIn tx))
          (sortBy outputLess (txOut tx)) (LockTime tx).

(** [wire.WriteVarInt] / [wire.WriteVarBytes] *)
Definition byteOfZ (z : Z) : byte :=
  match Byte.of_N (Z.to_N (z mod 256)) with
  | Some b => b
  | None => x00
  end.

Fixpoint leBytes (n : nat) (z : Z) : bytes :=
  match n with
  | O => []
  | S n' => byteOfZ z :: leBytes n' (z / 256)
  end.

Definition WriteVarInt (val : Z) : bytes :=
  if val <? 253 then [byteOfZ val]
  else if val <=? 65535 then xfd :: leBytes 2 val
  else if val <=? 4294967295 then xfe :: leBytes 4 val
  else xff :: leBytes 8 val.

Definition WriteVarBytes (b : bytes) : bytes :=
  WriteVarInt (Z.of_nat (length b)) ++ b.

(** [txscript.OP_RETURN] *)
Definition OP_RETURN : byte := x6a.

(** ** Colored-coin encoding ([colored.go]) *)

Definition dustAmount : Z := 546.

Record CcInstruction := mkCcInstruction {
  ccSkip : bool;
  ccRange : bool;
  ccPercent : bool;
  ccOutput : Z;    (* field [Output uint32] *)
  ccAmount : Z;    (* field [Amount int] *)
}.

(** ** Commitments and commitment chains *)

Record commitment := mkCommitment {
  height : Z;               (* uint64 *)
  ourMessageIndex : Z;      (* uint32 *)
  theirMessageIndex : Z;
  txn : option MsgTx;       (* [*wire.MsgTx], nil in the initial commitment *)
  commitSig : bytes;        (* field [sig] *)
  ourBalance : Z;
  theirBalance : Z;
}.

Record commitmentChain := mkChain {
  commitments : list commitment;
  startingHeight : Z;
}.

(** A write to a shared input, seen through the transactions of a chain's
    commitments. *)
Definition shareTxInCommitment (old new : TxIn) (c : commitment)
    : commitment :=
  mkCommitment (height c) (ourMessageIndex c) (theirMessageIndex c)
               (shareTxIn old new <$> txn c) (commitSig c)
               (ourBalance c) (theirBalance c).

Definition shareTxInChain (old new : TxIn) (s : commitmentChain)
    : commitmentChain :=
  mkChain (shareTxInCommitment old new <$> commitments s) (startingHeight s).

Definition newCommitmentChain (initialHeight : Z) : commitmentChain :=
  mkChain [] initialHeight.

Definition addCommitment (c : commitment) (s : commitmentChain) :=
  mkChain (commitments s ++ [c]) (startingHeight s).

(** [advanceTail]: [Remove(Front())]; [None] is the nil dereference on an
    empty list. *)
Definition advanceTail (s : commitmentChain) : option commitmentChain :=
  match commitments s with
  | [] => None
  | _ :: rest => Some (mkChain rest (startingHeight s))
  end.

(** [tip] and [tail]: [None] is the nil dereference of [Back()]/[Front()]
    on an empty list. *)
Definition tip (s : commitmentChain) : option commitment :=
  last (commitments s).

Definition tail (s : commitmentChain) : option commitment :=
  head (commitments s).

(** ** Wire messages ([lnwire]) *)

Record CommitRevocation := mkCommitRevocation {
  ChannelPoint : OutPoint;
  Revocation : bytes;
  NextRevocationKey : bytes;
  NextRevocationHash : bytes;
}.

Record HTLCAddRequest := mkHTLCAddRequest {
  Expiry : Z;
  reqAmount : Z;                    (* field [Amount] *)
  RedemptionHashes : list bytes;
}.

(** ** The persisted channel record *)

(** Modelled from the spec: [channeldb.OpenChannel] is declared outside the
    sources; these are the fields [channel.go] reads and writes (spec
    section 3, channel configuration and dynamic state).  The elkrem sender
    is its root; the elkrem receiver is the "append-only record of verified
    counterparty pre-images". *)
Record OpenChannel := mkOpenChannel {
  ChanID : OutPoint;
  FundingOutpoint : OutPoint;
  Capacity : Z;
  OurBalance : Z;
  TheirBalance : Z;
  NumUpdates : Z;
  OurCommitTx : option MsgTx;
  OurCommitSig : bytes;
  OurCommitKey : bytes;             (* private key *)
  TheirCommitKey : bytes;
  OurMultiSigKey : bytes;           (* private key *)
  TheirMultiSigKey : bytes;
  FundingRedeemScript : bytes;
  OurDeliveryScript : bytes;
  TheirDeliveryScript : bytes;
  LocalCsvDelay : Z;
  RemoteCsvDelay : Z;
  LocalElkrem : bytes;
  RemoteElkrem : list bytes;
  TheirCurrentRevocation : bytes;
  TheirCurrentRevocationHash : bytes;
}.

Definition set_RemoteElkrem (r : list bytes) (c : OpenChannel) :=
  mkOpenChannel (ChanID c) (FundingOutpoint c) (Capacity c) (OurBalance c)
    (TheirBalance c) (NumUpdates c) (OurCommitTx c) (OurCommitSig c)
    (OurCommitKey c) (TheirCommitKey c) (OurMultiSigKey c)
    (TheirMultiSigKey c) (FundingRedeemScript c) (OurDeliveryScript c)
    (TheirDeliveryScript c) (LocalCsvDelay c) (RemoteCsvDelay c)
    (LocalElkrem c) r (TheirCurrentRevocation c)
    (TheirCurrentRevocationHash c).

Definition set_TheirCurrentRevocation (k h : bytes) (c : OpenChannel) :=
  mkOpenChannel (ChanID c) (FundingOutpoint c) (Capacity c) (OurBalance c)
    (TheirBalance c) (NumUpdates c) (OurCommitTx c) (OurCommitSig c)
    (OurCommitKey c) (TheirCommitKey c) (OurMultiSigKey c)
    (TheirMultiSigKey c) (FundingRedeemScript c) (OurDeliveryScript c)
    (TheirDeliveryScript c) (LocalCsvDelay c) (RemoteCsvDelay c)
    (LocalElkrem c) (RemoteElkrem c) k h.

(** The assignments of [RevokeCurrentCommitment] from the new local tail. *)
Definition set_fromTail (t : commitment) (c : OpenChannel) :=
  mkOpenChannel (ChanID c) (FundingOutpoint c) (Capacity c) (ourBalance t)
    (theirBalance t) (wrap64 (NumUpdates c + 1)) (txn t) (commitSig t)
    (OurCommitKey c) (TheirCommitKey c) (OurMultiSigKey c)
    (TheirMultiSigKey c) (FundingRedeemScript c) (OurDeliveryScript c)
    (TheirDeliveryScript c) (LocalCsvDelay c) (RemoteCsvDelay c)
    (LocalElkrem c) (RemoteElkrem c) (TheirCurrentRevocation c)
    (TheirCurrentRevocationHash c).

Definition set_OurCommitTx (tx : option MsgTx) (c : OpenChannel) :=
  mkOpenChannel (ChanID c) (FundingOutpoint c) (Capacity c) (OurBalance c)
    (TheirBalance c) (NumUpdates c) tx (OurCommitSig c)
    (OurCommitKey c) (TheirCommitKey c) (OurMultiSigKey c)
    (TheirMultiSigKey c) (FundingRedeemScript c) (OurDeliveryScript c)
    (TheirDeliveryScript c) (LocalCsvDelay c) (RemoteCsvDelay c)
    (LocalElkrem c) (RemoteElkrem c) (TheirCurrentRevocation c)
    (TheirCurrentRevocationHash c).

(** ** Functions of other packages *)

Class Externals := {
  (* fastsha256.Sum256 *)
  sha256 : bytes -> bytes;
  (* script_utils: [None] is a script-builder error *)
  witnessScriptHash : bytes -> option bytes;
  commitScriptToSelf : Z -> bytes -> bytes -> option bytes;
  commitScriptUnencumbered : bytes -> option bytes;
  senderHTLCScript : Z -> Z -> bytes -> bytes -> bytes -> bytes -> option bytes;
  receiverHTLCScript : Z -> Z -> bytes -> bytes -> bytes -> bytes -> option bytes;
  spendMultiSig : bytes -> bytes -> bytes -> bytes -> bytes -> list bytes;
  deriveRevocationPubkey : bytes -> bytes -> bytes;
  deriveRevocationPrivKey : bytes -> bytes -> bytes;
  (* btcec *)
  PubKey : bytes -> bytes;
  ParseSignature : bytes -> option bytes;
  sigVerify : bytes -> bytes -> bytes -> bool;
  (* txscript *)
  RawTxInWitnessSignature : MsgTx -> Z -> Z -> bytes -> bytes -> option bytes;
  CalcWitnessSigHash : bytes -> MsgTx -> Z -> Z -> option bytes;
  engineExecute : bytes -> MsgTx -> Z -> Z -> bool;
  TxSha : MsgTx -> bytes;
  (* elkrem: the sender's [AtIndex]; the receiver's consistency check *)
  elkremAtIndex : bytes -> Z -> option bytes;
  elkremConsistent : list bytes -> bytes -> bool;
  (* channeldb: [true] when the write succeeds *)
  FullSync : OpenChannel -> bool;
  SyncRevocation : OpenChannel -> bool;
  (* the colored-coin encoding service behind [EncodeCcInstructions] *)
  EncodeCcInstructions : list CcInstruction -> option bytes;
}.

(** Modelled from the spec: the elkrem receiver's [AddNext] (package
    [elkrem], outside the sources) "verifies that p is consistent with
    previously added pre-images and appends; fails with ElkremMismatch on
    inconsistency". *)
Definition elkremAddNext `{Externals} (r : list bytes) (p : bytes)
    : option (list bytes) :=
  if elkremConsistent r p then Some (r ++ [p]) else None.

(** [ColorifyTx] ([colored.go]).  The two writes into the [bytes.Buffer]
    cannot fail; the only error is the one of the encoding service. *)
Definition ColorifyTx `{Externals} (tx : MsgTx) (isFunding : bool)
    : Error + MsgTx :=
  let newTx := set_Version (Version tx) NewMsgTx in
  let newTx := foldl (fun t ti => AddTxIn ti t) newTx (txIn tx) in
  let insts :=
    imap (fun i (o : TxOut) =>
            mkCcInstruction false false false
              (wrap32 (Z.of_nat i)) (Value o)) (txOut tx) in
  let newTx :=
    foldl (fun t (o : TxOut) =>
             if isFunding then AddTxOut (NewTxOut (dustAmount * 15) (PkScript o)) t
             else AddTxOut (NewTxOut dustAmount (PkScript o)) t)
          newTx (txOut tx) in
  match EncodeCcInstructions insts with
  | None => inl (ErrExt EncodeError)
  | Some opReturn =>
      let script := OP_RETURN :: WriteVarBytes opReturn in
      inr (AddTxOut (NewTxOut 0 script) newTx)
  end.

(** ** The channel *)

Inductive channelStatus :=
  | channelPending | channelOpen | channelClosing | channelClosed
  | channelDispute | channelPendingPayment.

#[global] Instance channelStatus_eq_decision : EqDecision channelStatus.
Proof. solve_decision. Defined.

Definition loc := nat.

(** The descriptors allocated so far; [nextLoc] is the next fresh one. *)
Definition Store := loc -> PaymentDescriptor.

Definition storeSet (l : loc) (p : PaymentDescriptor) (s : Store) : Store :=
  fun l' => if decide (l' = l) then p else s l'.

Record LightningChannel := mkLC {
  ourLogCounter : Z;          (* uint32 *)
  theirLogCounter : Z;
  status : channelStatus;
  currentHeight : Z;          (* uint64 *)
  revocationWindowEdge : Z;
  usedRevocations : list CommitRevocation;
  revocationWindow : list CommitRevocation;
  remoteCommitChain : commitmentChain;
  localCommitChain : commitmentChain;
  channelState : OpenChannel;
  ourUpdateLog : list loc;
  theirUpdateLog : list loc;
  ourLogIndex : gmap Z loc;
  theirLogIndex : gmap Z loc;
  fundingTxIn : TxIn;
  fundingP2WSH : bytes;
  store : Store;
  nextLoc : loc;
}.

Definition set_ourLog (cnt : Z) (log : list loc) (idx : gmap Z loc)
    (lc : LightningChannel) :=
  mkLC cnt (theirLogCounter lc) (status lc) (currentHeight lc)
    (revocationWindowEdge lc) (usedRevocations lc) (revocationWindow lc)
    (remoteCommitChain lc) (localCommitChain lc) (channelState lc)
    log (theirUpdateLog lc) idx (theirLogIndex lc)
    (fundingTxIn lc) (fundingP2WSH lc) (store lc) (nextLoc lc).

Definition set_theirLog (cnt : Z) (log : list loc) (idx : gmap Z loc)
    (lc : LightningChannel) :=
  mkLC (ourLogCounter lc) cnt (status lc) (currentHeight lc)
    (revocationWindowEdge lc) (usedRevocations lc) (revocationWindow lc)
    (remoteCommitChain lc) (localCommitChain lc) (channelState lc)
    (ourUpdateLog lc) log (ourLogIndex lc) idx
    (fundingTxIn lc) (fundingP2WSH lc) (store lc) (nextLoc lc).

Definition set_status (s : channelStatus) (lc : LightningChannel) :=
  mkLC (ourLogCounter lc) (theirLogCounter lc) s (currentHeight lc)
    (revocationWindowEdge lc) (usedRevocations lc) (revocationWindow lc)
    (remoteCommitChain lc) (localCommitChain lc) (channelState lc)
    (ourUpdateLog lc) (theirUpdateLog lc) (ourLogIndex lc) (theirLogIndex lc)
    (fundingTxIn lc) (fundingP2WSH lc) (store lc) (nextLoc lc).

Definition set_currentHeight (h : Z) (lc : LightningChannel) :=
  mkLC (ourLogCounter lc) (theirLogCounter lc) (status lc) h
    (revocationWindowEdge lc) (usedRevocations lc) (revocationWindow lc)
    (remoteCommitChain lc) (localCommitChain lc) (channelState lc)
    (ourUpdateLog lc) (theirUpdateLog lc) (ourLogIndex lc) (theirLogIndex lc)
    (fundingTxIn lc) (fundingP2WSH lc) (store lc) (nextLoc lc).

Definition set_revocationWindowEdge (e : Z) (lc : LightningChannel) :=
  mkLC (ourLogCounter lc) (theirLogCounter lc) (status lc) (currentHeight lc)
    e (usedRevocations lc) (revocationWindow lc)
    (remoteCommitChain lc) (localCommitChain lc) (channelState lc)
    (ourUpdateLog lc) (theirUpdateLog lc) (ourLogIndex lc) (theirLogIndex lc)
    (fundingTxIn lc) (fundingP2WSH lc) (store lc) (nextLoc lc).

Definition set_revocations (used window : list CommitRevocation)
    (lc : LightningChannel) :=
  mkLC (ourLogCounter lc) (theirLogCounter lc) (status lc) (currentHeight lc)
    (revocationWindowEdge lc) used window
    (remoteCommitChain lc) (localCommitChain lc) (channelState lc)
    (ourUpdateLog lc) (theirUpdateLog lc) (ourLogIndex lc) (theirLogIndex lc)
    (fundingTxIn lc) (fundingP2WSH lc) (store lc) (nextLoc lc).

Definition set_remoteCommitChain (c : commitmentChain) (lc : LightningChannel) :=
  mkLC (ourLogCounter lc) (theirLogCounter lc) (status lc) (currentHeight lc)
    (revocationWindowEdge lc) (usedRevocations lc) (revocationWindow lc)
    c (localCommitChain lc) (channelState lc)
    (ourUpdateLog lc) (theirUpdateLog lc) (ourLogIndex lc) (theirLogIndex lc)
    (fundingTxIn lc) (fundingP2WSH lc) (store lc) (nextLoc lc).

Definition set_localCommitChain (c : commitmentChain) (lc : LightningChannel) :=
  mkLC (ourLogCounter lc) (theirLogCounter lc) (status lc) (currentHeight lc)
    (revocationWindowEdge lc) (usedRevocations lc) (revocationWindow lc)
    (remoteCommitChain lc) c (channelState lc)
    (ourUpdateLog lc) (theirUpdateLog lc) (ourLogIndex lc) (theirLogIndex lc)
    (fundingTxIn lc) (fundingP2WSH lc) (store lc) (nextLoc lc).

Definition set_channelState (c : OpenChannel) (lc : LightningChannel) :=
  mkLC (ourLogCounter lc) (theirLogCounter lc) (status lc) (currentHeight lc)
    (revocationWindowEdge lc) (usedRevocations lc) (revocationWindow lc)
    (remoteCommitChain lc) (localCommitChain lc) c
    (ourUpdateLog lc) (theirUpdateLog lc) (ourLogIndex lc) (theirLogIndex lc)
    (fundingTxIn lc) (fundingP2WSH lc) (store lc) (nextLoc lc).

Definition set_fundingTxIn (ti : TxIn) (lc : LightningChannel) :=
  mkLC (ourLogCounter lc) (theirLogCounter lc) (status lc) (currentHeight lc)
    (revocationWindowEdge lc) (usedRevocations lc) (revocationWindow lc)
    (remoteCommitChain lc) (localCommitChain lc) (channelState lc)
    (ourUpdateLog lc) (theirUpdateLog lc) (ourLogIndex lc) (theirLogIndex lc)
    ti (fundingP2WSH lc) (store lc) (nextLoc lc).

Definition set_store (s : Store) (lc : LightningChannel) :=
  mkLC (ourLogCounter lc) (theirLogCounter lc) (status lc) (currentHeight lc)
    (revocationWindowEdge lc) (usedRevocations lc) (revocationWindow lc)
    (remoteCommitChain lc) (localCommitChain lc) (channelState lc)
    (ourUpdateLog lc) (theirUpdateLog lc) (ourLogIndex lc) (theirLogIndex lc)
    (fundingTxIn lc) (fundingP2WSH lc) s (nextLoc lc).

(** Allocation of a new descriptor ([&PaymentDescriptor{...}]). *)
Definition alloc (p : PaymentDescriptor) (lc : LightningChannel)
    : loc * LightningChannel :=
  (nextLoc lc,
   mkLC (ourLogCounter lc) (theirLogCounter lc) (status lc) (currentHeight lc)
    (revocationWindowEdge lc) (usedRevocations lc) (revocationWindow lc)
    (remoteCommitChain lc) (localCommitChain lc) (channelState lc)
    (ourUpdateLog lc) (theirUpdateLog lc) (ourLogIndex lc) (theirLogIndex lc)
    (fundingTxIn lc) (fundingP2WSH lc)
    (storeSet (nextLoc lc) p (store lc)) (S (nextLoc lc))).

(** The three ways a method ends: it returns a value, it returns an error,
    or it panics.  The channel is the one the caller observes afterwards. *)
Inductive Outcome (A : Type) :=
  | Return (v : A) (lc : LightningChannel)
  | Fail (e : Error) (lc : LightningChannel)
  | Panic.
Arguments Return {A} v lc.
Arguments Fail {A} e lc.
Arguments Panic {A}.

Section Channel.
Context `{Ext : Externals}.

(** [NewLightningChannel] *)
Definition NewLightningChannel (state : OpenChannel)
    : Error + LightningChannel :=
  let initialCommitment :=
    mkCommitment (NumUpdates state) 0 0 None [] (OurBalance state)
                 (TheirBalance state) in
  match witnessScriptHash (FundingRedeemScript state) with
  | None => inl (ErrExt ScriptError)
  | Some fundingPkScript =>
      inr (mkLC 0 0 channelPending (NumUpdates state) (NumUpdates state)
             [] []
             (addCommitment initialCommitment
                (newCommitmentChain (NumUpdates state)))
             (addCommitment initialCommitment
                (newCommitmentChain (NumUpdates state)))
             state [] [] ∅ ∅
             (NewTxIn (FundingOutpoint state) [] [])
             fundingPkScript (fun _ => zeroPD) O)
  end.

Record htlcView := mkView {
  ourUpdates : list loc;
  theirUpdates : list loc;
}.

(** [fetchHTLCView] *)
Definition fetchHTLCView (lc : LightningChannel)
    (theirLogIndex' ourLogIndex' : Z) : htlcView :=
  mkView
    (filter (fun e => Index (store lc e) < ourLogIndex') (ourUpdateLog lc))
    (filter (fun e => Index (store lc e) < theirLogIndex') (theirUpdateLog lc)).

(** First pass of [evaluateHTLCView] over one log: the loop over the
    non-add entries.  [index] is the index map of the opposite log; a parent
    index missing from it yields a nil element whose [Value] is read. *)
Fixpoint removePass (index : gmap Z loc) (nextHeight : Z)
    (remoteChain isIncoming : bool) (entries : list loc)
    (s : Store) (skip : gset Z) (ourBal theirBal : Z)
    : option (Store * gset Z * Z * Z) :=
  match entries with
  | [] => Some (s, skip, ourBal, theirBal)
  | e :: rest =>
      let entry := s e in
      if decide (EntryType entry = Add) then
        removePass index nextHeight remoteChain isIncoming rest
                   s skip ourBal theirBal
      else
        match index !! ParentIndex entry with
        | None => None
        | Some parent =>
            let addEntry := s parent in
            let '(entry', ourBal', theirBal') :=
              processRemoveEntry entry ourBal theirBal nextHeight
                                 remoteChain isIncoming in
            removePass index nextHeight remoteChain isIncoming rest
                       (storeSet e entry' s) ({[ Index addEntry ]} ∪ skip)
                       ourBal' theirBal'
        end
  end.

(** Second pass of [evaluateHTLCView] over one log. *)
Fixpoint addPass (nextHeight : Z) (remoteChain isIncoming : bool)
    (skip : gset Z) (entries : list loc)
    (s : Store) (ourBal theirBal : Z) : Store * list loc * Z * Z :=
  match entries with
  | [] => (s, [], ourBal, theirBal)
  | e :: rest =>
      let entry := s e in
      if bool_decide (EntryType entry ≠ Add)
         || bool_decide (Index entry ∈ skip) then
        addPass nextHeight remoteChain isIncoming skip rest s ourBal theirBal
      else
        let '(entry', ourBal', theirBal') :=
          processAddEntry entry ourBal theirBal nextHeight
                          remoteChain isIncoming in
        let '(s', kept, ourBal'', theirBal'') :=
          addPass nextHeight remoteChain isIncoming skip rest
                  (storeSet e entry' s) ourBal' theirBal' in
        (s', e :: kept, ourBal'', theirBal'')
  end.

(** [evaluateHTLCView]: the filtered view, the two balances and the store
    after the in-place updates; [None] is a panic. *)
Definition evaluateHTLCView (lc : LightningChannel) (view : htlcView)
    (ourBal theirBal : Z) (nextHeight : Z) (remoteChain : bool)
    : option (htlcView * Z * Z * Store) :=
  match removePass (theirLogIndex lc) nextHeight remoteChain true
                   (ourUpdates view) (store lc) ∅ ourBal theirBal with
  | None => None
  | Some (s1, skipThem, ourBal1, theirBal1) =>
      match removePass (ourLogIndex lc) nextHeight remoteChain false
                       (theirUpdates view) s1 ∅ ourBal1 theirBal1 with
      | None => None
      | Some (s2, skipUs, ourBal2, theirBal2) =>
          let '(s3, ourKept, ourBal3, theirBal3) :=
            addPass nextHeight remoteChain false skipUs (ourUpdates view)
                    s2 ourBal2 theirBal2 in
          let '(s4, theirKept, ourBal4, theirBal4) :=
            addPass nextHeight remoteChain true skipThem (theirUpdates view)
                    s3 ourBal3 theirBal3 in
          Some (mkView ourKept theirKept, ourBal4, theirBal4, s4)
      end
  end.

(** [createCommitTx] *)
Definition createCommitTx (fundingOutput : TxIn)
    (selfKey theirKey revokeKey : bytes) (csvTimeout : Z)
    (amountToSelf amountToThem : Z) : Error + MsgTx :=
  match commitScriptToSelf csvTimeout selfKey revokeKey with
  | None => inl (ErrExt ScriptError)
  | Some ourRedeemScript =>
      match witnessScriptHash ourRedeemScript with
      | None => inl (ErrExt ScriptError)
      | Some payToUsScriptHash =>
          match commitScriptUnencumbered theirKey with
          | None => inl (ErrExt ScriptError)
          | Some theirWitnessKeyHash =>
              let commitTx := AddTxIn fundingOutput (set_Version 2 NewMsgTx) in
              let commitTx :=
                if decide (amountToSelf ≠ 0) then
                  AddTxOut (NewTxOut amountToSelf payToUsScriptHash) commitTx
                else commitTx in
              let commitTx :=
                if decide (amountToThem ≠ 0) then
                  AddTxOut (NewTxOut amountToThem theirWitnessKeyHash) commitTx
                else commitTx in
              inr commitTx
          end
      end
  end.

(** [addHTLC] *)
Definition addHTLC (lc : LightningChannel) (commitTx : MsgTx)
    (ourCommit : bool) (paymentDesc : PaymentDescriptor)
    (revocation : bytes) (delay : Z) (isIncoming : bool) : Error + MsgTx :=
  let localKey := PubKey (OurCommitKey (channelState lc)) in
  let remoteKey := TheirCommitKey (channelState lc) in
  let timeout := TimeoutHeight paymentDesc in
  let rHash := RHash paymentDesc in
  let pkScript :=
    match isIncoming, ourCommit with
    | true, true =>
        receiverHTLCScript timeout delay remoteKey localKey revocation rHash
    | true, false =>
        senderHTLCScript timeout delay remoteKey localKey revocation rHash
    | false, true =>
        senderHTLCScript timeout delay localKey remoteKey revocation rHash
    | false, false =>
        receiverHTLCScript timeout delay localKey remoteKey revocation rHash
    end in
  match pkScript with
  | None => inl (ErrExt ScriptError)
  | Some pkScript =>
      match witnessScriptHash pkScript with
      | None => inl (ErrExt ScriptError)
      | Some htlcP2WSH =>
          inr (AddTxOut (NewTxOut (Amount paymentDesc) htlcP2WSH) commitTx)
      end
  end.

(** The two [for ... range] loops of [fetchCommitmentView] over the
    filtered view. *)
Fixpoint addHTLCs (lc : LightningChannel) (commitTx : MsgTx)
    (ourCommit : bool) (entries : list loc) (revocation : bytes) (delay : Z)
    (isIncoming : bool) : Error + MsgTx :=
  match entries with
  | [] => inr commitTx
  | e :: rest =>
      match addHTLC lc commitTx ourCommit (store lc e) revocation delay
                    isIncoming with
      | inl err => inl err
      | inr commitTx' =>
          addHTLCs lc commitTx' ourCommit rest revocation delay isIncoming
      end
  end.

(** [fetchCommitmentView].  [tip()] dereferences [Back()], so an empty chain
    panics before the [tip() == nil] test can be true; on a non-empty chain
    the balances are seeded from the tip. *)
Definition fetchCommitmentView (lc : LightningChannel) (remoteChain : bool)
    (ourLogIndex' theirLogIndex' : Z) (revocationKey revocationHash : bytes)
    : Outcome commitment :=
  let commitChain :=
    if remoteChain then remoteCommitChain lc else localCommitChain lc in
  match tip commitChain with
  | None => Panic
  | Some t =>
      let nextHeight := wrap64 (height t + 1) in
      let view := fetchHTLCView lc theirLogIndex' ourLogIndex' in
      match evaluateHTLCView lc view (ourBalance t) (theirBalance t)
                             nextHeight remoteChain with
      | None => Panic
      | Some (filteredHTLCView, ourBal, theirBal, s') =>
          let lc' := set_store s' lc in
          let cs := channelState lc' in
          let '(selfKey, remoteKey, delay, delayBalance, p2wkhBalance) :=
            if remoteChain then
              (TheirCommitKey cs, PubKey (OurCommitKey cs),
               RemoteCsvDelay cs, theirBal, ourBal)
            else
              (PubKey (OurCommitKey cs), TheirCommitKey cs,
               LocalCsvDelay cs, ourBal, theirBal) in
          let ourCommitTx := negb remoteChain in
          match createCommitTx (fundingTxIn lc') selfKey remoteKey
                               revocationKey delay delayBalance
                               p2wkhBalance with
          | inl err => Fail err lc'
          | inr commitTx =>
              match addHTLCs lc' commitTx ourCommitTx
                             (ourUpdates filteredHTLCView) revocationHash
                             delay false with
              | inl err => Fail err lc'
              | inr commitTx =>
                  match addHTLCs lc' commitTx ourCommitTx
                                 (theirUpdates filteredHTLCView)
                                 revocationHash delay true with
                  | inl err => Fail err lc'
                  | inr commitTx =>
                      match ColorifyTx (InPlaceSort commitTx) false with
                      | inl err => Fail err lc'
                      | inr commitTx =>
                          Return (mkCommitment nextHeight ourLogIndex'
                                    theirLogIndex' (Some commitTx) []
                                    ourBal theirBal) lc'
                      end
                  end
              end
          end
      end
  end.

Definition InitialRevocationWindow : Z := 4.

(** [SignNextCommitment] *)
Definition SignNextCommitment (lc : LightningChannel) : Outcome (bytes * Z) :=
  match revocationWindow lc with
  | [] => Fail ErrNoWindow lc
  | nextRevocation :: window' =>
      if decide (Z.of_nat (length (usedRevocations lc))
                 = InitialRevocationWindow) then Fail ErrNoWindow lc
      else
        match fetchCommitmentView lc true (ourLogCounter lc)
                (theirLogCounter lc) (NextRevocationKey nextRevocation)
                (NextRevocationHash nextRevocation) with
        | Panic => Panic
        | Fail err lc' => Fail err lc'
        | Return newCommitView lc' =>
            match txn newCommitView with
            | None => Panic
            | Some tx =>
                match RawTxInWitnessSignature tx 0
                        (Capacity (channelState lc'))
                        (FundingRedeemScript (channelState lc'))
                        (OurMultiSigKey (channelState lc')) with
                | None => Fail (ErrExt SignError) lc'
                | Some sig =>
                    let lc'' :=
                      set_remoteCommitChain
                        (addCommitment newCommitView (remoteCommitChain lc'))
                        lc' in
                    let lc'' :=
                      set_revocations
                        (usedRevocations lc'' ++ [nextRevocation]) window'
                        lc'' in
                    Return (sig, theirLogCounter lc'') lc''
                end
            end
        end
  end.

(** [ReceiveNewCommitment] *)
Definition ReceiveNewCommitment (lc : LightningChannel) (rawSig : bytes)
    (ourLogIndex' : Z) : Outcome unit :=
  let theirCommitKey := TheirCommitKey (channelState lc) in
  let theirMultiSigKey := TheirMultiSigKey (channelState lc) in
  let nextHeight := wrap64 (currentHeight lc + 1) in
  match elkremAtIndex (LocalElkrem (channelState lc)) nextHeight with
  | None => Fail (ErrExt ElkremError) lc
  | Some revocation =>
      let revocationKey := deriveRevocationPubkey theirCommitKey revocation in
      let revocationHash := sha256 revocation in
      match fetchCommitmentView lc false ourLogIndex' (theirLogCounter lc)
              revocationKey revocationHash with
      | Panic => Panic
      | Fail err lc' => Fail err lc'
      | Return localCommitmentView lc' =>
          match txn localCommitmentView with
          | None => Panic
          | Some localCommitTx =>
              match CalcWitnessSigHash
                      (FundingRedeemScript (channelState lc')) localCommitTx
                      0 (Capacity (channelState lc')) with
              | None => Fail (ErrExt SignError) lc'
              | Some sigHash =>
                  match ParseSignature rawSig with
                  | None => Fail (ErrExt ParseError) lc'
                  | Some sig =>
                      if negb (sigVerify sig sigHash theirMultiSigKey) then
                        Fail ErrInvalidCommitSig lc'
                      else
                        let view' :=
                          mkCommitment (height localCommitmentView)
                            (ourMessageIndex localCommitmentView)
                            (theirMessageIndex localCommitmentView)
                            (txn localCommitmentView) rawSig
                            (ourBalance localCommitmentView)
                            (theirBalance localCommitmentView) in
                        Return tt
                          (set_localCommitChain
                             (addCommitment view' (localCommitChain lc')) lc')
                  end
              end
          end
      end
  end.

(** [RevokeCurrentCommitment].  The trace statement reads
    [localCommitChain.tail().height] before the tail is advanced. *)
Definition RevokeCurrentCommitment (lc : LightningChannel)
    : Outcome CommitRevocation :=
  let theirCommitKey := TheirCommitKey (channelState lc) in
  match elkremAtIndex (LocalElkrem (channelState lc)) (currentHeight lc) with
  | None => Fail (ErrExt ElkremError) lc
  | Some currentRevocation =>
      let lc1 :=
        set_revocationWindowEdge (wrap64 (revocationWindowEdge lc + 1)) lc in
      match elkremAtIndex (LocalElkrem (channelState lc1))
                          (revocationWindowEdge lc1) with
      | None => Fail (ErrExt ElkremError) lc1
      | Some revocationEdge =>
          match advanceTail (localCommitChain lc1) with
          | None => Panic
          | Some chain' =>
              let lc2 := set_localCommitChain chain' lc1 in
              let lc3 := set_currentHeight (wrap64 (currentHeight lc2 + 1)) lc2 in
              match tail (localCommitChain lc3) with
              | None => Panic
              | Some tl =>
                  let lc4 :=
                    set_channelState (set_fromTail tl (channelState lc3)) lc3 in
                  if negb (FullSync (channelState lc4)) then
                    Fail (ErrExt DbError) lc4
                  else
                    Return (mkCommitRevocation (ChanID (channelState lc4))
                              currentRevocation
                              (deriveRevocationPubkey theirCommitKey
                                                      revocationEdge)
                              (sha256 revocationEdge)) lc4
              end
          end
      end
  end.

(** [list.Remove] of one element. *)
Definition listRemove (e : loc) (l : list loc) : list loc :=
  filter (fun x => x ≠ e) l.

(** The closure [compactLog] of [compactLogs]: [iter] is the part of [logA]
    still to be visited (the loop keeps the next element before it removes
    the current one).  [None] is the nil dereference of a parent missing
    from [indexB]. *)
Fixpoint compactLog (s : Store) (localChainTail remoteChainTail : Z)
    (iter : list loc) (logA logB : list loc) (indexB indexA : gmap Z loc)
    : option (list loc * list loc * gmap Z loc * gmap Z loc) :=
  match iter with
  | [] => Some (logA, logB, indexB, indexA)
  | e :: rest =>
      let htlc := s e in
      if decide (EntryType htlc = Add) then
        compactLog s localChainTail remoteChainTail rest
                   logA logB indexB indexA
      else if (removeCommitHeightRemote htlc =? 0)
              || (removeCommitHeightLocal htlc =? 0) then
        compactLog s localChainTail remoteChainTail rest
                   logA logB indexB indexA
      else if (remoteChainTail >=? removeCommitHeightRemote htlc)
              && (localChainTail >=? removeCommitHeightLocal htlc) then
        match indexB !! ParentIndex htlc with
        | None => None
        | Some parentLink =>
            let parentIndex := Index (s parentLink) in
            compactLog s localChainTail remoteChainTail rest
                       (listRemove e logA) (listRemove parentLink logB)
                       (delete parentIndex indexB)
                       (delete (Index htlc) indexA)
        end
      else
        compactLog s localChainTail remoteChainTail rest
                   logA logB indexB indexA
  end.

(** [compactLogs], called with the channel's own two logs. *)
Definition compactLogs (lc : LightningChannel)
    (localChainTail remoteChainTail : Z) : option LightningChannel :=
  match compactLog (store lc) localChainTail remoteChainTail
          (ourUpdateLog lc) (ourUpdateLog lc) (theirUpdateLog lc)
          (theirLogIndex lc) (ourLogIndex lc) with
  | None => None
  | Some (ourLog1, theirLog1, theirIndex1, ourIndex1) =>
      match compactLog (store lc) localChainTail remoteChainTail
              theirLog1 theirLog1 ourLog1 ourIndex1 theirIndex1 with
      | None => None
      | Some (theirLog2, ourLog2, ourIndex2, theirIndex2) =>
          Some (set_theirLog (theirLogCounter lc) theirLog2 theirIndex2
                  (set_ourLog (ourLogCounter lc) ourLog2 ourIndex2 lc))
      end
  end.

(** The loop of [ReceiveRevocation] that collects the entries to forward. *)
Fixpoint forwardPass (remoteChainTail localChainTail : Z)
    (entries : list loc) (s : Store) : Store * list loc :=
  match entries with
  | [] => (s, [])
  | e :: rest =>
      let htlc := s e in
      if isForwarded htlc then
        forwardPass remoteChainTail localChainTail rest s
      else
        let uncomitted :=
          (addCommitHeightRemote htlc =? 0)
          || (addCommitHeightLocal htlc =? 0) in
        if bool_decide (EntryType htlc = Add) && uncomitted then
          forwardPass remoteChainTail localChainTail rest s
        else if (bool_decide (EntryType htlc = Add)
                 && (remoteChainTail >=? addCommitHeightRemote htlc)
                 && (localChainTail >=? addCommitHeightLocal htlc))
                || (bool_decide (EntryType htlc ≠ Add)
                    && (remoteChainTail >=? removeCommitHeightRemote htlc)
                    && (localChainTail >=? removeCommitHeightLocal htlc)) then
          let '(s', fwd) :=
            forwardPass remoteChainTail localChainTail rest
                        (storeSet e (set_isForwarded true htlc) s) in
          (s', e :: fwd)
        else
          forwardPass remoteChainTail localChainTail rest s
  end.

(** [ReceiveRevocation].  The returned descriptors are the locations of the
    entries to forward. *)
Definition ReceiveRevocation (lc : LightningChannel)
    (revMsg : CommitRevocation) : Outcome (list loc) :=
  if decide (zeroHash = Revocation revMsg) then
    Return [] (set_revocations (usedRevocations lc)
                 (revocationWindow lc ++ [revMsg]) lc)
  else
    let ourCommitKey := OurCommitKey (channelState lc) in
    let currentRevocationKey := TheirCurrentRevocation (channelState lc) in
    let pendingRevocation := Revocation revMsg in
    match elkremAddNext (RemoteElkrem (channelState lc)) pendingRevocation with
    | None => Fail (ErrExt ElkremError) lc
    | Some remoteElkrem =>
        let lc1 :=
          set_channelState (set_RemoteElkrem remoteElkrem (channelState lc))
                           lc in
        let revocationPriv :=
          deriveRevocationPrivKey ourCommitKey pendingRevocation in
        if decide (PubKey revocationPriv ≠ currentRevocationKey) then
          Fail ErrRevocationKeyMismatch lc1
        else if bool_decide
                  (TheirCurrentRevocationHash (channelState lc1) ≠ zeroHash)
                && bool_decide
                     (TheirCurrentRevocationHash (channelState lc1)
                      ≠ sha256 pendingRevocation) then
          Fail ErrRevocationHashMismatch lc1
        else
          match usedRevocations lc1 with
          | [] => Panic
          | nextRevocation :: used' =>
              let lc2 :=
                set_channelState
                  (set_TheirCurrentRevocation
                     (NextRevocationKey nextRevocation)
                     (NextRevocationHash nextRevocation) (channelState lc1))
                  lc1 in
              let lc3 :=
                set_revocations used' (revocationWindow lc2 ++ [revMsg]) lc2 in
              match tail (remoteCommitChain lc3) with
              | None => Panic      (* read by the trace statement *)
              | Some _ =>
                  if negb (SyncRevocation (channelState lc3)) then
                    Fail (ErrExt DbError) lc3
                  else
                    match advanceTail (remoteCommitChain lc3) with
                    | None => Panic
                    | Some chain' =>
                        let lc4 := set_remoteCommitChain chain' lc3 in
                        match tail (remoteCommitChain lc4),
                              tail (localCommitChain lc4) with
                        | Some rt, Some lt =>
                            let remoteChainTail := height rt in
                            let localChainTail := height lt in
                            let '(s', htlcsToForward) :=
                              forwardPass remoteChainTail localChainTail
                                (theirUpdateLog lc4) (store lc4) in
                            match compactLogs (set_store s' lc4)
                                    localChainTail remoteChainTail with
                            | None => Panic
                            | Some lc5 => Return htlcsToForward lc5
                            end
                        | _, _ => Panic
                        end
                    end
              end
          end
    end.

(** [ExtendRevocationWindow] *)
Definition ExtendRevocationWindow (lc : LightningChannel)
    : Outcome CommitRevocation :=
  let nextHeight := wrap64 (revocationWindowEdge lc + 1) in
  match elkremAtIndex (LocalElkrem (channelState lc)) nextHeight with
  | None => Fail (ErrExt ElkremError) lc
  | Some revocation =>
      let theirCommitKey := TheirCommitKey (channelState lc) in
      Return (mkCommitRevocation (ChanID (channelState lc)) zeroHash
                (deriveRevocationPubkey theirCommitKey revocation)
                (sha256 revocation))
             (set_revocationWindowEdge
                (wrap64 (revocationWindowEdge lc + 1)) lc)
  end.

(** [AddHTLC]; [RedemptionHashes[0]] panics on an empty slice. *)
Definition AddHTLC (lc : LightningChannel) (htlc : HTLCAddRequest)
    : Outcome Z :=
  match RedemptionHashes htlc with
  | [] => Panic
  | rhash :: _ =>
      let pd :=
        mkPD rhash (Expiry htlc) (reqAmount htlc) (ourLogCounter lc) 0 []
             Add 0 0 0 0 false false in
      let '(e, lc1) := alloc pd lc in
      Return (Index pd)
        (set_ourLog (wrap32 (ourLogCounter lc1 + 1))
           (ourUpdateLog lc1 ++ [e]) (<[Index pd := e]> (ourLogIndex lc1)) lc1)
  end.

(** [ReceiveHTLC] *)
Definition ReceiveHTLC (lc : LightningChannel) (htlc : HTLCAddRequest)
    : Outcome Z :=
  match RedemptionHashes htlc with
  | [] => Panic
  | rhash :: _ =>
      let pd :=
        mkPD rhash (Expiry htlc) (reqAmount htlc) (theirLogCounter lc) 0 []
             Add 0 0 0 0 false false in
      let '(e, lc1) := alloc pd lc in
      Return (Index pd)
        (set_theirLog (wrap32 (theirLogCounter lc1 + 1))
           (theirUpdateLog lc1 ++ [e]) (<[Index pd := e]> (theirLogIndex lc1))
           lc1)
  end.

(** The search loop of [SettleHTLC]. *)
Fixpoint findTargetHTLC (s : Store) (paymentHash : bytes)
    (entries : list loc) : option loc :=
  match entries with
  | [] => None
  | e :: rest =>
      let htlc := s e in
      if decide (EntryType htlc ≠ Add) then findTargetHTLC s paymentHash rest
      else if negb (settled htlc) && bool_decide (RHash htlc = paymentHash)
      then Some e
      else findTargetHTLC s paymentHash rest
  end.

(** [SettleHTLC] *)
Definition SettleHTLC (lc : LightningChannel) (preimage : bytes)
    : Outcome Z :=
  let paymentHash := sha256 preimage in
  match findTargetHTLC (store lc) paymentHash (theirUpdateLog lc) with
  | None => Fail ErrInvalidPaymentHash lc
  | Some targetHTLC =>
      let lc1 :=
        set_store (storeSet targetHTLC
                     (set_settled true (store lc targetHTLC)) (store lc)) lc in
      let parentPd := store lc1 targetHTLC in
      let pd :=
        mkPD [] 0 (Amount parentPd) (ourLogCounter lc1) (Index parentPd) []
             Settle 0 0 0 0 false false in
      let '(e, lc2) := alloc pd lc1 in
      let lc3 :=
        set_ourLog (wrap32 (ourLogCounter lc2 + 1)) (ourUpdateLog lc2 ++ [e])
                   (ourLogIndex lc2) lc2 in
      Return (Index (store lc3 targetHTLC)) lc3
  end.

(** [ReceiveHTLCSettle] *)
Definition ReceiveHTLCSettle (lc : LightningChannel) (preimage : bytes)
    (logIndex : Z) : Outcome unit :=
  let paymentHash := sha256 preimage in
  match ourLogIndex lc !! logIndex with
  | None => Fail ErrNonExistentLogEntry lc
  | Some addEntry =>
      let htlc := store lc addEntry in
      if decide (RHash htlc ≠ paymentHash) then Fail ErrInvalidPaymentHash lc
      else
        let pd :=
          mkPD [] 0 (Amount htlc) (theirLogCounter lc) (Index htlc) []
               Settle 0 0 0 0 false false in
        let '(e, lc1) := alloc pd lc in
        Return tt
          (set_theirLog (wrap32 (theirLogCounter lc1 + 1))
             (theirUpdateLog lc1 ++ [e]) (theirLogIndex lc1) lc1)
  end.

(** [createCooperativeCloseTx]; [None] is the [log.Fatal] taken when
    [ColorifyTx] fails.  The fee deduction is commented out in the source,
    so [initiator] is not used. *)
Definition createCooperativeCloseTx (fundingTxIn' : TxIn)
    (ourBal theirBal : Z) (ourDeliveryScript theirDeliveryScript : bytes)
    (initiator : bool) : option MsgTx :=
  let closeTx := AddTxIn fundingTxIn' NewMsgTx in
  let closeTx :=
    if decide (ourBal ≠ 0) then
      AddTxOut (mkTxOut ourBal ourDeliveryScript) closeTx
    else closeTx in
  let closeTx :=
    if decide (theirBal ≠ 0) then
      AddTxOut (mkTxOut theirBal theirDeliveryScript) closeTx
    else closeTx in
  match ColorifyTx (InPlaceSort closeTx) false with
  | inl _ => None
  | inr closeTx => Some closeTx
  end.

(** The transaction [InitCooperativeClose] builds and signs. *)
Definition closeTxOf (lc : LightningChannel) (initiator : bool)
    : option MsgTx :=
  createCooperativeCloseTx (fundingTxIn lc)
    (OurBalance (channelState lc)) (TheirBalance (channelState lc))
    (OurDeliveryScript (channelState lc))
    (TheirDeliveryScript (channelState lc)) initiator.

(** [InitCooperativeClose] *)
Definition InitCooperativeClose (lc : LightningChannel)
    : Outcome (bytes * bytes) :=
  if bool_decide (status lc = channelClosing)
     || bool_decide (status lc = channelClosed) then
    Fail ErrChanClosing lc
  else
    let lc1 := set_status channelClosing lc in
    match closeTxOf lc1 true with
    | None => Panic
    | Some closeTx =>
        let closeTxSha := TxSha closeTx in
        match RawTxInWitnessSignature closeTx 0
                (Capacity (channelState lc1))
                (FundingRedeemScript (channelState lc1))
                (OurMultiSigKey (channelState lc1)) with
        | None => Fail (ErrExt SignError) lc1
        | Some closeSig => Return (closeSig, closeTxSha) lc1
        end
    end.

(** The transactions that hold the funding input.  [createCommitTx] adds
    the pointer [lc.fundingTxIn] to every commitment transaction and
    [ColorifyTx] copies the pointer into the transaction it returns, so the
    transaction of every commitment of both chains holds the channel's own
    funding input.  [RevokeCurrentCommitment] stores the transaction of the
    local tail in [channelState.OurCommitTx], which is that transaction
    from then on.  Before the first revocation the local tail is the
    initial commitment, which has no transaction, and [OurCommitTx] is the
    transaction the channel state came with, whose input is an object of
    its own.  A state holds values, not pointers: [OurCommitTx] is read as
    the transaction of the local tail when the two are equal, which in a
    channel made by [NewLightningChannel] is the case exactly from the
    first revocation on (or when there is no transaction at all). *)
Definition ourCommitTxOfTail (lc : LightningChannel) : Prop :=
  match tail (localCommitChain lc) with
  | Some t => txn t = OurCommitTx (channelState lc)
  | None => False
  end.

#[global] Instance ourCommitTxOfTail_decision lc :
  Decision (ourCommitTxOfTail lc).
Proof. unfold ourCommitTxOfTail. destruct (tail _); apply _. Defined.

(** A write that turns the funding input [old] into [new], as seen from
    the channel: through [lc.fundingTxIn], through the commitment
    transactions of both chains, and through [channelState.OurCommitTx]
    when it is the transaction of the local tail. *)
Definition writeFundingTxIn (old new : TxIn) (lc : LightningChannel)
    : LightningChannel :=
  let state :=
    if decide (ourCommitTxOfTail lc) then
      set_OurCommitTx (shareTxIn old new <$> OurCommitTx (channelState lc))
                      (channelState lc)
    else channelState lc in
  set_channelState state
    (set_localCommitChain (shareTxInChain old new (localCommitChain lc))
       (set_remoteCommitChain (shareTxInChain old new (remoteCommitChain lc))
          (set_fundingTxIn new lc))).

(** [CompleteCooperativeClose].  The close transaction holds the pointer
    [lc.fundingTxIn]; writing the witness into [closeTx.TxIn[0]] writes it
    into the channel's funding input and into every transaction that holds
    that input. *)
Definition CompleteCooperativeClose (lc : LightningChannel)
    (remoteSig : bytes) : Outcome MsgTx :=
  if bool_decide (status lc = channelClosing)
     || bool_decide (status lc = channelClosed) then
    Fail ErrChanClosing lc
  else
    let lc1 := set_status channelClosed lc in
    match closeTxOf lc1 false with
    | None => Panic
    | Some closeTx =>
        let redeemScript := FundingRedeemScript (channelState lc1) in
        let capacity := Capacity (channelState lc1) in
        match RawTxInWitnessSignature closeTx 0 capacity redeemScript
                (OurMultiSigKey (channelState lc1)) with
        | None => Fail (ErrExt SignError) lc1
        | Some closeSig =>
            let ourKey := PubKey (OurMultiSigKey (channelState lc1)) in
            let theirKey := TheirMultiSigKey (channelState lc1) in
            let witness :=
              spendMultiSig redeemScript ourKey closeSig theirKey remoteSig in
            match txIn closeTx with
            | [] => Panic
            | ti :: tis =>
                let ti' :=
                  mkTxIn (PreviousOutPoint ti) (SignatureScript ti) witness
                         (Sequence ti) in
                let closeTx' :=
                  mkMsgTx (Version closeTx) (ti' :: tis) (txOut closeTx)
                          (LockTime closeTx) in
                let lc2 := writeFundingTxIn ti ti' lc1 in
                if negb (engineExecute (fundingP2WSH lc2) closeTx' 0 capacity)
                then Fail (ErrExt EngineError) lc2
                else Return closeTx' lc2
            end
        end
    end.

(** ** Runs of the state machine *)

(** The public methods that change the channel, with their arguments. *)
Inductive Op :=
  | OpSignNextCommitment
  | OpReceiveNewCommitment (rawSig : bytes) (ourLogIndex' : Z)
  | OpRevokeCurrentCommitment
  | OpReceiveRevocation (revMsg : CommitRevocation)
  | OpExtendRevocationWindow
  | OpAddHTLC (htlc : HTLCAddRequest)
  | OpReceiveHTLC (htlc : HTLCAddRequest)
  | OpSettleHTLC (preimage : bytes)
  | OpReceiveHTLCSettle (preimage : bytes) (logIndex : Z)
  | OpInitCooperativeClose
  | OpCompleteCooperativeClose (remoteSig : bytes).

(** The channel a caller holds after a call; a panic ends the run. *)
Definition after {A} (o : Outcome A) : option LightningChannel :=
  match o with
  | Return _ lc => Some lc
  | Fail _ lc => Some lc
  | Panic => None
  end.

Definition step (lc : LightningChannel) (op : Op) : option LightningChannel :=
  match op with
  | OpSignNextCommitment => after (SignNextCommitment lc)
  | OpReceiveNewCommitment rawSig i => after (ReceiveNewCommitment lc rawSig i)
  | OpRevokeCurrentCommitment => after (RevokeCurrentCommitment lc)
  | OpReceiveRevocation revMsg => after (ReceiveRevocation lc revMsg)
  | OpExtendRevocationWindow => after (ExtendRevocationWindow lc)
  | OpAddHTLC htlc => after (AddHTLC lc htlc)
  | OpReceiveHTLC htlc => after (ReceiveHTLC lc htlc)
  | OpSettleHTLC preimage => after (SettleHTLC lc preimage)
  | OpReceiveHTLCSettle preimage i => after (ReceiveHTLCSettle lc preimage i)
  | OpInitCooperativeClose => after (InitCooperativeClose lc)
  | OpCompleteCooperativeClose remoteSig =>
      after (CompleteCooperativeClose lc remoteSig)
  end.

Fixpoint run (lc : LightningChannel) (ops : list Op)
    : option LightningChannel :=
  match ops with
  | [] => Some lc
  | op :: rest =>
      match step lc op with
      | None => None
      | Some lc' => run lc' rest
      end
  end.

(** A revocation with the zero pre-image only extends the window. *)
Definition isWindowExtension (op : Op) : bool :=
  match op with
  | OpReceiveRevocation revMsg => bool_decide (zeroHash = Revocation revMsg)
  | _ => false
  end.

Definition windowExtensions (ops : list Op) : nat :=
  length (List.filter isWindowExtension ops).

End Channel.

(** ** Coin selection ([wallet.go]) *)

Inductive Result (A : Type) :=
  | ROk (v : A)
  | RErr (e : Error)
  | RPanic.
Arguments ROk {A} v.
Arguments RErr {A} e.
Arguments RPanic {A}.

(** [lndcc.TxoData] *)
Record TxoData := mkTxoData {
  AssetId : string;
  cdValue : Z;               (* field [Value btcutil.Amount] *)
}.

(** [Utxo]; [ColorData] is a pointer, [None] when nil. *)
Record Utxo := mkUtxo {
  utxoValue : Z;             (* field [Value] *)
  ColorData : option TxoData;
  utxoOutPoint : OutPoint;   (* the embedded [wire.OutPoint] *)
}.

(** The loop of [selectInputs]; [coins] is [coins[i:]]. *)
Fixpoint selectInputsLoop (amt : Z) (assetId : string) (coins : list Utxo)
    (selectedUtxos : list OutPoint) (satSelected : Z)
    : Result (Z * list OutPoint) :=
  if satSelected <? amt then
    match coins with
    | [] => RErr ErrInsufficientFunds
    | coin :: rest =>
        let utxo :=
          mkOutPoint (opHash (utxoOutPoint coin)) (opIndex (utxoOutPoint coin)) in
        match ColorData coin with
        | None => RPanic
        | Some cd =>
            if decide (AssetId cd = assetId) then
              selectInputsLoop amt assetId rest (selectedUtxos ++ [utxo])
                               (wrapI64 (satSelected + cdValue cd))
            else
              selectInputsLoop amt assetId rest selectedUtxos satSelected
        end
    end
  else ROk (satSelected, selectedUtxos).

(** [selectInputs] *)
Definition selectInputs (amt : Z) (coins : list Utxo) (assetId : string)
    : Result (Z * list OutPoint) :=
  selectInputsLoop amt assetId coins [] 0.

(** [coinSelect]: the selected outpoints and the change amount. *)
Definition coinSelect (feeRate : Z) (amt : Z) (coins : list Utxo)
    (assetId : string) : Result (list OutPoint * Z) :=
  match selectInputs amt coins assetId with
  | ROk (totalTokens, selectedUtxos) =>
      ROk (selectedUtxos, wrapI64 (totalTokens - amt))
  | RErr e => RErr e
  | RPanic => RPanic
  end.

(** ** Definitions used in the statements *)

(** The colored-coin instructions [ColorifyTx] builds for a list of outputs. *)
Definition instructionsOf (outs : list TxOut) : list CcInstruction :=
  imap (fun i (o : TxOut) =>
          mkCcInstruction false false false (wrap32 (Z.of_nat i)) (Value o))
       outs.

(** The outputs [createCooperativeCloseTx] adds before sorting: one per
    party with a non-zero settled balance, paying that balance to the
    party's delivery script. *)
Definition settledOutputs (cs : OpenChannel) : list TxOut :=
  (if decide (OurBalance cs ≠ 0)
   then [mkTxOut (OurBalance cs) (OurDeliveryScript cs)] else [])
  ++ (if decide (TheirBalance cs ≠ 0)
      then [mkTxOut (TheirBalance cs) (TheirDeliveryScript cs)] else []).

(** The close transaction in closed form: the sorted settled outputs with
    their values replaced by dust, and the OP_RETURN output. *)
Definition coloredCloseTx (lc : LightningChannel) (opReturn : bytes) : MsgTx :=
  mkMsgTx 1 [fundingTxIn lc]
    (map (fun o => mkTxOut 546 (PkScript o))
         (sortBy outputLess (settledOutputs (channelState lc)))
     ++ [mkTxOut 0 (OP_RETURN :: WriteVarBytes opReturn)]) 0.

(** The asset-filtered value of a coin: its [ColorData.Value] when its
    [ColorData.AssetId] is the configured asset, nothing otherwise. *)
Definition assetValue (assetId : string) (coin : Utxo) : Z :=
  match ColorData coin with
  | Some cd => if decide (AssetId cd = assetId) then cdValue cd else 0
  | None => 0
  end.

Definition assetSum (assetId : string) (coins : list Utxo) : Z :=
  foldr (fun c acc => assetValue assetId c + acc) 0 coins.

(** The outpoints of the coins of the configured asset. *)
Definition assetOutPoints (assetId : string) (coins : list Utxo)
    : list OutPoint :=
  omap (fun c =>
          match ColorData c with
          | Some cd =>
              if decide (AssetId cd = assetId) then
                Some (mkOutPoint (opHash (utxoOutPoint c))
                                 (opIndex (utxoOutPoint c)))
              else None
          | None => None
          end) coins.

(** Coins as [ListUnspentWitness] lists them: every coin has its color
    data, values are amounts (not negative), and the total fits [int64]. *)
Definition coinsWellFormed (assetId : string) (coins : list Utxo) : Prop :=
  Forall (fun c => is_Some (ColorData c) /\ 0 <= assetValue assetId c) coins
  /\ assetSum assetId coins < 2 ^ 63.

(** An un-settled Add entry with the given payment hash. *)
Definition settleCandidate (s : Store) (paymentHash : bytes) (e : loc) : Prop :=
  EntryType (s e) = Add /\ settled (s e) = false /\ RHash (s e) = paymentHash.

(** Every descriptor in the logs was allocated before [nextLoc]. *)
Definition logsAllocated (lc : LightningChannel) : Prop :=
  Forall (fun e => (e < nextLoc lc)%nat) (ourUpdateLog lc ++ theirUpdateLog lc).

(** The chain a commitment view is built for. *)
Definition chainOf (lc : LightningChannel) (remoteChain : bool)
    : commitmentChain :=
  if remoteChain then remoteCommitChain lc else localCommitChain lc.

(** The condition under which [compactLog] evicts an entry. *)
Definition evictable (s : Store) (localChainTail remoteChainTail : Z)
    (e : loc) : Prop :=
  EntryType (s e) <> Add
  /\ removeCommitHeightRemote (s e) <> 0
  /\ removeCommitHeightLocal (s e) <> 0
  /\ removeCommitHeightRemote (s e) <= remoteChainTail
  /\ removeCommitHeightLocal (s e) <= localChainTail.

#[global] Instance evictable_decision s lt rt e : Decision (evictable s lt rt e).
Proof. unfold evictable. apply _. Defined.

(** The index maps hold Add entries only ([AddHTLC] and [ReceiveHTLC] are
    the only writers). *)
Definition indexesAdds (s : Store) (index : gmap Z loc) : Prop :=
  forall k e, index !! k = Some e -> EntryType (s e) = Add.


(** The part of the channel the revocation window lives in. *)
Definition revState (lc : LightningChannel)
    : list CommitRevocation * list CommitRevocation * commitmentChain :=
  (usedRevocations lc, revocationWindow lc, remoteCommitChain lc).

(** Consecutive commitments of a chain are one height apart ([uint64]). *)
Fixpoint contiguous (l : list commitment) : Prop :=
  match l with
  | c :: rest =>
      match rest with
      | c' :: _ => height c' = wrap64 (height c + 1) /\ contiguous rest
      | [] => True
      end
  | [] => True
  end.

(** The invariant of the revocation window after a run that received
    [n] window extensions. *)
Definition windowInvariant (lc : LightningChannel) (n : nat) : Prop :=
  (length (usedRevocations lc) + length (revocationWindow lc) = n)%nat
  /\ length (commitments (remoteCommitChain lc))
     = S (length (usedRevocations lc))
  /\ contiguous (commitments (remoteCommitChain lc))
  /\ (length (usedRevocations lc) <= 4)%nat.

(** Congruence modulo 2^64: equality of machine integers up to
    wrap-around. *)
Definition eqm64 (a b : Z) : Prop := a mod 2 ^ 64 = b mod 2 ^ 64.

(** The sum of the Amounts of a list of entries. *)
Definition amountSum (s : Store) (entries : list loc) : Z :=
  foldr (fun e acc => Amount (s e) + acc) 0 entries.

(** The entries already committed on a chain (non-zero add height), and
    those not yet committed. *)
Definition committedSum (s : Store) (remoteChain : bool)
    (entries : list loc) : Z :=
  amountSum s (filter (fun e => addHeight remoteChain (s e) <> 0) entries).

Definition freshSum (s : Store) (remoteChain : bool)
    (entries : list loc) : Z :=
  amountSum s (filter (fun e => addHeight remoteChain (s e) = 0) entries).

(** The Settle/Timeout entries not yet processed on a chain (zero remove
    height): the removals a view of that chain applies for the first
    time. *)
Definition newRemovals (s : Store) (remoteChain : bool)
    (entries : list loc) : list loc :=
  filter (fun e => EntryType (s e) <> Add
                   /\ removeHeight remoteChain (s e) = 0) entries.

Definition creditSum (s : Store) (remoteChain : bool)
    (entries : list loc) : Z :=
  amountSum s (newRemovals s remoteChain entries).

(** The fields a view evaluation never writes. *)
Definition sameStatic (s s' : Store) : Prop :=
  forall x, Amount (s' x) = Amount (s x)
            /\ EntryType (s' x) = EntryType (s x)
            /\ Index (s' x) = Index (s x).


(** ** Test doubles *)

(** A deterministic stand-in for the external packages, used to run the
    model on concrete channels: every builder succeeds, every signature
    verifies, the database never fails. *)
Definition testExternals : Externals := {|
  sha256 := fun b => x01 :: b;
  witnessScriptHash := fun s => Some (x00 :: s);
  commitScriptToSelf := fun _ k r => Some (k ++ r);
  commitScriptUnencumbered := fun k => Some k;
  senderHTLCScript := fun _ _ _ _ _ h => Some (x02 :: h);
  receiverHTLCScript := fun _ _ _ _ _ h => Some (x03 :: h);
  spendMultiSig := fun s _ s1 _ s2 => [s1; s2; s];
  deriveRevocationPubkey := fun k r => k ++ r;
  deriveRevocationPrivKey := fun k r => k ++ r;
  PubKey := fun k => k;
  ParseSignature := fun s => Some s;
  sigVerify := fun _ _ _ => true;
  RawTxInWitnessSignature := fun _ _ _ _ k => Some k;
  CalcWitnessSigHash := fun _ _ _ _ => Some [];
  engineExecute := fun _ _ _ _ => true;
  TxSha := fun _ => [];
  elkremAtIndex := fun root i => Some (byteOfZ i :: root);
  elkremConsistent := fun _ _ => true;
  FullSync := fun _ => true;
  SyncRevocation := fun _ => true;
  EncodeCcInstructions :=
    fun insts => Some (map (fun i => byteOfZ (ccAmount i)) insts);
|}.

Definition testOutPoint : OutPoint := mkOutPoint (replicate 32 x07) 0.

(** A channel of capacity 1000 with settled balances 500/500. *)
Definition testState : OpenChannel :=
  mkOpenChannel testOutPoint testOutPoint 1000 500 500 0 None []
    [x0a] [x0b] [x0c] [x0d] [x0e] [x11] [x12] 144 144 [x0f] []
    (x0a :: replicate 32 x05) zeroHash.

Definition emptyChannel (state : OpenChannel) : LightningChannel :=
  mkLC 0 0 channelPending 0 0 [] [] (mkChain [] 0) (mkChain [] 0) state
       [] [] ∅ ∅ (NewTxIn testOutPoint [] []) [] (fun _ => zeroPD) O.

Definition newChannel (E : Externals) (state : OpenChannel)
    : LightningChannel :=
  match @NewLightningChannel E state with
  | inr lc => lc
  | inl _ => emptyChannel state
  end.

Definition testChannel : LightningChannel := newChannel testExternals testState.

(** A window extension as sent by [ExtendRevocationWindow]: the key and
    the hash are those of the pre-image 06..06 under the test doubles. *)
Definition testExtension : CommitRevocation :=
  mkCommitRevocation testOutPoint zeroHash (x0a :: replicate 32 x06)
                     (x01 :: replicate 32 x06).

(** An HTLC of 100 units whose payment hash is [sha256 []] under
    [testExternals]. *)
Definition testHTLC : HTLCAddRequest := mkHTLCAddRequest 600 100 [[x01]].

(** The channel after a run of operations on the test channel (the test
    channel itself if the run panics). *)
Definition testRun (ops : list Op) : LightningChannel :=
  match @run testExternals testChannel ops with
  | Some lc => lc
  | None => testChannel
  end.

(** The test channel after receiving the test HTLC. *)
Definition testChannelWithHTLC : LightningChannel :=
  testRun [OpReceiveHTLC testHTLC].

(** A revocation of the test channel's current commitment with a pre-image
    that does not derive the stored revocation key. *)
Definition testBadRevocation : CommitRevocation :=
  mkCommitRevocation testOutPoint (replicate 32 x09) [x0b; x02] [x01; x02].

(** The revocation of the test channel's first remote commitment. *)
Definition testRevocation : CommitRevocation :=
  mkCommitRevocation testOutPoint (replicate 32 x05)
                     (x0a :: replicate 32 x07) (x01 :: replicate 32 x07).


(** The test channel with one window extension and an outgoing HTLC, not
    yet committed. *)
Definition testChannelOffering : LightningChannel :=
  testRun [OpReceiveRevocation testExtension; OpAddHTLC testHTLC].

(** The test channel with one window extension and an incoming HTLC that
    was settled before any commitment included it. *)
Definition testChannelEarlySettle : LightningChannel :=
  testRun [OpReceiveRevocation testExtension; OpReceiveHTLC testHTLC;
           OpSettleHTLC []].

(** The revocation of the test channel's second remote commitment. *)
Definition testRevocation2 : CommitRevocation :=
  mkCommitRevocation testOutPoint (replicate 32 x06)
                     (x0a :: replicate 32 x08) (x01 :: replicate 32 x08).

(** An incoming HTLC locked in on both chains, settled, and the settlement
    locked in on both chains: two full rounds of sign / receive / revoke /
    receive-revocation. *)
Definition testSettleRoundTrip : list Op :=
  [OpReceiveRevocation testExtension; OpReceiveRevocation testExtension;
   OpReceiveHTLC testHTLC;
   OpSignNextCommitment; OpReceiveNewCommitment [] 0;
   OpRevokeCurrentCommitment; OpReceiveRevocation testRevocation;
   OpSettleHTLC [];
   OpSignNextCommitment; OpReceiveNewCommitment [] 1;
   OpRevokeCurrentCommitment; OpReceiveRevocation testRevocation2].

(** ** Further functions of [channel.go] *)

(** [PendingUpdates]: the two chain tips are compared on [ourMessageIndex]
    only; [None] is the nil dereference of [Back()] on an empty chain. *)
Definition PendingUpdates (lc : LightningChannel) : option bool :=
  match tip (localCommitChain lc), tip (remoteCommitChain lc) with
  | Some localTip, Some remoteTip =>
      Some (negb (ourMessageIndex localTip =? ourMessageIndex remoteTip))
  | _, _ => None
  end.

(** ** Further definitions used in the statements *)

(** The local side of the channel: our current height, our commitment
    chain and the two persisted balances. *)
Definition localState (lc : LightningChannel)
    : Z * commitmentChain * Z * Z :=
  (currentHeight lc, localCommitChain lc,
   OurBalance (channelState lc), TheirBalance (channelState lc)).

(** The local chain is never empty, its commitments are one height apart,
    and its oldest commitment is the current state: its height is
    [currentHeight] and its balances are the persisted ones. *)
Definition localInvariant (lc : LightningChannel) : Prop :=
  contiguous (commitments (localCommitChain lc))
  /\ exists t,
       tail (localCommitChain lc) = Some t
       /\ height t = currentHeight lc
       /\ ourBalance t = OurBalance (channelState lc)
       /\ theirBalance t = TheirBalance (channelState lc).

(** A close has been started or completed. *)
Definition closeStarted (lc : LightningChannel) : Prop :=
  status lc = channelClosing \/ status lc = channelClosed.

(** The operations that only write the update logs. *)
Definition isLogUpdate (op : Op) : bool :=
  match op with
  | OpAddHTLC _ | OpReceiveHTLC _ | OpSettleHTLC _
  | OpReceiveHTLCSettle _ _ => true
  | _ => false
  end.

(** An entry is locked in at the two chain tails: an Add entry when both
    chains have committed it (non-zero add heights) no later than their
    tails, a Settle or Timeout entry when its remove heights are not above
    the tails. *)
Definition lockedIn (remoteChainTail localChainTail : Z)
    (p : PaymentDescriptor) : Prop :=
  if decide (EntryType p = Add) then
    addCommitHeightRemote p <> 0 /\ addCommitHeightLocal p <> 0
    /\ addCommitHeightRemote p <= remoteChainTail
    /\ addCommitHeightLocal p <= localChainTail
  else
    removeCommitHeightRemote p <= remoteChainTail
    /\ removeCommitHeightLocal p <= localChainTail.

#[global] Instance lockedIn_decision rt lt p : Decision (lockedIn rt lt p).
Proof. unfold lockedIn. destruct (decide (EntryType p = Add)); apply _. Defined.

(** The Indexes of the Add entries that the Settle and Timeout entries of a
    list name as their parents, looked up in the other log's index map. *)
Definition removedParents (s : Store) (index : gmap Z loc)
    (entries : list loc) : gset Z :=
  list_to_set
    (omap (fun e =>
             if decide (EntryType (s e) = Add) then None
             else (fun parent => Index (s parent))
                    <$> index !! ParentIndex (s e))
          entries).

(** The Add entries of a list that no removal of the other log names. *)
Definition liveAdds (s : Store) (removed : gset Z) (entries : list loc)
    : list loc :=
  filter (fun e => EntryType (s e) = Add /\ Index (s e) ∉ removed) entries.

(** A descriptor and a later version of it: the fields given at creation
    are the same, a commit height that was written (non-zero) is the same,
    and the two marks are still set if they were. *)
Definition laterVersion (p p' : PaymentDescriptor) : Prop :=
  RHash p' = RHash p
  /\ TimeoutHeight p' = TimeoutHeight p
  /\ Amount p' = Amount p
  /\ Index p' = Index p
  /\ ParentIndex p' = ParentIndex p
  /\ Payload p' = Payload p
  /\ EntryType p' = EntryType p
  /\ (addCommitHeightRemote p <> 0 ->
      addCommitHeightRemote p' = addCommitHeightRemote p)
  /\ (addCommitHeightLocal p <> 0 ->
      addCommitHeightLocal p' = addCommitHeightLocal p)
  /\ (removeCommitHeightRemote p <> 0 ->
      removeCommitHeightRemote p' = removeCommitHeightRemote p)
  /\ (removeCommitHeightLocal p <> 0 ->
      removeCommitHeightLocal p' = removeCommitHeightLocal p)
  /\ (isForwarded p = true -> isForwarded p' = true)
  /\ (settled p = true -> settled p' = true).

(** Between two states of a channel no descriptor was freed, and every
    descriptor allocated in the first is a later version in the second. *)
Definition storeGrows (lc lc' : LightningChannel) : Prop :=
  (nextLoc lc <= nextLoc lc')%nat
  /\ forall x, (x < nextLoc lc)%nat ->
               laterVersion (store lc x) (store lc' x).

(** The logs, the index maps and the allocation mark. *)
Definition logSide (lc : LightningChannel)
    : list loc * list loc * gmap Z loc * gmap Z loc * loc :=
  (ourUpdateLog lc, theirUpdateLog lc, ourLogIndex lc, theirLogIndex lc,
   nextLoc lc).

(** An index map is well formed for a log: every key leads to an allocated
    Add entry of the log whose Index is the key. *)
Definition indexWellFormed (s : Store) (n : loc) (log : list loc)
    (index : gmap Z loc) : Prop :=
  forall k e, index !! k = Some e ->
    (e < n)%nat /\ EntryType (s e) = Add /\ Index (s e) = k /\ e ∈ log.

Definition wellFormed (lc : LightningChannel) : Prop :=
  logsAllocated lc
  /\ indexWellFormed (store lc) (nextLoc lc) (ourUpdateLog lc)
                     (ourLogIndex lc)
  /\ indexWellFormed (store lc) (nextLoc lc) (theirUpdateLog lc)
                     (theirLogIndex lc).

(** The objects a write to the funding input is seen through. *)
Definition sharedSide (lc : LightningChannel)
    : list commitment * list commitment * TxIn * option MsgTx :=
  (commitments (remoteCommitChain lc), commitments (localCommitChain lc),
   fundingTxIn lc, OurCommitTx (channelState lc)).

(** The funding input as the transactions of the channel show it: the
    transaction of every commitment of both chains spends the channel's
    funding input and nothing else, and the transaction of the local tail,
    when it has one, is [OurCommitTx]. *)
Definition fundingShared (lc : LightningChannel) : Prop :=
  (forall c tx,
     c ∈ commitments (remoteCommitChain lc)
         ++ commitments (localCommitChain lc) ->
     txn c = Some tx -> txIn tx = [fundingTxIn lc])
  /\ (forall t tx,
        tail (localCommitChain lc) = Some t -> txn t = Some tx ->
        OurCommitTx (channelState lc) = Some tx).

(** The number of outputs an amount gets in a commitment transaction:
    none when it is zero. *)
Definition outputsFor (amount : Z) : nat :=
  if decide (amount = 0) then 0%nat else 1%nat.

(** ** The reservation workflow ([wallet.go]) *)

(** Outpoints are keys of the Go map [lockedOutPoints]. *)
#[global] Instance byte_countable : Countable byte :=
  inj_countable Byte.to_N Byte.of_N Byte.of_to_N.

#[global] Instance OutPoint_countable : Countable OutPoint.
Proof.
  refine (inj_countable' (fun o => (opHash o, opIndex o))
                         (fun p => mkOutPoint p.1 p.2) _).
  by intros [].
Defined.

(** Modelled from the spec: [ChannelContribution] and [ChannelReservation]
    are declared outside the sources ("our contribution (selected UTXOs,
    change outputs, multi-sig pubkey, commit pubkey, revocation pubkey, CSV
    delay, funding amount, delivery address)"); these are the fields the
    functions of [wallet.go] below read and write.  [theirLNID] stands for
    the field [partialState.TheirLNID]. *)
Record ChannelContribution := mkContribution {
  FundingAmount : Z;
  Inputs : list TxIn;
  ChangeOutputs : list TxOut;
  MultiSigKey : bytes;
  CommitKey : bytes;
  DeliveryAddress : bytes;
  CsvDelay : Z;
}.

Record ChannelReservation := mkReservation {
  ourContribution : ChannelContribution;
  partialState : OpenChannel;
  theirLNID : bytes;
}.

Definition set_Inputs (ins : list TxIn) (c : ChannelContribution) :=
  mkContribution (FundingAmount c) ins (ChangeOutputs c) (MultiSigKey c)
    (CommitKey c) (DeliveryAddress c) (CsvDelay c).

Definition set_ChangeOutputs (outs : list TxOut) (c : ChannelContribution) :=
  mkContribution (FundingAmount c) (Inputs c) outs (MultiSigKey c)
    (CommitKey c) (DeliveryAddress c) (CsvDelay c).

Definition set_CsvDelay (d : Z) (c : ChannelContribution) :=
  mkContribution (FundingAmount c) (Inputs c) (ChangeOutputs c)
    (MultiSigKey c) (CommitKey c) (DeliveryAddress c) d.

Definition set_keys (multiSigKey commitKey : bytes)
    (c : ChannelContribution) :=
  mkContribution (FundingAmount c) (Inputs c) (ChangeOutputs c)
    multiSigKey commitKey (DeliveryAddress c) (CsvDelay c).

Definition set_DeliveryAddress (a : bytes) (c : ChannelContribution) :=
  mkContribution (FundingAmount c) (Inputs c) (ChangeOutputs c)
    (MultiSigKey c) (CommitKey c) a (CsvDelay c).

(** The writes of [handleFundingReserveRequest] into [partialState]. *)
Definition set_LocalCsvDelay (d : Z) (c : OpenChannel) :=
  mkOpenChannel (ChanID c) (FundingOutpoint c) (Capacity c) (OurBalance c)
    (TheirBalance c) (NumUpdates c) (OurCommitTx c) (OurCommitSig c)
    (OurCommitKey c) (TheirCommitKey c) (OurMultiSigKey c)
    (TheirMultiSigKey c) (FundingRedeemScript c) (OurDeliveryScript c)
    (TheirDeliveryScript c) d (RemoteCsvDelay c)
    (LocalElkrem c) (RemoteElkrem c) (TheirCurrentRevocation c)
    (TheirCurrentRevocationHash c).

Definition set_ourKeys (multiSigKey commitKey : bytes) (c : OpenChannel) :=
  mkOpenChannel (ChanID c) (FundingOutpoint c) (Capacity c) (OurBalance c)
    (TheirBalance c) (NumUpdates c) (OurCommitTx c) (OurCommitSig c)
    commitKey (TheirCommitKey c) multiSigKey
    (TheirMultiSigKey c) (FundingRedeemScript c) (OurDeliveryScript c)
    (TheirDeliveryScript c) (LocalCsvDelay c) (RemoteCsvDelay c)
    (LocalElkrem c) (RemoteElkrem c) (TheirCurrentRevocation c)
    (TheirCurrentRevocationHash c).

Definition set_OurDeliveryScript (s : bytes) (c : OpenChannel) :=
  mkOpenChannel (ChanID c) (FundingOutpoint c) (Capacity c) (OurBalance c)
    (TheirBalance c) (NumUpdates c) (OurCommitTx c) (OurCommitSig c)
    (OurCommitKey c) (TheirCommitKey c) (OurMultiSigKey c)
    (TheirMultiSigKey c) (FundingRedeemScript c) s
    (TheirDeliveryScript c) (LocalCsvDelay c) (RemoteCsvDelay c)
    (LocalElkrem c) (RemoteElkrem c) (TheirCurrentRevocation c)
    (TheirCurrentRevocationHash c).

(** The calls made to the [WalletController] that change its lock set. *)
Inductive ControllerCall :=
  | CallLockOutpoint (o : OutPoint)
  | CallUnlockOutpoint (o : OutPoint).

(** The fields of [LightningWallet] the reservation workflow works on, and
    the lock and unlock calls it has issued to the [WalletController]. *)
Record LightningWallet := mkWallet {
  fundingLimbo : gmap Z ChannelReservation;
  nextFundingID : Z;                       (* uint64 *)
  lockedOutPoints : gset OutPoint;
  controllerCalls : list ControllerCall;
}.

(** The answers of the [WalletController] and of [txscript] during one
    request, and the configured asset; [None] is a returned error. *)
Record WalletAnswers := mkAnswers {
  listUnspentWitness : option (list Utxo);
  newChangeAddress : option bytes;      (* NewAddress(WitnessPubKey, true) *)
  newRawKeys : option bytes * option bytes;
  newDeliveryAddress : option bytes;    (* NewAddress(WitnessPubKey, false) *)
  payToAddrScript : bytes -> option bytes;
  globallyActiveAssetId : string;
}.

Inductive WalletError :=
  | ErrController             (* ListUnspentWitness *)
  | ErrSelection (e : Error)  (* coinSelect *)
  | ErrAddress                (* NewAddress *)
  | ErrAddrScript             (* txscript.PayToAddrScript *)
  | ErrRawKey                 (* NewRawKey *)
  | ErrUnknownFundingState.   (* "attempted to cancel non-existant funding
                                 state" *)

Definition commitFee : Z := 0.

(** The body of the locking loop of [selectCoinsAndChange]. *)
Definition lockOutpoint (coin : OutPoint) (l : LightningWallet) :=
  mkWallet (fundingLimbo l) (nextFundingID l)
    ({[ coin ]} ∪ lockedOutPoints l)
    (controllerCalls l ++ [CallLockOutpoint coin]).

(** The body of the unlocking loop of [handleFundingCancelRequest]. *)
Definition unlockOutpoint (coin : OutPoint) (l : LightningWallet) :=
  mkWallet (fundingLimbo l) (nextFundingID l)
    (lockedOutPoints l ∖ {[ coin ]})
    (controllerCalls l ++ [CallUnlockOutpoint coin]).

(** [selectCoinsAndChange]: the wallet and the contribution afterwards, with
    the error if one is returned; [None] is the panic of [coinSelect] on a
    coin without color data. *)
Definition selectCoinsAndChange (answers : WalletAnswers)
    (l : LightningWallet) (feeRate amt : Z)
    (contribution : ChannelContribution)
    : option (option WalletError * LightningWallet * ChannelContribution) :=
  match listUnspentWitness answers with
  | None => Some (Some ErrController, l, contribution)
  | Some coins =>
      match coinSelect feeRate amt coins (globallyActiveAssetId answers) with
      | RPanic => None
      | RErr e => Some (Some (ErrSelection e), l, contribution)
      | ROk (selectedCoins, changeAmt) =>
          let l1 := foldl (fun w coin => lockOutpoint coin w) l selectedCoins in
          let contribution1 :=
            set_Inputs (map (fun coin => NewTxIn coin [] []) selectedCoins)
                       contribution in
          if decide (changeAmt ≠ 0) then
            match newChangeAddress answers with
            | None => Some (Some ErrAddress, l1, contribution1)
            | Some changeAddr =>
                match payToAddrScript answers changeAddr with
                | None => Some (Some ErrAddrScript, l1, contribution1)
                | Some changeScript =>
                    Some (None, l1,
                          set_ChangeOutputs [mkTxOut changeAmt changeScript]
                                            contribution1)
                end
            end
          else Some (None, l1, contribution1)
      end
  end.

(** [initFundingReserveMsg], without its two reply channels. *)
Record initFundingReserveMsg := mkReserveMsg {
  numConfs : Z;
  fundingAmount : Z;
  capacity : Z;
  minFeeRate : Z;
  nodeID : bytes;
  csvDelay : Z;
}.

(** [handleFundingReserveRequest].  [fresh] is the reservation
    [NewChannelReservation] returns for the new id.  The result is what is
    sent on the two reply channels (the reservation or the error) and the
    wallet afterwards; [None] is a panic. *)
Definition handleFundingReserveRequest (answers : WalletAnswers)
    (fresh : Z -> ChannelReservation)
    (l : LightningWallet) (req : initFundingReserveMsg)
    : option ((WalletError + (Z * ChannelReservation)) * LightningWallet) :=
  let id := wrap64 (nextFundingID l + 1) in
  let l := mkWallet (fundingLimbo l) id (lockedOutPoints l)
                    (controllerCalls l) in
  let reservation := fresh id in
  let theirLNID' := nodeID req in
  let ourContribution' :=
    set_CsvDelay (csvDelay req) (ourContribution reservation) in
  let partialState' :=
    set_LocalCsvDelay (csvDelay req) (partialState reservation) in
  let selected :=
    if decide (fundingAmount req ≠ 0) then
      selectCoinsAndChange answers l 10
        (wrapI64 (fundingAmount req + commitFee)) ourContribution'
    else Some (None, l, ourContribution') in
  match selected with
  | None => None
  | Some (Some err, l1, _) => Some (inl err, l1)
  | Some (None, l1, ourContribution1) =>
      match newRawKeys answers with
      | (None, _) => Some (inl ErrRawKey, l1)
      | (Some _, None) => Some (inl ErrRawKey, l1)
      | (Some multiSigKey, Some commitKey) =>
          let partialState1 := set_ourKeys multiSigKey commitKey partialState' in
          let ourContribution2 :=
            set_keys multiSigKey commitKey ourContribution1 in
          match newDeliveryAddress answers with
          | None => Some (inl ErrAddress, l1)
          | Some deliveryAddress =>
              match payToAddrScript answers deliveryAddress with
              | None => Some (inl ErrAddrScript, l1)
              | Some deliveryScript =>
                  let reservation' :=
                    mkReservation
                      (set_DeliveryAddress deliveryAddress ourContribution2)
                      (set_OurDeliveryScript deliveryScript partialState1)
                      theirLNID' in
                  Some (inr (id, reservation'),
                        mkWallet (<[id := reservation']> (fundingLimbo l1))
                                 (nextFundingID l1) (lockedOutPoints l1)
                                 (controllerCalls l1))
              end
          end
      end
  end.

(** [handleFundingCancelRequest]: the error sent back, if any, and the
    wallet afterwards. *)
Definition handleFundingCancelRequest (l : LightningWallet)
    (pendingFundingID : Z) : option WalletError * LightningWallet :=
  match fundingLimbo l !! pendingFundingID with
  | None => (Some ErrUnknownFundingState, l)
  | Some pendingReservation =>
      let l1 :=
        foldl (fun w (unusedInput : TxIn) =>
                 unlockOutpoint (PreviousOutPoint unusedInput) w)
              l (Inputs (ourContribution pendingReservation)) in
      (None,
       mkWallet (delete pendingFundingID (fundingLimbo l1))
                (nextFundingID l1) (lockedOutPoints l1) (controllerCalls l1))
  end.

(** The outpoints a reservation holds locked. *)
Definition reservedOutPoints (r : ChannelReservation) : list OutPoint :=
  map PreviousOutPoint (Inputs (ourContribution r)).

(** ** The wallet driver registry ([interface.go]) *)

(** [WalletDriver]; [driverNew] stands for the constructor closure [New],
    of which only the identity matters here. *)
Record WalletDriver := mkDriver {
  WalletType : string;
  driverNew : nat;
}.

(** [RegisterWallet] on the package-level map [wallets]; [None] is the
    error "wallet already registered". *)
Definition RegisterWallet (driver : WalletDriver)
    (wallets : gmap string WalletDriver) : option (gmap string WalletDriver) :=
  match wallets !! WalletType driver with
  | Some _ => None
  | None => Some (<[WalletType driver := driver]> wallets)
  end.

(** [SupportedWallets] and [RegisteredWallets], in the iteration order of
    the map. *)
Definition SupportedWallets (wallets : gmap string WalletDriver)
    : list string :=
  (map_to_list wallets).*1.

Definition RegisteredWallets (wallets : gmap string WalletDriver)
    : list WalletDriver :=
  (map_to_list wallets).*2.

(** The registry after a sequence of registrations; failed registrations
    leave it as it is. *)
Definition registerAll (drivers : list WalletDriver)
    : gmap string WalletDriver :=
  foldl (fun wallets driver =>
           match RegisterWallet driver wallets with
           | Some wallets' => wallets'
           | None => wallets
           end) ∅ drivers.

(** ** Test doubles for the wallet *)

(** A coin of the asset ["asset"] holding [v] units, at output [i] of the
    test transaction. *)
Definition testCoin (i v : Z) : Utxo :=
  mkUtxo 1000 (Some (mkTxoData "asset" v)) (mkOutPoint [x07] i).

(** A wallet controller with two coins (60 and 70 units) that answers every
    request. *)
Definition testAnswers : WalletAnswers :=
  mkAnswers (Some [testCoin 0 60; testCoin 1 70]) (Some [x21])
            (Some [x22], Some [x23]) (Some [x24])
            (fun a => Some (x00 :: a)) "asset".

(** The same controller when key derivation fails. *)
Definition testAnswersNoKey : WalletAnswers :=
  mkAnswers (Some [testCoin 0 60; testCoin 1 70]) (Some [x21])
            (None, None) (Some [x24])
            (fun a => Some (x00 :: a)) "asset".

Definition testFresh (id : Z) : ChannelReservation :=
  mkReservation (mkContribution 100 [] [] [] [] [] 0) testState [].

Definition testWallet : LightningWallet := mkWallet ∅ 0 ∅ [].

(** A request to fund a channel of capacity 1000 with 100 units. *)
Definition testReserveMsg : initFundingReserveMsg :=
  mkReserveMsg 1 100 1000 0 [x09] 144.

(** The test wallet after the test request. *)
Definition testWalletReserved : LightningWallet :=
  match handleFundingReserveRequest testAnswers testFresh testWallet
                                    testReserveMsg with
  | Some (_, l) => l
  | None => testWallet
  end.

(** The reservation the test request creates. *)
Definition testReservation : ChannelReservation :=
  match handleFundingReserveRequest testAnswers testFresh testWallet
                                    testReserveMsg with
  | Some (inr (_, r), _) => r
  | _ => testFresh 1
  end.

(** The test wallet after the test request when key derivation fails. *)
Definition testWalletNoKey : LightningWallet :=
  match handleFundingReserveRequest testAnswersNoKey testFresh testWallet
                                    testReserveMsg with
  | Some (_, l) => l
  | None => testWallet
  end.

Definition testDriver : WalletDriver := mkDriver "btcwallet" 1.

(** ** Further test doubles for the channel *)

(** A store whose descriptors are Add entries committed at height 1 on
    both chains and not forwarded. *)
Definition testStoreLockedIn : Store :=
  fun _ => mkPD [x01] 600 100 0 0 [] Add 1 1 0 0 false false.

(** The operations of the settle round trip before the first revocation
    is received, and those between the two revocations. *)
Definition testFirstRound : list Op := take 6 testSettleRoundTrip.

Definition testSecondRound : list Op := take 4 (drop 7 testSettleRoundTrip).

(** An outgoing HTLC locked in on both chains, then settled twice by the
    remote party with the same log index, both settlements committed on
    both chains and the local commitment revoked: what is left of the
    second round is the remote party's revocation. *)
Definition testDuplicateSettle : list Op :=
  [OpReceiveRevocation testExtension; OpReceiveRevocation testExtension;
   OpAddHTLC testHTLC;
   OpSignNextCommitment; OpReceiveNewCommitment [] 1;
   OpRevokeCurrentCommitment; OpReceiveRevocation testRevocation;
   OpReceiveHTLCSettle [] 0; OpReceiveHTLCSettle [] 0;
   OpSignNextCommitment; OpReceiveNewCommitment [] 1;
   OpRevokeCurrentCommitment].

(** A transaction with two outputs (values 400 and 600). *)
Definition testTx : MsgTx :=
  mkMsgTx 2 [NewTxIn testOutPoint [] []]
          [mkTxOut 400 [x0a]; mkTxOut 600 [x0b]] 77.

(** ** The model on a full round trip *)

(** After the HTLC of 100 is locked in on both chains the balances are
    500/400; after its settlement is locked in as well both logs are empty
    and the balances are 600/400. *)
Example settle_round_trip :
  option_map
    (fun lc => (theirUpdateLog lc,
                ourBalance <$> commitments (remoteCommitChain lc),
                theirBalance <$> commitments (remoteCommitChain lc)))
    (@run testExternals testChannel (take 7 testSettleRoundTrip))
  = Some ([O], [500], [400])
  /\ option_map
       (fun lc => (ourUpdateLog lc, theirUpdateLog lc,
                   OurBalance (channelState lc), TheirBalance (channelState lc),
                   height <$> commitments (remoteCommitChain lc),
                   height <$> commitments (localCommitChain lc)))
       (@run testExternals testChannel testSettleRoundTrip)
     = Some ([], [], 600, 400, [2], [2]).
Proof. split; vm_compute; reflexivity. Qed.

(** ** Machine-integer lemmas *)

Lemma wrapI64_id z : inI64 z -> wrapI64 z = z.
Proof.
  unfold inI64, wrapI64. intros Hz.
  rewrite Z.mod_small; lia.
Qed.

Lemma wrapI64_cong z : (wrapI64 z - z) mod 2 ^ 64 = 0.
Proof.
  unfold wrapI64.
  replace ((z + 2 ^ 63) mod 2 ^ 64 - 2 ^ 63 - z)
    with ((z + 2 ^ 63) mod 2 ^ 64 - (z + 2 ^ 63)) by lia.
  rewrite Zminus_mod, Zmod_mod, Z.sub_diag. reflexivity.
Qed.

(** ** Descriptor updates *)

Lemma addHeight_set rc h p : addHeight rc (set_addHeight rc h p) = h.
Proof. destruct rc; reflexivity. Qed.

Lemma removeHeight_set rc h p : removeHeight rc (set_removeHeight rc h p) = h.
Proof. destruct rc; reflexivity. Qed.

(** ** C6: first-commit height recording *)

(** C6.  [processAddEntry] (resp. [processRemoveEntry]) writes [nextHeight]
    into the add-height (resp. remove-height) of the chain being built only
    when that field is zero, and then applies the balance adjustment; when
    the field is already non-zero the descriptor and both balances come back
    unchanged.  The height of the other chain is never touched, so a later
    re-build at a higher height does not overwrite the recorded height. *)
Theorem first_commit_height_recording
    (htlc : PaymentDescriptor) (ourBal theirBal nextHeight : Z)
    (remoteChain isIncoming : bool) :
  (* processAddEntry *)
  (addHeight remoteChain htlc = 0 ->
     let '(htlc', ourBal', theirBal') :=
       processAddEntry htlc ourBal theirBal nextHeight remoteChain isIncoming in
     addHeight remoteChain htlc' = nextHeight
     /\ addHeight (negb remoteChain) htlc' = addHeight (negb remoteChain) htlc
     /\ ourBal' = (if isIncoming then ourBal else wrapI64 (ourBal - Amount htlc))
     /\ theirBal' = (if isIncoming then wrapI64 (theirBal - Amount htlc)
                     else theirBal))
  /\ (addHeight remoteChain htlc <> 0 ->
        processAddEntry htlc ourBal theirBal nextHeight remoteChain isIncoming
        = (htlc, ourBal, theirBal))
  (* processRemoveEntry *)
  /\ (removeHeight remoteChain htlc = 0 ->
        let '(htlc', ourBal', theirBal') :=
          processRemoveEntry htlc ourBal theirBal nextHeight remoteChain
                             isIncoming in
        removeHeight remoteChain htlc' = nextHeight
        /\ removeHeight (negb remoteChain) htlc'
           = removeHeight (negb remoteChain) htlc
        /\ (EntryType htlc = Settle ->
              ourBal' = (if isIncoming then wrapI64 (ourBal + Amount htlc)
                         else ourBal)
              /\ theirBal' = (if isIncoming then theirBal
                              else wrapI64 (theirBal + Amount htlc)))
        /\ (EntryType htlc = Timeout ->
              ourBal' = (if isIncoming then ourBal
                         else wrapI64 (ourBal + Amount htlc))
              /\ theirBal' = (if isIncoming then wrapI64 (theirBal + Amount htlc)
                              else theirBal)))
  /\ (removeHeight remoteChain htlc <> 0 ->
        processRemoveEntry htlc ourBal theirBal nextHeight remoteChain
                           isIncoming
        = (htlc, ourBal, theirBal))
  (* a second evaluation at another height changes nothing *)
  /\ (nextHeight <> 0 ->
        forall h2,
          let '(htlc', ourBal', theirBal') :=
            processAddEntry htlc ourBal theirBal nextHeight remoteChain
                            isIncoming in
          processAddEntry htlc' ourBal' theirBal' h2 remoteChain isIncoming
          = (htlc', ourBal', theirBal'))
  /\ (nextHeight <> 0 ->
        forall h2,
          let '(htlc', ourBal', theirBal') :=
            processRemoveEntry htlc ourBal theirBal nextHeight remoteChain
                               isIncoming in
          processRemoveEntry htlc' ourBal' theirBal' h2 remoteChain isIncoming
          = (htlc', ourBal', theirBal')).
Proof.
  repeat split.
  - intros Hz. unfold processAddEntry. rewrite Hz. simpl.
    destruct isIncoming, remoteChain; simpl; auto.
  - intros Hnz. unfold processAddEntry.
    destruct (Z.eqb_spec (addHeight remoteChain htlc) 0); [contradiction|].
    reflexivity.
  - intros Hz. unfold processRemoveEntry. rewrite Hz. simpl.
    destruct isIncoming, (EntryType htlc) eqn:Ht, remoteChain;
      simpl; repeat split; intros; congruence.
  - intros Hnz. unfold processRemoveEntry.
    destruct (Z.eqb_spec (removeHeight remoteChain htlc) 0); [contradiction|].
    reflexivity.
  - intros Hh h2. unfold processAddEntry.
    destruct (Z.eqb_spec (addHeight remoteChain htlc) 0) as [Hz|Hnz]; simpl.
    + destruct isIncoming; rewrite addHeight_set;
        destruct (Z.eqb_spec nextHeight 0); simpl; congruence.
    + destruct (Z.eqb_spec (addHeight remoteChain htlc) 0); [contradiction|].
      reflexivity.
  - intros Hh h2. unfold processRemoveEntry.
    destruct (Z.eqb_spec (removeHeight remoteChain htlc) 0) as [Hz|Hnz]; simpl.
    + destruct isIncoming, (EntryType htlc); rewrite removeHeight_set;
        destruct (Z.eqb_spec nextHeight 0); simpl; congruence.
    + destruct (Z.eqb_spec (removeHeight remoteChain htlc) 0); [contradiction|].
      reflexivity.
Qed.

(** An Add entry first committed at height 7 on the remote chain: debited
    once, and left alone by the re-build at height 8. *)
Lemma first_commit_height_recording_witness :
  let htlc := mkPD [x01] 600 100 0 0 [] Add 0 0 0 0 false false in
  processAddEntry htlc 500 500 7 true false
    = (set_addCommitHeightRemote 7 htlc, 400, 500)
  /\ processAddEntry (set_addCommitHeightRemote 7 htlc) 400 500 8 true false
     = (set_addCommitHeightRemote 7 htlc, 400, 500).
Proof.
  intros htlc. split; [reflexivity|].
  pose proof (first_commit_height_recording
                (set_addCommitHeightRemote 7 htlc) 400 500 8 true false)
    as (_ & Hkeep & _).
  apply Hkeep. simpl. lia.
Defined.

(** ** C10: the shape of a colorified transaction *)

Section Colorify.
Context `{Ext : Externals}.

Lemma foldl_AddTxIn (ins : list TxIn) (tx : MsgTx) :
  foldl (fun t ti => AddTxIn ti t) tx ins
  = mkMsgTx (Version tx) (txIn tx ++ ins) (txOut tx) (LockTime tx).
Proof.
  revert tx. induction ins as [|ti ins IH]; intros tx; simpl.
  - rewrite app_nil_r. by destruct tx.
  - rewrite IH. simpl. by rewrite <- app_assoc.
Qed.

Lemma foldl_AddTxOut (f : TxOut -> TxOut) (outs : list TxOut) (tx : MsgTx) :
  foldl (fun t o => AddTxOut (f o) t) tx outs
  = mkMsgTx (Version tx) (txIn tx) (txOut tx ++ map f outs) (LockTime tx).
Proof.
  revert tx. induction outs as [|o outs IH]; intros tx; simpl.
  - rewrite app_nil_r. by destruct tx.
  - rewrite IH. simpl. by rewrite <- app_assoc.
Qed.

Lemma ColorifyTx_commit (tx : MsgTx) :
  ColorifyTx tx false
  = match EncodeCcInstructions (instructionsOf (txOut tx)) with
    | None => inl (ErrExt EncodeError)
    | Some opReturn =>
        inr (mkMsgTx (Version tx) (txIn tx)
               (map (fun o => mkTxOut dustAmount (PkScript o)) (txOut tx)
                ++ [mkTxOut 0 (OP_RETURN :: WriteVarBytes opReturn)]) 0)
    end.
Proof.
  unfold ColorifyTx, instructionsOf.
  destruct (EncodeCcInstructions _) as [opReturn|]; [|reflexivity].
  rewrite (foldl_AddTxOut (fun o => NewTxOut dustAmount (PkScript o))).
  rewrite foldl_AddTxIn. reflexivity.
Qed.

Lemma ColorifyTx_values (tx newTx : MsgTx) :
  ColorifyTx tx false = inr newTx ->
  Forall (fun o => Value o = 546 \/ Value o = 0) (txOut newTx).
Proof.
  rewrite ColorifyTx_commit.
  destruct (EncodeCcInstructions _) as [opReturn|]; [|discriminate].
  intros [= <-]. simpl. apply Forall_app. split.
  - apply Forall_map, Forall_true. intros o. simpl. by left.
  - constructor; [by right | constructor].
Qed.

(** C10.  For a transaction with n outputs, [ColorifyTx tx false], when it
    returns a transaction, returns one with the same version and the same
    inputs in the same order, whose first n outputs carry the original
    pkScripts in the original order, each with value 546, followed by one
    zero-value OP_RETURN output that wraps the encoding of the instructions
    (output index, original value).  Consequently every output of a
    commitment transaction built by [fetchCommitmentView] and of a close
    transaction built by [createCooperativeCloseTx] has value 546 or 0,
    whatever the balances are. *)
Theorem colorified_transaction_shape :
  (forall tx newTx,
     ColorifyTx tx false = inr newTx ->
     Version newTx = Version tx
     /\ txIn newTx = txIn tx
     /\ length (txOut newTx) = S (length (txOut tx))
     /\ exists opReturn,
          EncodeCcInstructions (instructionsOf (txOut tx)) = Some opReturn
          /\ txOut newTx
             = map (fun o => mkTxOut 546 (PkScript o)) (txOut tx)
               ++ [mkTxOut 0 (OP_RETURN :: WriteVarBytes opReturn)])
  /\ (forall tx opReturn,
        EncodeCcInstructions (instructionsOf (txOut tx)) = Some opReturn ->
        exists newTx, ColorifyTx tx false = inr newTx)
  /\ (forall lc remoteChain ourIdx theirIdx key hash c lc' tx,
        fetchCommitmentView lc remoteChain ourIdx theirIdx key hash
        = Return c lc' ->
        txn c = Some tx ->
        Forall (fun o => Value o = 546 \/ Value o = 0) (txOut tx))
  /\ (forall fundingIn ourBal theirBal ourScript theirScript initiator tx,
        createCooperativeCloseTx fundingIn ourBal theirBal ourScript
                                 theirScript initiator = Some tx ->
        Forall (fun o => Value o = 546 \/ Value o = 0) (txOut tx)).
Proof.
  repeat split.
  - revert H. rewrite ColorifyTx_commit.
    destruct (EncodeCcInstructions _); [|discriminate]. by intros [= <-].
  - revert H. rewrite ColorifyTx_commit.
    destruct (EncodeCcInstructions _); [|discriminate]. by intros [= <-].
  - revert H. rewrite ColorifyTx_commit.
    destruct (EncodeCcInstructions _); [|discriminate]. intros [= <-]. simpl.
    rewrite length_app, length_map. simpl. lia.
  - revert H. rewrite ColorifyTx_commit.
    destruct (EncodeCcInstructions _) as [opReturn|]; [|discriminate].
    intros [= <-]. exists opReturn. split; reflexivity.
  - intros tx opReturn Henc. rewrite ColorifyTx_commit, Henc. eauto.
  - intros lc remoteChain ourIdx theirIdx key hash c lc' tx Hview Htx.
    unfold fetchCommitmentView in Hview.
    destruct (tip _); [|discriminate].
    destruct (evaluateHTLCView _ _ _ _ _ _) as [[[[v ob] tb] s']|];
      [|discriminate].
    destruct (if remoteChain then _ else _) as [[[[selfKey remoteKey] delay] db] pb].
    destruct (createCommitTx _ _ _ _ _ _ _); [discriminate|].
    destruct (addHTLCs _ _ _ _ _ _ _); [discriminate|].
    destruct (addHTLCs _ _ _ _ _ _ _); [discriminate|].
    destruct (ColorifyTx _ false) as [|colored] eqn:Hcol; [discriminate|].
    injection Hview as <- <-. simpl in Htx. injection Htx as <-.
    eapply ColorifyTx_values, Hcol.
  - intros fundingIn ourBal theirBal ourScript theirScript initiator tx.
    unfold createCooperativeCloseTx.
    destruct (ColorifyTx _ false) as [|colored] eqn:Hcol; [discriminate|].
    intros [= <-]. eapply ColorifyTx_values, Hcol.
Qed.

End Colorify.

(** A two-output transaction (values 400 and 600) colorified under the test
    encoder. *)
Lemma colorified_transaction_shape_witness :
  let tx := mkMsgTx 2 [NewTxIn testOutPoint [] []]
                    [mkTxOut 400 [x11]; mkTxOut 600 [x12]] 0 in
  exists newTx,
    @ColorifyTx testExternals tx false = inr newTx
    /\ Version newTx = 2
    /\ txIn newTx = txIn tx
    /\ map Value (txOut newTx) = [546; 546; 0]
    /\ map PkScript (firstn 2 (txOut newTx)) = [[x11]; [x12]].
Proof.
  intros tx.
  destruct (@colorified_transaction_shape testExternals) as (Hshape & _).
  eexists. split; [reflexivity|].
  destruct (Hshape tx _ eq_refl) as (Hv & Hin & _ & opReturn & _ & Hout).
  split; [exact Hv|]. split; [exact Hin|]. split; reflexivity.
Defined.

(** ** C9: cooperative close *)

Section Close.
Context `{Ext : Externals}.

Lemma createCooperativeCloseTx_closed (lc : LightningChannel) (initiator : bool) :
  closeTxOf lc initiator
  = match EncodeCcInstructions
            (instructionsOf
               (sortBy outputLess (settledOutputs (channelState lc)))) with
    | None => None
    | Some opReturn => Some (coloredCloseTx lc opReturn)
    end.
Proof.
  unfold closeTxOf, createCooperativeCloseTx. rewrite ColorifyTx_commit.
  assert (Houts :
    txOut (InPlaceSort
      (if decide (TheirBalance (channelState lc) ≠ 0)
       then AddTxOut (mkTxOut (TheirBalance (channelState lc))
                        (TheirDeliveryScript (channelState lc)))
              (if decide (OurBalance (channelState lc) ≠ 0)
               then AddTxOut (mkTxOut (OurBalance (channelState lc))
                                (OurDeliveryScript (channelState lc)))
                      (AddTxIn (fundingTxIn lc) NewMsgTx)
               else AddTxIn (fundingTxIn lc) NewMsgTx)
       else
         if decide (OurBalance (channelState lc) ≠ 0)
         then AddTxOut (mkTxOut (OurBalance (channelState lc))
                          (OurDeliveryScript (channelState lc)))
                (AddTxIn (fundingTxIn lc) NewMsgTx)
         else AddTxIn (fundingTxIn lc) NewMsgTx))
    = sortBy outputLess (settledOutputs (channelState lc))).
  { unfold settledOutputs. repeat case_decide; reflexivity. }
  rewrite Houts.
  destruct (EncodeCcInstructions _) as [opReturn|]; [|reflexivity].
  unfold coloredCloseTx. repeat case_decide; reflexivity.
Qed.

(** C9 (amended).  When the status is closing or closed,
    [InitCooperativeClose] returns [ErrChanClosing] and leaves the channel
    as it was.  Otherwise the status becomes closing and the transaction
    that is signed spends the funding input and has, for each party with a
    non-zero settled balance, one output to that party's delivery script,
    in the canonical order of the settled outputs (by balance, then by
    script), each carrying the dust value 546 instead of the balance,
    followed by a zero-value OP_RETURN output that encodes the balances. *)
Theorem cooperative_close_construction (lc : LightningChannel) :
  ((status lc = channelClosing \/ status lc = channelClosed) ->
     InitCooperativeClose lc = Fail ErrChanClosing lc)
  /\ (status lc <> channelClosing -> status lc <> channelClosed ->
      let lc' := set_status channelClosing lc in
      let sorted := sortBy outputLess (settledOutputs (channelState lc)) in
      status lc' = channelClosing
      /\ match EncodeCcInstructions (instructionsOf sorted) with
         | None => InitCooperativeClose lc = Panic
         | Some opReturn =>
             let closeTx := coloredCloseTx lc opReturn in
             closeTxOf lc' true = Some closeTx
             /\ InitCooperativeClose lc
                = match RawTxInWitnessSignature closeTx 0
                          (Capacity (channelState lc))
                          (FundingRedeemScript (channelState lc))
                          (OurMultiSigKey (channelState lc)) with
                  | None => Fail (ErrExt SignError) lc'
                  | Some closeSig => Return (closeSig, TxSha closeTx) lc'
                  end
         end).
Proof.
  split.
  - intros Hst. unfold InitCooperativeClose.
    destruct Hst as [-> | ->]; reflexivity.
  - intros Hc1 Hc2 lc' sorted. split; [reflexivity|].
    unfold InitCooperativeClose.
    rewrite (bool_decide_eq_false_2 _ Hc1), (bool_decide_eq_false_2 _ Hc2).
    cbn [orb]. subst lc' sorted. rewrite !createCooperativeCloseTx_closed.
    change (channelState (set_status channelClosing lc))
      with (channelState lc).
    destruct (EncodeCcInstructions _) as [opReturn|]; [|reflexivity].
    split; reflexivity.
Qed.

End Close.

(** The test channel (balances 500/500) is not closing: the signed close
    transaction has two dust outputs and the OP_RETURN output. *)
Lemma cooperative_close_construction_witness :
  exists closeSig closeTx,
    @InitCooperativeClose testExternals testChannel
    = Return (closeSig, @TxSha testExternals closeTx)
             (set_status channelClosing testChannel)
    /\ map Value (txOut closeTx) = [546; 546; 0]
    /\ map PkScript (firstn 2 (txOut closeTx)) = [[x11]; [x12]].
Proof.
  destruct (@cooperative_close_construction testExternals testChannel)
    as (_ & Hopen).
  destruct Hopen as (_ & Hclose); [discriminate | discriminate |].
  exists [x0c], (coloredCloseTx testChannel [xf4; xf4]).
  split; [exact (proj2 Hclose)|]. split; reflexivity.
Defined.

(** C9 as stated fails on the test channel: the signed transaction does not
    consist of the outputs paying the settled balances; none of its outputs
    carries a balance (500), it has a third output, and with the zero-value
    output last it is not in canonical order. *)
Lemma cooperative_close_pays_dust :
  exists closeSig closeTx,
    @closeTxOf testExternals (set_status channelClosing testChannel) true
    = Some closeTx
    /\ @InitCooperativeClose testExternals testChannel
       = Return (closeSig, @TxSha testExternals closeTx)
                (set_status channelClosing testChannel)
    /\ txOut closeTx <> sortBy outputLess (settledOutputs testState)
    /\ Forall (fun o => Value o <> OurBalance testState
                        /\ Value o <> TheirBalance testState) (txOut closeTx)
    /\ length (txOut closeTx) = 3%nat
    /\ InPlaceSort closeTx <> closeTx.
Proof.
  eexists _, _. split; [reflexivity|]. split; [reflexivity|].
  split; [discriminate|]. split; [|split; [reflexivity | discriminate]].
  repeat constructor; discriminate.
Qed.

(** ** C8: coin selection *)

Lemma assetSum_nonneg assetId coins :
  Forall (fun c => is_Some (ColorData c) /\ 0 <= assetValue assetId c) coins ->
  0 <= assetSum assetId coins.
Proof.
  induction 1 as [|c coins [_ Hc] _ IH]; simpl; lia.
Qed.

Lemma assetSum_cons assetId c coins :
  assetSum assetId (c :: coins) = assetValue assetId c + assetSum assetId coins.
Proof. reflexivity. Qed.

Lemma assetValue_match assetId c cd :
  ColorData c = Some cd -> AssetId cd = assetId ->
  assetValue assetId c = cdValue cd.
Proof.
  intros Hcd Hid. unfold assetValue. rewrite Hcd.
  destruct (decide _); [reflexivity | contradiction].
Qed.

Lemma assetValue_other assetId c cd :
  ColorData c = Some cd -> AssetId cd <> assetId -> assetValue assetId c = 0.
Proof.
  intros Hcd Hid. unfold assetValue. rewrite Hcd.
  destruct (decide _); [contradiction | reflexivity].
Qed.

Lemma assetOutPoints_match assetId c cd coins :
  ColorData c = Some cd -> AssetId cd = assetId ->
  assetOutPoints assetId (c :: coins)
  = mkOutPoint (opHash (utxoOutPoint c)) (opIndex (utxoOutPoint c))
    :: assetOutPoints assetId coins.
Proof.
  intros Hcd Hid. unfold assetOutPoints. simpl. rewrite Hcd.
  destruct (decide _); [reflexivity | contradiction].
Qed.

Lemma assetOutPoints_other assetId c cd coins :
  ColorData c = Some cd -> AssetId cd <> assetId ->
  assetOutPoints assetId (c :: coins) = assetOutPoints assetId coins.
Proof.
  intros Hcd Hid. unfold assetOutPoints. simpl. rewrite Hcd.
  destruct (decide _); [contradiction | reflexivity].
Qed.

(** The loop invariant of [selectInputs]: [satSelected] is the filtered sum
    of the coins already visited. *)
Lemma selectInputsLoop_spec amt assetId coins :
  Forall (fun c => is_Some (ColorData c) /\ 0 <= assetValue assetId c) coins ->
  forall selected sat,
    0 <= sat -> sat + assetSum assetId coins < 2 ^ 63 ->
    (sat + assetSum assetId coins < amt ->
       selectInputsLoop amt assetId coins selected sat
       = RErr ErrInsufficientFunds)
    /\ (amt <= sat + assetSum assetId coins ->
        exists k : nat,
          (k <= length coins)%nat
          /\ amt <= sat + assetSum assetId (take k coins)
          /\ (forall j : nat,
                (j < k)%nat -> sat + assetSum assetId (take j coins) < amt)
          /\ selectInputsLoop amt assetId coins selected sat
             = ROk (sat + assetSum assetId (take k coins),
                    selected ++ assetOutPoints assetId (take k coins))).
Proof.
  induction 1 as [|c coins [[cd Hcd] Hc] Hcoins IH]; intros selected sat Hsat Hsum.
  - simpl in *. split.
    + intros Hlt. destruct (Z.ltb_spec sat amt); [reflexivity | lia].
    + intros Hge. exists O. simpl.
      destruct (Z.ltb_spec sat amt); [lia|].
      rewrite app_nil_r, Z.add_0_r.
      repeat split; [lia | lia | intros; lia].
  - pose proof (assetSum_nonneg _ _ Hcoins) as Hnn.
    rewrite assetSum_cons in Hsum |- *.
    cbn [selectInputsLoop]. rewrite Hcd.
    destruct (Z.ltb_spec sat amt) as [Hlt|Hge].
    + (* the loop visits this coin *)
      destruct (decide (AssetId cd = assetId)) as [Hid|Hid].
      * rewrite (assetValue_match _ _ _ Hcd Hid) in Hc, Hsum |- *.
        rewrite (wrapI64_id (sat + cdValue cd)) by (unfold inI64; lia).
        destruct (IH (selected ++ [mkOutPoint (opHash (utxoOutPoint c))
                                              (opIndex (utxoOutPoint c))])
                     (sat + cdValue cd)) as [IHerr IHok]; [lia | lia |].
        split.
        -- intros Hs. apply IHerr. lia.
        -- intros Hs. destruct IHok as (k & Hk & Hreach & Hmin & Hres); [lia|].
           exists (S k).
           change (take (S k) (c :: coins)) with (c :: take k coins).
           rewrite assetSum_cons, (assetValue_match _ _ _ Hcd Hid).
           rewrite (assetOutPoints_match _ _ _ _ Hcd Hid).
           split; [simpl; lia|]. split; [lia|]. split.
           ++ intros [|j] Hj; [simpl; lia|].
              change (take (S j) (c :: coins)) with (c :: take j coins).
              rewrite assetSum_cons, (assetValue_match _ _ _ Hcd Hid).
              specialize (Hmin j). lia.
           ++ rewrite Hres, <- app_assoc. simpl. f_equal. f_equal. lia.
      * rewrite (assetValue_other _ _ _ Hcd Hid) in Hc, Hsum |- *.
        destruct (IH selected sat) as [IHerr IHok]; [lia | lia |].
        split.
        -- intros Hs. apply IHerr. lia.
        -- intros Hs. destruct IHok as (k & Hk & Hreach & Hmin & Hres); [lia|].
           exists (S k).
           change (take (S k) (c :: coins)) with (c :: take k coins).
           rewrite assetSum_cons, (assetValue_other _ _ _ Hcd Hid).
           rewrite (assetOutPoints_other _ _ _ _ Hcd Hid).
           split; [simpl; lia|]. split; [lia|]. split.
           ++ intros [|j] Hj; [simpl; lia|].
              change (take (S j) (c :: coins)) with (c :: take j coins).
              rewrite assetSum_cons, (assetValue_other _ _ _ Hcd Hid).
              specialize (Hmin j). lia.
           ++ rewrite Hres. f_equal.
    + (* the requested amount is already met *)
      split; [intros; lia|].
      intros _. exists O. simpl. rewrite app_nil_r, Z.add_0_r.
      repeat split; [lia | lia | intros; lia].
Qed.

Lemma assetSum_take_bounds assetId coins k :
  Forall (fun c => is_Some (ColorData c) /\ 0 <= assetValue assetId c) coins ->
  0 <= assetSum assetId (take k coins) <= assetSum assetId coins.
Proof.
  intros Hwf. revert k.
  induction Hwf as [|c coins [_ Hc] Hcoins IH]; intros [|k]; simpl; try lia.
  - fold (assetSum assetId coins).
    pose proof (assetSum_nonneg _ _ Hcoins). lia.
  - fold (assetSum assetId coins). fold (assetSum assetId (take k coins)).
    specialize (IH k). lia.
Qed.

(** C8.  On a well-formed coin list (every coin has color data, values are
    not negative, the total fits [int64]) [selectInputs], and [coinSelect]
    after it, return [ErrInsufficientFunds] exactly when the asset-filtered
    sum of the whole list is below the requested amount.  Otherwise the
    selection is the one of the shortest prefix of the list whose
    asset-filtered sum reaches the amount: the returned total is that sum,
    the returned outpoints are the prefix's coins of the asset, and the
    change is that sum minus the amount. *)
Theorem coin_selection (feeRate amt : Z) (coins : list Utxo) (assetId : string) :
  coinsWellFormed assetId coins ->
  (selectInputs amt coins assetId = RErr ErrInsufficientFunds
   <-> assetSum assetId coins < amt)
  /\ (coinSelect feeRate amt coins assetId = RErr ErrInsufficientFunds
      <-> assetSum assetId coins < amt)
  /\ (amt <= assetSum assetId coins ->
      exists k : nat,
        (k <= length coins)%nat
        /\ amt <= assetSum assetId (take k coins)
        /\ (forall j : nat,
              (j < k)%nat -> assetSum assetId (take j coins) < amt)
        /\ selectInputs amt coins assetId
           = ROk (assetSum assetId (take k coins),
                  assetOutPoints assetId (take k coins))
        /\ coinSelect feeRate amt coins assetId
           = ROk (assetOutPoints assetId (take k coins),
                  wrapI64 (assetSum assetId (take k coins) - amt))
        /\ (- 2 ^ 63 < amt ->
            wrapI64 (assetSum assetId (take k coins) - amt)
            = assetSum assetId (take k coins) - amt)).
Proof.
  intros [Hwf Hfit].
  pose proof (assetSum_nonneg _ _ Hwf) as Hnn.
  destruct (selectInputsLoop_spec amt assetId coins Hwf [] 0)
    as [Herr Hok]; [lia | lia |].
  rewrite !Z.add_0_l in Herr, Hok.
  assert (Hsel : selectInputs amt coins assetId = RErr ErrInsufficientFunds
                 <-> assetSum assetId coins < amt).
  { split; [|exact Herr]. intros Hres.
    destruct (Z.lt_ge_cases (assetSum assetId coins) amt) as [|Hge]; [done|].
    destruct (Hok Hge) as (k & _ & _ & _ & Hres').
    unfold selectInputs in Hres. rewrite Hres' in Hres. discriminate. }
  split; [exact Hsel|]. split.
  - unfold coinSelect. split.
    + intros Hres. apply Hsel.
      destruct (selectInputs amt coins assetId) as [[total sel]|e|];
        [discriminate | congruence | discriminate].
    + intros Hlt. apply Hsel in Hlt. by rewrite Hlt.
  - intros Hge. destruct (Hok Hge) as (k & Hk & Hreach & Hmin & Hres).
    exists k. rewrite Z.add_0_l in Hreach. simpl in Hres.
    rewrite Z.add_0_l in Hres.
    split; [exact Hk|]. split; [exact Hreach|]. split.
    { intros j Hj. specialize (Hmin j Hj). lia. }
    split; [exact Hres|]. split.
    { unfold coinSelect, selectInputs. by rewrite Hres. }
    intros Hamt. apply wrapI64_id. unfold inI64.
    pose proof (assetSum_take_bounds assetId coins k Hwf) as Hb.
    destruct k as [|k].
    + simpl in *. lia.
    + specialize (Hmin O). simpl in Hmin. lia.
Qed.

(** Four coins, the second of another asset: 60 units of asset "A" are met
    by the first three coins (30 + 50), with 20 units of change. *)
Lemma coin_selection_witness :
  let coin asset v i :=
    mkUtxo 1000 (Some (mkTxoData asset v)) (mkOutPoint [x01] i) in
  let coins := [coin "A" 30 0; coin "B" 100 1; coin "A" 50 2; coin "A" 70 3] in
  coinsWellFormed "A" coins
  /\ coinSelect 0 60 coins "A"
     = ROk ([mkOutPoint [x01] 0; mkOutPoint [x01] 2], 20)
  /\ (coinSelect 0 151 coins "A" = RErr ErrInsufficientFunds).
Proof.
  intros coin coins.
  assert (Hwf : coinsWellFormed "A" coins).
  { split; [|reflexivity].
    repeat constructor; simpl; eauto; try discriminate. }
  split; [exact Hwf|]. split.
  - reflexivity.
  - destruct (coin_selection 0 151 coins "A" Hwf) as (_ & Hiff & _).
    apply Hiff. reflexivity.
Defined.

(** ** The store *)

Lemma storeSet_eq l p s : storeSet l p s l = p.
Proof. unfold storeSet. destruct (decide (l = l)); [reflexivity | contradiction]. Qed.

Lemma storeSet_ne l p s l' : l' <> l -> storeSet l p s l' = s l'.
Proof.
  intros Hne. unfold storeSet.
  destruct (decide (l' = l)); [contradiction | reflexivity].
Qed.

(** ** C7: settling an HTLC *)

Section Settle.
Context `{Ext : Externals}.

Lemma findTargetHTLC_first s paymentHash pre e post :
  Forall (fun x => ~ settleCandidate s paymentHash x) pre ->
  settleCandidate s paymentHash e ->
  findTargetHTLC s paymentHash (pre ++ e :: post) = Some e.
Proof.
  intros Hpre (Ht & Hs & Hh).
  induction Hpre as [|x pre Hx _ IH]; simpl.
  - destruct (decide (EntryType (s e) <> Add)); [contradiction|].
    rewrite Hs, (bool_decide_eq_true_2 _ Hh). reflexivity.
  - destruct (decide (EntryType (s x) <> Add)) as [|Hadd]; [exact IH|].
    destruct (settled (s x)) eqn:Hsx; simpl; [exact IH|].
    case_bool_decide as Hhx; [|exact IH].
    exfalso. apply Hx. repeat split; [|exact Hsx|exact Hhx].
    destruct (decide (EntryType (s x) = Add)); [assumption | contradiction].
Qed.

Lemma findTargetHTLC_none s paymentHash entries :
  Forall (fun x => ~ settleCandidate s paymentHash x) entries ->
  findTargetHTLC s paymentHash entries = None.
Proof.
  induction 1 as [|x entries Hx _ IH]; simpl; [reflexivity|].
  destruct (decide (EntryType (s x) <> Add)) as [|Hadd]; [exact IH|].
  destruct (settled (s x)) eqn:Hsx; simpl; [exact IH|].
  case_bool_decide as Hhx; [|exact IH].
  exfalso. apply Hx. repeat split; [|exact Hsx|exact Hhx].
  destruct (decide (EntryType (s x) = Add)); [assumption | contradiction].
Qed.

(** C7.  If the counterparty's log holds an un-settled Add entry whose RHash
    is [sha256 preimage], [SettleHTLC] marks the first such entry (in log
    order) settled, appends to our log a new Settle entry whose ParentIndex
    is that entry's Index, whose Index is the current value of our log
    counter and whose Amount is the entry's, advances the counter, and
    returns the entry's Index.  If there is no such entry it returns the
    "invalid payment hash" error and the channel, both logs included, is
    unchanged. *)
Theorem settle_htlc_contract (lc : LightningChannel) (preimage : bytes) :
  logsAllocated lc ->
  (forall pre e post,
     theirUpdateLog lc = pre ++ e :: post ->
     Forall (fun x => ~ settleCandidate (store lc) (sha256 preimage) x) pre ->
     settleCandidate (store lc) (sha256 preimage) e ->
     exists lc',
       SettleHTLC lc preimage = Return (Index (store lc e)) lc'
       /\ store lc' e = set_settled true (store lc e)
       /\ ourUpdateLog lc' = ourUpdateLog lc ++ [nextLoc lc]
       /\ store lc' (nextLoc lc)
          = mkPD [] 0 (Amount (store lc e)) (ourLogCounter lc)
                 (Index (store lc e)) [] Settle 0 0 0 0 false false
       /\ ourLogCounter lc' = wrap32 (ourLogCounter lc + 1)
       /\ theirUpdateLog lc' = theirUpdateLog lc
       /\ (forall l, l <> e -> l <> nextLoc lc -> store lc' l = store lc l))
  /\ (Forall (fun x => ~ settleCandidate (store lc) (sha256 preimage) x)
             (theirUpdateLog lc) ->
      SettleHTLC lc preimage = Fail ErrInvalidPaymentHash lc).
Proof.
  intros Halloc. split.
  - intros pre e post Hlog Hpre Hcand.
    assert (Hfresh : e <> nextLoc lc).
    { unfold logsAllocated in Halloc. rewrite Forall_app in Halloc.
      destruct Halloc as [_ Htheirs]. rewrite Hlog in Htheirs.
      rewrite Forall_app, Forall_cons in Htheirs. lia. }
    unfold SettleHTLC.
    rewrite Hlog, (findTargetHTLC_first _ _ _ _ _ Hpre Hcand), <- Hlog.
    cbn [alloc set_store set_ourLog store nextLoc ourLogCounter ourUpdateLog
         theirUpdateLog ourLogIndex].
    rewrite !(storeSet_ne _ _ _ _ Hfresh), !storeSet_eq.
    eexists. split; [reflexivity|].
    cbn [set_store set_ourLog store nextLoc ourLogCounter ourUpdateLog
         theirUpdateLog].
    rewrite !(storeSet_ne _ _ _ _ Hfresh), !storeSet_eq.
    repeat split.
    intros l Hle Hln. by rewrite !storeSet_ne.
  - intros Hnone. unfold SettleHTLC.
    by rewrite (findTargetHTLC_none _ _ _ Hnone).
Qed.

End Settle.

(** The received test HTLC (hash [sha256 []]) is settled with the pre-image
    []: index 0 is returned and our log gets the Settle entry. *)
Lemma settle_htlc_contract_witness :
  exists lc',
    @SettleHTLC testExternals testChannelWithHTLC [] = Return 0 lc'
    /\ settled (store lc' O) = true
    /\ ourUpdateLog lc' = [1%nat]
    /\ EntryType (store lc' 1%nat) = Settle
    /\ ParentIndex (store lc' 1%nat) = 0.
Proof.
  assert (Halloc : logsAllocated testChannelWithHTLC).
  { repeat constructor. }
  destruct (@settle_htlc_contract testExternals testChannelWithHTLC []
              Halloc) as [Hfound _].
  destruct (Hfound [] O [] eq_refl (Forall_nil_2 _))
    as (lc' & Hret & Hset & Hlog & Hnew & _).
  { repeat split. }
  exists lc'. split; [exact Hret|].
  rewrite Hset, Hlog.
  change (nextLoc testChannelWithHTLC) with 1%nat in Hnew.
  rewrite Hnew. repeat split.
Defined.

(** ** Commitment views *)

Section Views.
Context `{Ext : Externals}.

(** What a call of [fetchCommitmentView] can produce: the only field of the
    channel it writes is the store, its errors are those of the external
    builders, and a returned commitment sits one above the tip. *)
Lemma fetchCommitmentView_inv lc remoteChain ourIdx theirIdx key hash :
  match fetchCommitmentView lc remoteChain ourIdx theirIdx key hash with
  | Panic => True
  | Fail e lc1 => (exists x, e = ErrExt x) /\ exists s', lc1 = set_store s' lc
  | Return c lc1 =>
      exists t filtered s',
        tip (chainOf lc remoteChain) = Some t
        /\ evaluateHTLCView lc (fetchHTLCView lc theirIdx ourIdx)
             (ourBalance t) (theirBalance t) (wrap64 (height t + 1))
             remoteChain
           = Some (filtered, ourBalance c, theirBalance c, s')
        /\ lc1 = set_store s' lc
        /\ height c = wrap64 (height t + 1)
        /\ ourMessageIndex c = ourIdx
        /\ theirMessageIndex c = theirIdx
        /\ is_Some (txn c)
  end.
Proof.
  unfold fetchCommitmentView. fold (chainOf lc remoteChain).
  destruct (tip _) as [t|]; [|exact I].
  destruct (evaluateHTLCView _ _ _ _ _ _) as [[[[v ob] tb] s']|] eqn:Hev;
    [|exact I].
  destruct (if remoteChain then _ else _) as [[[[selfKey remoteKey] delay] db] pb].
  destruct (createCommitTx _ _ _ _ _ _ _) as [e|tx1] eqn:H1.
  { cbn beta iota. split; [|eauto]. revert H1. unfold createCommitTx.
    repeat (destruct (_ : option bytes); [|intros [= <-]; eauto]).
    discriminate. }
  assert (Herrs : forall lc0 tx b entries inc e,
            addHTLCs lc0 tx b entries hash delay inc = inl e ->
            exists x, e = ErrExt x).
  { intros lc0 tx b entries inc e Hadd. revert tx Hadd.
    induction entries as [|en entries IH]; intros tx; simpl; [discriminate|].
    destruct (addHTLC _ _ _ _ _ _ _) as [e'|tx''] eqn:Hone.
    - intros [= <-]. revert Hone. unfold addHTLC.
      destruct (match inc with true => _ | false => _ end);
        [|intros [= <-]; eauto].
      destruct (witnessScriptHash _); [discriminate|intros [= <-]; eauto].
    - apply IH. }
  destruct (addHTLCs _ _ _ _ _ _ _) as [e|tx2] eqn:H2.
  { cbn beta iota. split; [exact (Herrs _ _ _ _ _ _ H2) | eauto]. }
  clear H2. destruct (addHTLCs _ _ _ _ _ _ _) as [e|tx3] eqn:H3.
  { cbn beta iota. split; [exact (Herrs _ _ _ _ _ _ H3) | eauto]. }
  destruct (ColorifyTx _ false) as [e|tx4] eqn:H4.
  { cbn beta iota. split; [|eauto]. revert H4. rewrite ColorifyTx_commit.
    destruct (EncodeCcInstructions _); [discriminate|intros [= <-]; eauto]. }
  exists t, v, s'. simpl. repeat split; eauto.
Qed.

End Views.

(** ** C3: signing the next commitment *)

Section Sign.
Context `{Ext : Externals}.

(** The outcomes of [SignNextCommitment]. *)
Lemma SignNextCommitment_inv (lc : LightningChannel) :
  match SignNextCommitment lc with
  | Panic => True
  | Fail e lc' =>
      (e = ErrNoWindow /\ lc' = lc
       /\ (revocationWindow lc = [] \/ length (usedRevocations lc) = 4%nat))
      \/ ((exists x, e = ErrExt x) /\ exists s', lc' = set_store s' lc)
  | Return (sig, idx) lc' =>
      exists nextRevocation window' t c lc1 tx,
        revocationWindow lc = nextRevocation :: window'
        /\ length (usedRevocations lc) <> 4%nat
        /\ tip (remoteCommitChain lc) = Some t
        /\ fetchCommitmentView lc true (ourLogCounter lc)
             (theirLogCounter lc) (NextRevocationKey nextRevocation)
             (NextRevocationHash nextRevocation) = Return c lc1
        /\ (exists s', lc1 = set_store s' lc)
        /\ height c = wrap64 (height t + 1)
        /\ ourMessageIndex c = ourLogCounter lc
        /\ theirMessageIndex c = theirLogCounter lc
        /\ txn c = Some tx
        /\ RawTxInWitnessSignature tx 0 (Capacity (channelState lc))
             (FundingRedeemScript (channelState lc))
             (OurMultiSigKey (channelState lc)) = Some sig
        /\ idx = theirLogCounter lc
        /\ lc' = set_revocations (usedRevocations lc ++ [nextRevocation])
                   window'
                   (set_remoteCommitChain
                      (addCommitment c (remoteCommitChain lc)) lc1)
  end.
Proof.
  unfold SignNextCommitment.
  destruct (revocationWindow lc) as [|nextRevocation window'].
  { left. split; [done|]. split; [done|]. by left. }
  destruct (decide _) as [Hu|Hu].
  { left. split; [done|]. split; [done|]. right.
    unfold InitialRevocationWindow in Hu. lia. }
  pose proof (fetchCommitmentView_inv lc true (ourLogCounter lc)
                (theirLogCounter lc) (NextRevocationKey nextRevocation)
                (NextRevocationHash nextRevocation)) as Hinv.
  destruct (fetchCommitmentView _ _ _ _ _ _) as [c lc1|e lc1|] eqn:Hfetch;
    [|by right|exact I].
  destruct Hinv as (t & filtered & s' & Htip & _ & -> & Hh & Ho & Ht & _).
  destruct (txn c) as [tx|] eqn:Htx; [|exact I].
  cbn [channelState set_store].
  destruct (RawTxInWitnessSignature _ _ _ _ _) as [sig'|] eqn:Hsig.
  - exists nextRevocation, window', t, c, (set_store s' lc), tx.
    split_and!; try done; eauto.
    unfold InitialRevocationWindow in Hu. lia.
  - right. split; eauto.
Qed.

(** C3.  [SignNextCommitment] returns [ErrNoWindow] exactly when
    [revocationWindow] is empty or [usedRevocations] holds
    [InitialRevocationWindow] (4) entries, and then the channel is not
    modified.  When it returns a signature, the head of [revocationWindow]
    has been popped and pushed at the end of [usedRevocations], the remote
    chain has been extended by the commitment view built at height
    remote-tip + 1 for our log up to [ourLogCounter] and their log up to
    [theirLogCounter], the signature is the one over that view's
    transaction, and [theirLogCounter] is returned with it. *)
Theorem sign_next_commitment_contract (lc : LightningChannel) :
  ((revocationWindow lc = []
    \/ length (usedRevocations lc) = 4%nat) ->
     SignNextCommitment lc = Fail ErrNoWindow lc)
  /\ (forall lc', SignNextCommitment lc = Fail ErrNoWindow lc' ->
        (revocationWindow lc = [] \/ length (usedRevocations lc) = 4%nat)
        /\ lc' = lc)
  /\ (forall sig idx lc',
        SignNextCommitment lc = Return (sig, idx) lc' ->
        exists nextRevocation window' t c lc1 tx,
          revocationWindow lc = nextRevocation :: window'
          /\ length (usedRevocations lc) <> 4%nat
          /\ tip (remoteCommitChain lc) = Some t
          /\ fetchCommitmentView lc true (ourLogCounter lc)
               (theirLogCounter lc) (NextRevocationKey nextRevocation)
               (NextRevocationHash nextRevocation) = Return c lc1
          /\ height c = wrap64 (height t + 1)
          /\ ourMessageIndex c = ourLogCounter lc
          /\ theirMessageIndex c = theirLogCounter lc
          /\ txn c = Some tx
          /\ RawTxInWitnessSignature tx 0 (Capacity (channelState lc))
               (FundingRedeemScript (channelState lc))
               (OurMultiSigKey (channelState lc)) = Some sig
          /\ idx = theirLogCounter lc
          /\ revocationWindow lc' = window'
          /\ usedRevocations lc' = usedRevocations lc ++ [nextRevocation]
          /\ commitments (remoteCommitChain lc')
             = commitments (remoteCommitChain lc) ++ [c]
          /\ lc' = set_revocations (usedRevocations lc ++ [nextRevocation])
                     window'
                     (set_remoteCommitChain
                        (addCommitment c (remoteCommitChain lc)) lc1)).
Proof.
  pose proof (SignNextCommitment_inv lc) as Hinv.
  split; [|split].
  - intros [Hw | Hu]; unfold SignNextCommitment.
    + by rewrite Hw.
    + destruct (revocationWindow lc); [reflexivity|].
      rewrite Hu. reflexivity.
  - intros lc' Hres. rewrite Hres in Hinv.
    destruct Hinv as [(_ & -> & Hpre)|[[x Hx] _]]; [done | discriminate].
  - intros sig idx lc' Hres. rewrite Hres in Hinv.
    destruct Hinv as (r & w & t & c & lc1 & tx & Hw & Hu & Htip & Hfetch
                      & [s' ->] & Hh & Ho & Ht & Htx & Hsig & Hidx & ->).
    exists r, w, t, c, (set_store s' lc), tx. split_and!; done.
Qed.

End Sign.

(** On the test channel: without a window the call fails with
    [ErrNoWindow]; after one window extension it signs the commitment at
    height 1. *)
Lemma sign_next_commitment_contract_witness :
  @SignNextCommitment testExternals testChannel = Fail ErrNoWindow testChannel
  /\ exists sig lc' c,
       @SignNextCommitment testExternals
         (testRun [OpReceiveRevocation testExtension]) = Return (sig, 0) lc'
       /\ commitments (remoteCommitChain lc')
          = commitments (remoteCommitChain testChannel) ++ [c]
       /\ height c = 1
       /\ revocationWindow lc' = []
       /\ usedRevocations lc' = [testExtension].
Proof.
  split.
  - apply (@sign_next_commitment_contract testExternals testChannel).
    left. reflexivity.
  - destruct (@SignNextCommitment testExternals
                (testRun [OpReceiveRevocation testExtension]))
      as [[sig idx] lc'| |] eqn:Hsign; [|discriminate|discriminate].
    destruct (@sign_next_commitment_contract testExternals
                (testRun [OpReceiveRevocation testExtension]))
      as (_ & _ & Hret).
    destruct (Hret sig idx lc' Hsign)
      as (r & w & t & c & lc1 & tx & Hw & _ & Htip & _ & Hh & _ & _ & _ & _
          & Hidx & Hw' & Hu' & Hc' & _).
    injection Hw as <- <-. injection Htip as <-.
    exists sig, lc', c. rewrite Hidx. repeat split; assumption.
Defined.

(** ** C4: a revocation that does not match the stored key *)

Section Revocation.
Context `{Ext : Externals}.

(** C4 (amended).  For a revocation with a non-zero pre-image whose derived
    revocation public key differs from the stored
    [TheirCurrentRevocation]: if the elkrem receiver rejects the pre-image,
    [ReceiveRevocation] returns the elkrem error and the channel is
    unchanged; if it accepts it, [ReceiveRevocation] returns the "revocation
    key mismatch" error and the stored revocation key and hash,
    [usedRevocations], [revocationWindow], both commitment chains, both
    HTLC logs with their indexes and the store are unchanged; the channel
    differs from the one before the call at most in the elkrem receiver. *)
Theorem revocation_key_mismatch_rejected
    (lc : LightningChannel) (revMsg : CommitRevocation) :
  Revocation revMsg <> zeroHash ->
  PubKey (deriveRevocationPrivKey (OurCommitKey (channelState lc))
                                  (Revocation revMsg))
    <> TheirCurrentRevocation (channelState lc) ->
  (elkremConsistent (RemoteElkrem (channelState lc)) (Revocation revMsg)
   = false ->
     ReceiveRevocation lc revMsg = Fail (ErrExt ElkremError) lc)
  /\ (elkremConsistent (RemoteElkrem (channelState lc)) (Revocation revMsg)
      = true ->
      exists lc' r,
        ReceiveRevocation lc revMsg = Fail ErrRevocationKeyMismatch lc'
        /\ lc' = set_channelState (set_RemoteElkrem r (channelState lc)) lc
        /\ TheirCurrentRevocation (channelState lc')
           = TheirCurrentRevocation (channelState lc)
        /\ TheirCurrentRevocationHash (channelState lc')
           = TheirCurrentRevocationHash (channelState lc)
        /\ usedRevocations lc' = usedRevocations lc
        /\ revocationWindow lc' = revocationWindow lc
        /\ remoteCommitChain lc' = remoteCommitChain lc
        /\ localCommitChain lc' = localCommitChain lc
        /\ ourUpdateLog lc' = ourUpdateLog lc
        /\ theirUpdateLog lc' = theirUpdateLog lc
        /\ ourLogIndex lc' = ourLogIndex lc
        /\ theirLogIndex lc' = theirLogIndex lc
        /\ store lc' = store lc).
Proof.
  intros Hnz Hkey. unfold ReceiveRevocation, elkremAddNext.
  destruct (decide (zeroHash = Revocation revMsg)) as [Hz|_];
    [congruence|].
  split; intros Hel; rewrite Hel.
  - reflexivity.
  - cbn [channelState set_channelState OurCommitKey TheirCurrentRevocation
         set_RemoteElkrem].
    destruct (decide _) as [_|Heq]; [|contradiction].
    eexists _, _. split; [reflexivity|]. repeat split.
Qed.

End Revocation.

(** On the test channel the bad revocation is answered by the key-mismatch
    error, with the revocation bookkeeping untouched. *)
Lemma revocation_key_mismatch_rejected_witness :
  exists lc',
    @ReceiveRevocation testExternals testChannel testBadRevocation
    = Fail ErrRevocationKeyMismatch lc'
    /\ usedRevocations lc' = usedRevocations testChannel
    /\ revocationWindow lc' = revocationWindow testChannel
    /\ remoteCommitChain lc' = remoteCommitChain testChannel.
Proof.
  destruct (@revocation_key_mismatch_rejected testExternals testChannel
              testBadRevocation) as [_ Hacc].
  - discriminate.
  - discriminate.
  - destruct (Hacc eq_refl)
      as (lc' & r & Hres & _ & _ & _ & Hu & Hw & Hc & _).
    exists lc'. repeat split; assumption.
Defined.

(** C4 as stated fails on the test channel: the key-mismatch error is
    returned, but the remote elkrem receiver has already taken the
    pre-image, so the channel state has changed. *)
Lemma revocation_key_mismatch_changes_elkrem :
  exists lc',
    @ReceiveRevocation testExternals testChannel testBadRevocation
    = Fail ErrRevocationKeyMismatch lc'
    /\ RemoteElkrem (channelState testChannel) = []
    /\ RemoteElkrem (channelState lc') = [Revocation testBadRevocation]
    /\ lc' <> testChannel.
Proof.
  eexists. split; [reflexivity|]. split; [reflexivity|].
  split; [reflexivity|].
  intros Heq. apply (f_equal (fun lc => RemoteElkrem (channelState lc))) in Heq.
  discriminate Heq.
Qed.

(** ** C5: log compaction *)

Lemma compactLog_cons s lt rt e rest logA logB indexB indexA :
  compactLog s lt rt (e :: rest) logA logB indexB indexA
  = if decide (evictable s lt rt e) then
      match indexB !! ParentIndex (s e) with
      | None => None
      | Some parentLink =>
          compactLog s lt rt rest (listRemove e logA)
            (listRemove parentLink logB)
            (delete (Index (s parentLink)) indexB)
            (delete (Index (s e)) indexA)
      end
    else compactLog s lt rt rest logA logB indexB indexA.
Proof.
  cbn [compactLog]. unfold evictable.
  destruct (decide (EntryType (s e) = Add)) as [Ha|Ha].
  { destruct (decide _) as [[Hn _]|_]; [contradiction | reflexivity]. }
  destruct (Z.eqb_spec (removeCommitHeightRemote (s e)) 0) as [Hr|Hr].
  { destruct (decide _) as [(_ & Hn & _)|_]; [contradiction | reflexivity]. }
  destruct (Z.eqb_spec (removeCommitHeightLocal (s e)) 0) as [Hl|Hl].
  { destruct (decide _) as [(_ & _ & Hn & _)|_]; [contradiction | reflexivity]. }
  cbn [orb].
  destruct (rt >=? removeCommitHeightRemote (s e)) eqn:Hrt;
    destruct (lt >=? removeCommitHeightLocal (s e)) eqn:Hlt; cbn [andb];
    rewrite ?Z.geb_le in Hrt, Hlt;
    destruct (decide _) as [(_ & _ & _ & Hr' & Hl')|Hn];
    try reflexivity.
  - exfalso. apply Hn. repeat split; assumption.
  - apply Z.geb_le in Hl'. congruence.
  - apply Z.geb_le in Hr'. congruence.
  - apply Z.geb_le in Hr'. congruence.
Qed.

Lemma elem_of_listRemove e x l : x ∈ listRemove e l <-> x ∈ l /\ x <> e.
Proof. unfold listRemove. rewrite list_elem_of_filter. tauto. Qed.

Lemma listRemove_sublist e l : listRemove e l `sublist_of` l.
Proof. apply sublist_filter. Qed.

(** One pass of [compactLog] that does not panic, in terms of the logs and
    index maps it started from. *)
Lemma compactLog_spec s lt rt iter :
  forall logA logB indexB indexA logA' logB' indexB' indexA',
    compactLog s lt rt iter logA logB indexB indexA
    = Some (logA', logB', indexB', indexA') ->
    (forall x, x ∈ logA' <-> x ∈ logA /\ ~ (x ∈ iter /\ evictable s lt rt x))
    /\ (forall x,
          x ∈ logB'
          <-> x ∈ logB
              /\ ~ (exists e, e ∈ iter /\ evictable s lt rt e
                              /\ indexB !! ParentIndex (s e) = Some x))
    /\ (forall k v, indexB' !! k = Some v -> indexB !! k = Some v)
    /\ (forall k v, indexA' !! k = Some v -> indexA !! k = Some v)
    /\ (forall e, e ∈ iter -> evictable s lt rt e ->
          exists parent,
            indexB !! ParentIndex (s e) = Some parent
            /\ indexB' !! Index (s parent) = None
            /\ indexA' !! Index (s e) = None)
    /\ logA' `sublist_of` logA
    /\ logB' `sublist_of` logB.
Proof.
  induction iter as [|e0 rest IH];
    intros logA logB indexB indexA logA' logB' indexB' indexA' Hrun.
  { injection Hrun as <- <- <- <-.
    split_and!; try done.
    - intros x. split; [|tauto].
      intros Hx. split; [done|]. intros [Hin _]. by apply elem_of_nil in Hin.
    - intros x. split; [|tauto].
      intros Hx. split; [done|].
      intros (e & Hin & _). by apply elem_of_nil in Hin.
    - intros e Hin. by apply elem_of_nil in Hin. }
  rewrite compactLog_cons in Hrun.
  destruct (decide (evictable s lt rt e0)) as [Hev|Hev].
  - destruct (indexB !! ParentIndex (s e0)) as [parent|] eqn:Hparent;
      [|discriminate].
    destruct (IH _ _ _ _ _ _ _ _ Hrun)
      as (HA & HB & HiB & HiA & Hgone & HsA & HsB).
    assert (HiB0 : forall k v, indexB' !! k = Some v -> indexB !! k = Some v).
    { intros k v Hk. apply HiB in Hk.
      apply lookup_delete_Some in Hk. tauto. }
    assert (HiA0 : forall k v, indexA' !! k = Some v -> indexA !! k = Some v).
    { intros k v Hk. apply HiA in Hk.
      apply lookup_delete_Some in Hk. tauto. }
    split_and!; try assumption.
    + intros x. rewrite HA, elem_of_listRemove. split.
      * intros [[Hx Hne] Hn]. split; [done|].
        intros [Hin Hevx]. apply elem_of_cons in Hin as [->|Hin]; tauto.
      * intros [Hx Hn]. split; [split|].
        -- done.
        -- intros ->. apply Hn. split; [apply elem_of_cons; by left | done].
        -- intros [Hin Hevx]. apply Hn.
           split; [apply elem_of_cons; by right | done].
    + intros x. rewrite HB, elem_of_listRemove. split.
      * intros [[Hx Hne] Hn]. split; [done|].
        intros (e & Hin & Heve & He). apply elem_of_cons in Hin as [->|Hin].
        -- congruence.
        -- apply Hn. exists e. split; [done|]. split; [done|].
           destruct (Hgone e Hin Heve) as (p & Hp & _).
           rewrite Hp. apply lookup_delete_Some in Hp as [_ Hp]. congruence.
      * intros [Hx Hn]. split; [split|].
        -- done.
        -- intros ->. apply Hn. exists e0.
           split; [apply elem_of_cons; by left | done].
        -- intros (e & Hin & Heve & He). apply Hn. exists e.
           split; [apply elem_of_cons; by right|]. split; [done|].
           apply lookup_delete_Some in He. tauto.
    + intros e Hin Heve. apply elem_of_cons in Hin as [->|Hin].
      * exists parent. split; [done|]. split.
        -- destruct (indexB' !! Index (s parent)) as [v|] eqn:Hv; [|done].
           apply HiB in Hv. by rewrite lookup_delete_eq in Hv.
        -- destruct (indexA' !! Index (s e0)) as [v|] eqn:Hv; [|done].
           apply HiA in Hv. by rewrite lookup_delete_eq in Hv.
      * destruct (Hgone e Hin Heve) as (p & Hp & HpB & HpA).
        exists p. apply lookup_delete_Some in Hp as [_ Hp]. done.
    + etrans; [exact HsA | apply listRemove_sublist].
    + etrans; [exact HsB | apply listRemove_sublist].
  - destruct (IH _ _ _ _ _ _ _ _ Hrun)
      as (HA & HB & HiB & HiA & Hgone & HsA & HsB).
    split_and!; try assumption.
    + intros x. rewrite HA. split.
      * intros [Hx Hn]. split; [done|].
        intros [Hin Hevx]. apply elem_of_cons in Hin as [->|Hin]; tauto.
      * intros [Hx Hn]. split; [done|].
        intros [Hin Hevx]. apply Hn.
        split; [apply elem_of_cons; by right | done].
    + intros x. rewrite HB. split.
      * intros [Hx Hn]. split; [done|].
        intros (e & Hin & Heve & He). apply elem_of_cons in Hin as [->|Hin];
          [done|]. apply Hn. eauto.
      * intros [Hx Hn]. split; [done|].
        intros (e & Hin & Heve & He). apply Hn. exists e.
        split; [apply elem_of_cons; by right | done].
    + intros e Hin Heve. apply elem_of_cons in Hin as [->|Hin]; [done|].
      by apply Hgone.
Qed.







(** ** C2: the revocation window *)

Section Window.
Context `{Ext : Externals}.

Ltac split_matches :=
  repeat match goal with
    | |- context [match ?x with _ => _ end] => destruct x eqn:?
    end.

Ltac unchanged :=
  split_matches; cbn [after]; intros Hafter;
  first [discriminate Hafter
        | injection Hafter as <-; reflexivity].

Lemma ReceiveNewCommitment_revState lc rawSig i lc' :
  after (ReceiveNewCommitment lc rawSig i) = Some lc' ->
  revState lc' = revState lc.
Proof.
  unfold ReceiveNewCommitment.
  destruct (elkremAtIndex _ _) as [revocation|];
    [|cbn; by intros [= <-]].
  pose proof (fetchCommitmentView_inv lc false i (theirLogCounter lc)
                (deriveRevocationPubkey (TheirCommitKey (channelState lc))
                                        revocation)
                (sha256 revocation)) as Hinv.
  destruct (fetchCommitmentView _ _ _ _ _ _) as [c lc1|e lc1|];
    [|destruct Hinv as [_ [s' ->]]; cbn; by intros [= <-]|discriminate].
  destruct Hinv as (t & filtered & s' & _ & _ & -> & _).
  unchanged.
Qed.

Lemma RevokeCurrentCommitment_revState lc lc' :
  after (RevokeCurrentCommitment lc) = Some lc' ->
  revState lc' = revState lc.
Proof. unfold RevokeCurrentCommitment. unchanged. Qed.

Lemma ExtendRevocationWindow_revState lc lc' :
  after (ExtendRevocationWindow lc) = Some lc' ->
  revState lc' = revState lc.
Proof. unfold ExtendRevocationWindow. unchanged. Qed.

Lemma AddHTLC_revState lc htlc lc' :
  after (AddHTLC lc htlc) = Some lc' -> revState lc' = revState lc.
Proof. unfold AddHTLC, alloc. unchanged. Qed.

Lemma ReceiveHTLC_revState lc htlc lc' :
  after (ReceiveHTLC lc htlc) = Some lc' -> revState lc' = revState lc.
Proof. unfold ReceiveHTLC, alloc. unchanged. Qed.

Lemma SettleHTLC_revState lc preimage lc' :
  after (SettleHTLC lc preimage) = Some lc' -> revState lc' = revState lc.
Proof. unfold SettleHTLC, alloc. unchanged. Qed.

Lemma ReceiveHTLCSettle_revState lc preimage i lc' :
  after (ReceiveHTLCSettle lc preimage i) = Some lc' ->
  revState lc' = revState lc.
Proof. unfold ReceiveHTLCSettle, alloc. unchanged. Qed.

Lemma InitCooperativeClose_revState lc lc' :
  after (InitCooperativeClose lc) = Some lc' -> revState lc' = revState lc.
Proof. unfold InitCooperativeClose. unchanged. Qed.

(** What [CompleteCooperativeClose] leaves behind: the channel as it was
    (the status refuses the call), the channel closed, or the channel
    closed and the witness written into the funding input. *)
Lemma CompleteCooperativeClose_after lc remoteSig lc' :
  after (CompleteCooperativeClose lc remoteSig) = Some lc' ->
  lc' = lc
  \/ lc' = set_status channelClosed lc
  \/ exists old new,
       lc' = writeFundingTxIn old new (set_status channelClosed lc).
Proof.
  unfold CompleteCooperativeClose.
  split_matches; cbn [after]; intros Hafter;
    first [discriminate Hafter | injection Hafter as <-; eauto].
Qed.

Lemma contiguous_shareTxIn old new l :
  contiguous (shareTxInCommitment old new <$> l) <-> contiguous l.
Proof.
  induction l as [|a l IH]; [done|].
  destruct l as [|b l]; [done|].
  rewrite !fmap_cons in *. cbn [contiguous] in *.
  cbn [shareTxInCommitment height] in *. by rewrite IH.
Qed.

Lemma CompleteCooperativeClose_revState lc remoteSig lc' :
  after (CompleteCooperativeClose lc remoteSig) = Some lc' ->
  usedRevocations lc' = usedRevocations lc
  /\ revocationWindow lc' = revocationWindow lc
  /\ (remoteCommitChain lc' = remoteCommitChain lc
      \/ exists old new,
           remoteCommitChain lc'
           = shareTxInChain old new (remoteCommitChain lc)).
Proof.
  intros Hafter.
  apply CompleteCooperativeClose_after in Hafter
    as [->|[->|(old & new & ->)]]; eauto 6.
Qed.

Lemma compactLogs_revState lc lt rt lc' :
  compactLogs lc lt rt = Some lc' -> revState lc' = revState lc.
Proof.
  unfold compactLogs. split_matches; intros Hc;
    first [discriminate Hc | injection Hc as <-; reflexivity].
Qed.

(** The effect of [ReceiveRevocation] on the revocation window, when the
    database write succeeds. *)
Lemma ReceiveRevocation_revState lc revMsg lc' :
  (forall cs, SyncRevocation cs = true) ->
  after (ReceiveRevocation lc revMsg) = Some lc' ->
  if decide (zeroHash = Revocation revMsg) then
    usedRevocations lc' = usedRevocations lc
    /\ revocationWindow lc' = revocationWindow lc ++ [revMsg]
    /\ remoteCommitChain lc' = remoteCommitChain lc
  else
    revState lc' = revState lc
    \/ exists r c,
         usedRevocations lc = r :: usedRevocations lc'
         /\ revocationWindow lc' = revocationWindow lc ++ [revMsg]
         /\ commitments (remoteCommitChain lc)
            = c :: commitments (remoteCommitChain lc').
Proof.
  intros Hdb. unfold ReceiveRevocation.
  destruct (decide (zeroHash = Revocation revMsg)) as [Hz|Hz].
  { cbn. by intros [= <-]. }
  destruct (elkremAddNext _ _) as [remoteElkrem|]; [|cbn; intros [= <-]; by left].
  destruct (decide _); [cbn; intros [= <-]; by left|].
  destruct (_ && _); [cbn; intros [= <-]; by left|].
  cbn [usedRevocations set_channelState].
  destruct (usedRevocations lc) as [|r used'] eqn:Hused; [discriminate|].
  cbn [remoteCommitChain set_revocations set_channelState].
  destruct (tail (remoteCommitChain lc)) as [tl|]; [|discriminate].
  rewrite Hdb. cbn [negb].
  destruct (advanceTail (remoteCommitChain lc)) as [chain'|] eqn:Hadv;
    [|discriminate].
  cbn [remoteCommitChain localCommitChain set_remoteCommitChain
       set_revocations set_channelState].
  destruct (tail chain') as [rt|]; [|discriminate].
  destruct (tail (localCommitChain lc)) as [lt|]; [|discriminate].
  destruct (forwardPass _ _ _ _) as [s' fwd].
  destruct (compactLogs _ _ _) as [lc5|] eqn:Hcompact; [|discriminate].
  cbn. intros [= <-]. right.
  apply compactLogs_revState in Hcompact.
  unfold revState in Hcompact. cbn in Hcompact.
  injection Hcompact as Hu Hw Hc.
  unfold advanceTail in Hadv.
  destruct (commitments (remoteCommitChain lc)) as [|c rest] eqn:Hchain;
    [discriminate|].
  injection Hadv as <-. exists r, c. rewrite Hu, Hw, Hc. done.
Qed.

Lemma SignNextCommitment_revState lc lc' :
  after (SignNextCommitment lc) = Some lc' ->
  revState lc' = revState lc
  \/ exists r t c,
       revocationWindow lc = r :: revocationWindow lc'
       /\ length (usedRevocations lc) <> 4%nat
       /\ usedRevocations lc' = usedRevocations lc ++ [r]
       /\ tip (remoteCommitChain lc) = Some t
       /\ height c = wrap64 (height t + 1)
       /\ commitments (remoteCommitChain lc')
          = commitments (remoteCommitChain lc) ++ [c].
Proof.
  pose proof (SignNextCommitment_inv lc) as Hinv.
  destruct (SignNextCommitment lc) as [[sig idx] lc1|e lc1|];
    [| |discriminate]; cbn; intros [= <-].
  - destruct Hinv as (r & w & t & c & lc2 & tx & Hw & Hu & Htip & _
                      & [s' ->] & Hh & _ & _ & _ & _ & _ & ->).
    right. exists r, t, c. cbn. rewrite Hw. done.
  - left. destruct Hinv as [(_ & -> & _)|[_ [s' ->]]]; reflexivity.
Qed.

Lemma contiguous_snoc l t c :
  contiguous l -> last l = Some t -> height c = wrap64 (height t + 1) ->
  contiguous (l ++ [c]).
Proof.
  induction l as [|a l IH]; [done|].
  destruct l as [|b l].
  - intros _ [= <-] Hh. cbn. done.
  - intros [Hab Hl] Hlast Hh. cbn. split; [done|].
    apply IH; done.
Qed.

Lemma contiguous_heights l a b :
  contiguous l -> head l = Some a -> last l = Some b ->
  wrap64 (height b - height a) = wrap64 (Z.of_nat (length l) - 1).
Proof.
  revert a. induction l as [|x l IH]; [done|].
  intros a Hc [= <-] Hlast. destruct l as [|y l].
  - injection Hlast as <-. cbn. f_equal. lia.
  - destruct Hc as [Hxy Hc]. cbn [last] in Hlast.
    change (last (y :: l) = Some b) in Hlast.
    specialize (IH y Hc eq_refl Hlast).
    unfold wrap64 in *.
    pose proof (Z.mod_eq (height x + 1) (2 ^ 64)) as Hq.
    replace (height b - height x)
      with ((height b - height y) + 1
            + (- ((height x + 1) / 2 ^ 64)) * 2 ^ 64) by lia.
    rewrite Z_mod_plus_full, <- Zplus_mod_idemp_l, IH, Zplus_mod_idemp_l.
    f_equal. cbn [length]. lia.
Qed.

(** Every operation keeps the window invariant; a received window
    extension counts one more. *)
Lemma step_windowInvariant lc op lc' n :
  (forall cs, SyncRevocation cs = true) ->
  windowInvariant lc n ->
  step lc op = Some lc' ->
  windowInvariant lc' (if isWindowExtension op then S n else n).
Proof.
  intros Hdb (Hsum & Hlen & Hcont & Hmax) Hstep.
  assert (Hsame : revState lc' = revState lc -> windowInvariant lc' n).
  { intros [= Hu Hw Hc]. unfold windowInvariant. rewrite Hu, Hw, Hc. done. }
  destruct op; cbn [step isWindowExtension] in *.
  - apply SignNextCommitment_revState in Hstep
      as [Hs|(r & t & c & Hw & Hu4 & Hu & Htip & Hh & Hc)]; [by apply Hsame|].
    unfold windowInvariant. rewrite Hu, Hc, !length_app. cbn [length].
    rewrite Hw in Hsum. cbn [length] in Hsum.
    split_and!; [lia | lia | | lia].
    eapply contiguous_snoc; eauto.
  - apply Hsame. eapply ReceiveNewCommitment_revState, Hstep.
  - apply Hsame. eapply RevokeCurrentCommitment_revState, Hstep.
  - apply (ReceiveRevocation_revState _ _ _ Hdb) in Hstep.
    case_bool_decide as Hz.
    + destruct (decide _) as [_|Hn]; [|contradiction].
      destruct Hstep as (Hu & Hw & Hc).
      unfold windowInvariant. rewrite Hu, Hw, Hc, length_app.
      cbn [length]. split_and!; [lia | done | done | done].
    + destruct (decide _) as [Hn|_]; [contradiction|].
      destruct Hstep as [Hs|(r & c & Hu & Hw & Hc)]; [by apply Hsame|].
      unfold windowInvariant. rewrite Hw, length_app. cbn [length].
      rewrite Hu in Hsum, Hlen, Hmax. rewrite Hc in Hlen, Hcont.
      cbn [length] in *. split_and!; [lia | lia | | lia].
      destruct (commitments (remoteCommitChain lc')); [done|].
      by destruct Hcont.
  - apply Hsame. eapply ExtendRevocationWindow_revState, Hstep.
  - apply Hsame. eapply AddHTLC_revState, Hstep.
  - apply Hsame. eapply ReceiveHTLC_revState, Hstep.
  - apply Hsame. eapply SettleHTLC_revState, Hstep.
  - apply Hsame. eapply ReceiveHTLCSettle_revState, Hstep.
  - apply Hsame. eapply InitCooperativeClose_revState, Hstep.
  - apply CompleteCooperativeClose_revState in Hstep
      as (Hu & Hw & [Hc|(old & new & Hc)]).
    + apply Hsame. unfold revState. by rewrite Hu, Hw, Hc.
    + unfold windowInvariant. rewrite Hu, Hw, Hc.
      cbn [shareTxInChain commitments].
      rewrite length_fmap, contiguous_shareTxIn. done.
Qed.

Lemma run_windowInvariant ops : forall lc lc' n,
  (forall cs, SyncRevocation cs = true) ->
  windowInvariant lc n ->
  run lc ops = Some lc' ->
  windowInvariant lc' (n + windowExtensions ops).
Proof.
  induction ops as [|op ops IH]; intros lc lc' n Hdb Hinv Hrun.
  - injection Hrun as <-. unfold windowExtensions. cbn.
    by rewrite Nat.add_0_r.
  - cbn [run] in Hrun. destruct (step lc op) as [lc1|] eqn:Hstep;
      [|discriminate].
    pose proof (step_windowInvariant _ _ _ _ Hdb Hinv Hstep) as Hinv1.
    specialize (IH _ _ _ Hdb Hinv1 Hrun).
    unfold windowExtensions in *. cbn [List.filter].
    destruct (isWindowExtension op); cbn [length].
    + by rewrite Nat.add_succ_r.
    + done.
Qed.

End Window.

(** C2 (amended).  In every channel reached from a freshly constructed
    [LightningChannel] by a sequence of public operations none of which
    panics, and with a database whose revocation write does not fail: the
    length of [usedRevocations] is at most [InitialRevocationWindow] (4)
    and equals the remote tip height minus the remote tail height
    ([uint64]); the length of [usedRevocations] plus the length of
    [revocationWindow] equals the number of window extensions (revocations
    with the zero pre-image) received so far, hence is at most 4 as long as
    at most 4 extensions were received. *)
Theorem window_budget `{Ext : Externals}
    (state : OpenChannel) (lc0 lc : LightningChannel) (ops : list Op) :
  NewLightningChannel state = inr lc0 ->
  (forall cs, SyncRevocation cs = true) ->
  run lc0 ops = Some lc ->
  (length (usedRevocations lc) <= 4)%nat
  /\ (length (usedRevocations lc) + length (revocationWindow lc)
      = windowExtensions ops)%nat
  /\ ((windowExtensions ops <= 4)%nat ->
      (length (usedRevocations lc) + length (revocationWindow lc) <= 4)%nat)
  /\ exists tipc tailc,
       tip (remoteCommitChain lc) = Some tipc
       /\ tail (remoteCommitChain lc) = Some tailc
       /\ wrap64 (height tipc - height tailc)
          = Z.of_nat (length (usedRevocations lc)).
Proof.
  intros Hnew Hdb Hrun.
  assert (Hinit : windowInvariant lc0 0).
  { unfold NewLightningChannel in Hnew.
    destruct (witnessScriptHash _); [|discriminate].
    injection Hnew as <-. unfold windowInvariant. cbn.
    split_and!; (done || lia). }
  destruct (run_windowInvariant _ _ _ _ Hdb Hinit Hrun)
    as (Hsum & Hlen & Hcont & Hmax).
  rewrite Nat.add_0_l in Hsum.
  split; [done|]. split; [done|]. split; [lia|].
  unfold tip, tail.
  destruct (commitments (remoteCommitChain lc)) as [|c l] eqn:Hchain;
    [discriminate|].
  destruct (last (c :: l)) as [t|] eqn:Hlast.
  2: { by apply last_None in Hlast. }
  exists t, c. split; [done|]. split; [done|].
  rewrite (contiguous_heights (c :: l) c t Hcont eq_refl Hlast).
  rewrite Hlen, Nat2Z.inj_succ. unfold wrap64.
  rewrite Z.mod_small; lia.
Qed.

(** One window extension and a signed commitment on the test channel: one
    revocation in use, none left, the remote chain one commitment long. *)
Lemma window_budget_witness :
  let lc := testRun [OpReceiveRevocation testExtension; OpSignNextCommitment] in
  length (usedRevocations lc) = 1%nat
  /\ length (revocationWindow lc) = 0%nat
  /\ exists tipc tailc,
       tip (remoteCommitChain lc) = Some tipc
       /\ tail (remoteCommitChain lc) = Some tailc
       /\ wrap64 (height tipc - height tailc) = 1.
Proof.
  intros lc.
  destruct (@window_budget testExternals testState testChannel lc
              [OpReceiveRevocation testExtension; OpSignNextCommitment])
    as (_ & _ & _ & tipc & tailc & Htip & Htail & Hh);
    [reflexivity | reflexivity | reflexivity |].
  split; [reflexivity|]. split; [reflexivity|].
  exists tipc, tailc. split; [exact Htip|]. split; [exact Htail|].
  exact Hh.
Defined.

(** C2 as stated fails: five window extensions received by a fresh channel
    leave five revocations in the window. *)
Lemma window_budget_exceeded :
  exists lc,
    @NewLightningChannel testExternals testState = inr testChannel
    /\ @run testExternals testChannel
         (replicate 5 (OpReceiveRevocation testExtension)) = Some lc
    /\ length (usedRevocations lc) = 0%nat
    /\ length (revocationWindow lc) = 5%nat
    /\ ~ (Z.of_nat (length (usedRevocations lc) + length (revocationWindow lc))
          <= InitialRevocationWindow).
Proof.
  eexists. split; [reflexivity|]. split; [reflexivity|].
  split; [reflexivity|]. split; [reflexivity|].
  unfold InitialRevocationWindow. cbn. lia.
Qed.

(** ** C1: balances of a commitment view *)

Lemma eqm64_refl a : eqm64 a a.
Proof. reflexivity. Qed.

Lemma eqm64_sym a b : eqm64 a b -> eqm64 b a.
Proof. unfold eqm64. congruence. Qed.

Lemma eqm64_trans a b c : eqm64 a b -> eqm64 b c -> eqm64 a c.
Proof. unfold eqm64. congruence. Qed.

Lemma eqm64_add a b c d : eqm64 a b -> eqm64 c d -> eqm64 (a + c) (b + d).
Proof.
  unfold eqm64. intros Hab Hcd.
  rewrite (Z.add_mod a c), (Z.add_mod b d), Hab, Hcd by lia. reflexivity.
Qed.

Lemma eqm64_wrapI64 z : eqm64 (wrapI64 z) z.
Proof.
  unfold eqm64, wrapI64.
  rewrite Zminus_mod, Zmod_mod, <- Zminus_mod. f_equal. lia.
Qed.

Lemma eqm64_eq a b : eqm64 a b -> - 2 ^ 64 < a - b < 2 ^ 64 -> a = b.
Proof.
  unfold eqm64. intros Hm Hr.
  assert (Hd : (a - b) mod 2 ^ 64 = 0).
  { rewrite Zminus_mod, Hm, Z.sub_diag. reflexivity. }
  apply Z.mod_divide in Hd; [|lia]. destruct Hd as [k Hk]. lia.
Qed.

Lemma eqm64_wrap_l a b : eqm64 (wrapI64 a + b) (a + b).
Proof. apply eqm64_add; [apply eqm64_wrapI64 | apply eqm64_refl]. Qed.

Lemma eqm64_wrap_r a b : eqm64 (a + wrapI64 b) (a + b).
Proof. apply eqm64_add; [apply eqm64_refl | apply eqm64_wrapI64]. Qed.

Lemma eqm64_of_eq a b : a = b -> eqm64 a b.
Proof. intros ->. apply eqm64_refl. Qed.

Ltac eqm64_wrap :=
  first
    [ apply eqm64_of_eq; lia
    | eapply eqm64_trans; [apply eqm64_wrap_l|]; apply eqm64_of_eq; lia
    | eapply eqm64_trans; [apply eqm64_wrap_r|]; apply eqm64_of_eq; lia
    | eapply eqm64_trans;
      [apply eqm64_add; [apply eqm64_wrap_l | apply eqm64_refl]|];
      apply eqm64_of_eq; lia
    | eapply eqm64_trans;
      [apply eqm64_add; [apply eqm64_wrap_r | apply eqm64_refl]|];
      apply eqm64_of_eq; lia ].

(** The effect of the two entry processors on the sum of the balances. *)
Lemma processRemoveEntry_sum htlc ourBal theirBal h rc inc :
  EntryType htlc <> Add ->
  let '(htlc', ourBal', theirBal') :=
    processRemoveEntry htlc ourBal theirBal h rc inc in
  eqm64 (ourBal' + theirBal')
        (ourBal + theirBal
         + (if decide (removeHeight rc htlc = 0) then Amount htlc else 0))
  /\ Amount htlc' = Amount htlc
  /\ EntryType htlc' = EntryType htlc
  /\ Index htlc' = Index htlc
  /\ addHeight rc htlc' = addHeight rc htlc.
Proof.
  intros Hna. unfold processRemoveEntry.
  destruct (decide (removeHeight rc htlc = 0)) as [Hz|Hnz].
  - rewrite Hz. cbn [Z.eqb negb].
    destruct inc, (EntryType htlc) eqn:Ht, rc; try contradiction; cbn;
      (split; [eqm64_wrap | done]).
  - destruct (Z.eqb_spec (removeHeight rc htlc) 0); [contradiction|].
    cbn. split; [eqm64_wrap | done].
Qed.

Lemma processAddEntry_sum htlc ourBal theirBal h rc inc :
  let '(htlc', ourBal', theirBal') :=
    processAddEntry htlc ourBal theirBal h rc inc in
  eqm64 (ourBal' + theirBal'
         + (if decide (addHeight rc htlc = 0) then Amount htlc else 0))
        (ourBal + theirBal)
  /\ Amount htlc' = Amount htlc
  /\ EntryType htlc' = EntryType htlc
  /\ Index htlc' = Index htlc.
Proof.
  unfold processAddEntry.
  destruct (decide (addHeight rc htlc = 0)) as [Hz|Hnz].
  - rewrite Hz. cbn [Z.eqb negb].
    destruct inc, rc; cbn; (split; [eqm64_wrap | done]).
  - destruct (Z.eqb_spec (addHeight rc htlc) 0); [contradiction|].
    cbn. split; [eqm64_wrap | done].
Qed.

(** Sums over lists of entries. *)
Lemma amountSum_app s l1 l2 :
  amountSum s (l1 ++ l2) = amountSum s l1 + amountSum s l2.
Proof.
  unfold amountSum. induction l1 as [|x l1 IH]; cbn [foldr app]; lia.
Qed.

Lemma amountSum_filter_agree s s' (P P' : loc -> Prop)
    `{forall x, Decision (P x)} `{forall x, Decision (P' x)} l :
  (forall x, x ∈ l -> Amount (s' x) = Amount (s x) /\ (P' x <-> P x)) ->
  amountSum s' (filter P' l) = amountSum s (filter P l).
Proof.
  induction l as [|x l IH]; intros Hagree; [reflexivity|].
  rewrite !filter_cons.
  destruct (Hagree x) as [Ha HP]; [apply elem_of_cons; by left|].
  assert (IH' : amountSum s' (filter P' l) = amountSum s (filter P l)).
  { apply IH. intros y Hy. apply Hagree, elem_of_cons. by right. }
  destruct (decide (P' x)) as [Hp'|Hp']; destruct (decide (P x)) as [Hp|Hp];
    try tauto; try exact IH'.
  unfold amountSum in *. cbn [foldr]. rewrite Ha, IH'. reflexivity.
Qed.

Lemma creditSum_cons s rc e l :
  creditSum s rc (e :: l)
  = (if decide (EntryType (s e) <> Add /\ removeHeight rc (s e) = 0)
     then Amount (s e) else 0) + creditSum s rc l.
Proof.
  unfold creditSum, newRemovals. rewrite filter_cons.
  destruct (decide _); reflexivity.
Qed.

Lemma freshSum_cons s rc e l :
  freshSum s rc (e :: l)
  = (if decide (addHeight rc (s e) = 0) then Amount (s e) else 0)
    + freshSum s rc l.
Proof.
  unfold freshSum. rewrite filter_cons. destruct (decide _); reflexivity.
Qed.

Lemma creditSum_app s rc l1 l2 :
  creditSum s rc (l1 ++ l2) = creditSum s rc l1 + creditSum s rc l2.
Proof. unfold creditSum, newRemovals. by rewrite filter_app, amountSum_app. Qed.

Lemma freshSum_app s rc l1 l2 :
  freshSum s rc (l1 ++ l2) = freshSum s rc l1 + freshSum s rc l2.
Proof. unfold freshSum. by rewrite filter_app, amountSum_app. Qed.

Lemma amountSum_split s rc l :
  amountSum s l = freshSum s rc l + committedSum s rc l.
Proof.
  unfold freshSum, committedSum.
  induction l as [|x l IH]; [reflexivity|].
  rewrite !filter_cons.
  destruct (decide (addHeight rc (s x) = 0)) as [Hz|Hz];
    destruct (decide (addHeight rc (s x) <> 0)) as [Hn|Hn];
    try tauto; unfold amountSum in *; cbn [foldr]; lia.
Qed.


Lemma sameStatic_refl s : sameStatic s s.
Proof. intros x. done. Qed.

Lemma sameStatic_trans s1 s2 s3 :
  sameStatic s1 s2 -> sameStatic s2 s3 -> sameStatic s1 s3.
Proof.
  intros H12 H23 x. destruct (H12 x) as (? & ? & ?).
  destruct (H23 x) as (? & ? & ?). split_and!; congruence.
Qed.

(** First pass: the balances grow by the Amounts of the removals processed
    for the first time; only remove heights of visited entries change. *)
Lemma removePass_spec index h rc inc entries :
  NoDup entries ->
  forall s skip o t s' skip' o' t',
    removePass index h rc inc entries s skip o t = Some (s', skip', o', t') ->
    eqm64 (o' + t') (o + t + creditSum s rc entries)
    /\ (forall x, x ∉ entries -> s' x = s x)
    /\ sameStatic s s'
    /\ (forall x, addHeight rc (s' x) = addHeight rc (s x)).
Proof.
  induction 1 as [|e rest He Hnd IH]; intros s skip o t s' skip' o' t' Hrun.
  { injection Hrun as <- <- <- <-.
    split_and!; try done; try apply sameStatic_refl.
    unfold creditSum. cbn. apply eqm64_of_eq. lia. }
  cbn [removePass] in Hrun. rewrite creditSum_cons.
  destruct (decide (EntryType (s e) = Add)) as [Ha|Ha].
  - destruct (IH _ _ _ _ _ _ _ _ Hrun) as (Hsum & Hout & Hst & Hadd).
    destruct (decide _) as [[Hn _]|_]; [contradiction|].
    split_and!; try done.
    intros x Hx. apply Hout. intros Hin. apply Hx, elem_of_cons. by right.
  - destruct (index !! ParentIndex (s e)) as [parent|]; [|discriminate].
    pose proof (processRemoveEntry_sum (s e) o t h rc inc Ha) as Hone.
    destruct (processRemoveEntry (s e) o t h rc inc) as [[entry' o1] t1].
    destruct Hone as (Hsum1 & HA & HT & HI & HH).
    destruct (IH _ _ _ _ _ _ _ _ Hrun) as (Hsum & Hout & Hst & Hadd).
    assert (Hagree : forall x, x ∈ rest -> storeSet e entry' s x = s x).
    { intros x Hx. apply storeSet_ne. intros ->. contradiction. }
    assert (Hcredit : creditSum (storeSet e entry' s) rc rest
                      = creditSum s rc rest).
    { unfold creditSum, newRemovals. apply amountSum_filter_agree.
      intros x Hx. by rewrite (Hagree x Hx). }
    rewrite Hcredit in Hsum.
    split_and!.
    + eapply eqm64_trans; [exact Hsum|].
      eapply eqm64_trans;
        [apply eqm64_add; [exact Hsum1 | apply eqm64_refl]|].
      apply eqm64_of_eq.
      destruct (decide (removeHeight rc (s e) = 0));
        destruct (decide (_ /\ _)); try tauto; lia.
    + intros x Hx. rewrite Hout.
      * apply storeSet_ne. intros ->. apply Hx, elem_of_cons. by left.
      * intros Hin. apply Hx, elem_of_cons. by right.
    + eapply sameStatic_trans; [|exact Hst].
      intros x. unfold storeSet. destruct (decide (x = e)) as [->|]; done.
    + intros x. rewrite Hadd. unfold storeSet.
      destruct (decide (x = e)) as [->|]; done.
Qed.

(** Second pass: the balances shrink by the Amounts of the kept entries not
    yet committed; only add heights of visited entries change. *)
Lemma addPass_spec h rc inc skip entries :
  NoDup entries ->
  forall s o t s' kept o' t',
    addPass h rc inc skip entries s o t = (s', kept, o', t') ->
    eqm64 (o' + t' + freshSum s rc kept) (o + t)
    /\ (forall x, x ∈ kept -> x ∈ entries)
    /\ (forall x, x ∉ entries -> s' x = s x)
    /\ sameStatic s s'.
Proof.
  induction 1 as [|e rest He Hnd IH]; intros s o t s' kept o' t' Hrun.
  { injection Hrun as <- <- <- <-.
    split_and!; try done; try apply sameStatic_refl.
    unfold freshSum. cbn. apply eqm64_of_eq. lia. }
  cbn [addPass] in Hrun.
  destruct (_ || _).
  - destruct (IH _ _ _ _ _ _ _ Hrun) as (Hsum & Hsub & Hout & Hst).
    split_and!; try done.
    + intros x Hx. apply elem_of_cons. right. by apply Hsub.
    + intros x Hx. apply Hout. intros Hin. apply Hx, elem_of_cons. by right.
  - pose proof (processAddEntry_sum (s e) o t h rc inc) as Hone.
    destruct (processAddEntry (s e) o t h rc inc) as [[entry' o1] t1].
    destruct Hone as (Hsum1 & HA & HT & HI).
    destruct (addPass h rc inc skip rest (storeSet e entry' s) o1 t1)
      as [[[s1 kept1] o2] t2] eqn:Hrest.
    injection Hrun as <- <- <- <-.
    destruct (IH _ _ _ _ _ _ _ Hrest) as (Hsum & Hsub & Hout & Hst).
    assert (Hfresh : freshSum (storeSet e entry' s) rc kept1
                     = freshSum s rc kept1).
    { unfold freshSum. apply amountSum_filter_agree.
      intros x Hx. rewrite storeSet_ne; [done|].
      intros ->. apply He, Hsub, Hx. }
    rewrite Hfresh in Hsum. rewrite freshSum_cons.
    split_and!.
    + eapply eqm64_trans; [|exact Hsum1].
      eapply eqm64_trans;
        [|apply eqm64_add; [exact Hsum | apply eqm64_refl]].
      apply eqm64_of_eq. lia.
    + intros x Hx. apply elem_of_cons in Hx as [->|Hx];
        apply elem_of_cons; [by left | right; by apply Hsub].
    + intros x Hx. rewrite Hout.
      * apply storeSet_ne. intros ->. apply Hx, elem_of_cons. by left.
      * intros Hin. apply Hx, elem_of_cons. by right.
    + eapply sameStatic_trans; [|exact Hst].
      intros x. unfold storeSet. destruct (decide (x = e)) as [->|]; done.
Qed.

Lemma eqm64_elim a b : eqm64 a b -> exists k, a = b + k * 2 ^ 64.
Proof.
  unfold eqm64. intros Hm.
  exists (a / 2 ^ 64 - b / 2 ^ 64).
  pose proof (Z.div_mod a (2 ^ 64)). pose proof (Z.div_mod b (2 ^ 64)). lia.
Qed.

Lemma eqm64_intro a b k : a = b + k * 2 ^ 64 -> eqm64 a b.
Proof. intros ->. unfold eqm64. apply Z_mod_plus_full. Qed.

(** [evaluateHTLCView]: what the two passes do to the sum of the two
    balances, in terms of the store before the call. *)
Lemma evaluateHTLCView_sum lc view o t h rc filtered o' t' s' :
  NoDup (ourUpdates view ++ theirUpdates view) ->
  evaluateHTLCView lc view o t h rc = Some (filtered, o', t', s') ->
  eqm64 (o' + t'
         + freshSum (store lc) rc
             (ourUpdates filtered ++ theirUpdates filtered))
        (o + t
         + creditSum (store lc) rc (ourUpdates view ++ theirUpdates view))
  /\ sameStatic (store lc) s'
  /\ (forall x, x ∈ ourUpdates filtered ++ theirUpdates filtered ->
                x ∈ ourUpdates view ++ theirUpdates view).
Proof.
  intros Hnd. apply NoDup_app in Hnd as (HndO & Hdisj & HndT).
  unfold evaluateHTLCView.
  destruct (removePass (theirLogIndex lc) _ _ _ _ _ _ _ _)
    as [[[[s1 skipThem] o1] t1]|] eqn:H1a; [|discriminate].
  destruct (removePass (ourLogIndex lc) _ _ _ _ _ _ _ _)
    as [[[[s2 skipUs] o2] t2]|] eqn:H1b; [|discriminate].
  destruct (addPass _ _ false _ _ _ _ _) as [[[s3 keptO] o3] t3] eqn:H2a.
  destruct (addPass _ _ true _ _ _ _ _) as [[[s4 keptT] o4] t4] eqn:H2b.
  intros [= <- <- <- <-]. cbn [ourUpdates theirUpdates].
  destruct (removePass_spec _ _ _ _ _ HndO _ _ _ _ _ _ _ _ H1a)
    as (S1 & out1 & st1 & add1).
  destruct (removePass_spec _ _ _ _ _ HndT _ _ _ _ _ _ _ _ H1b)
    as (S2 & out2 & st2 & add2).
  destruct (addPass_spec _ _ _ _ _ HndO _ _ _ _ _ _ _ H2a)
    as (S3 & sub3 & out3 & st3).
  destruct (addPass_spec _ _ _ _ _ HndT _ _ _ _ _ _ _ H2b)
    as (S4 & sub4 & out4 & st4).
  assert (HcT : creditSum s1 rc (theirUpdates view)
                = creditSum (store lc) rc (theirUpdates view)).
  { unfold creditSum, newRemovals. apply amountSum_filter_agree.
    intros x Hx. rewrite out1; [done|]. intros Hin. by apply (Hdisj x). }
  assert (HfO : freshSum s2 rc keptO = freshSum (store lc) rc keptO).
  { unfold freshSum. apply amountSum_filter_agree. intros x _.
    destruct (st2 x) as (-> & _). destruct (st1 x) as (-> & _).
    by rewrite add2, add1. }
  assert (HfT : freshSum s3 rc keptT = freshSum (store lc) rc keptT).
  { unfold freshSum. apply amountSum_filter_agree. intros x Hx.
    rewrite out3.
    - destruct (st2 x) as (-> & _). destruct (st1 x) as (-> & _).
      by rewrite add2, add1.
    - intros Hin. apply (Hdisj x Hin). by apply sub4. }
  rewrite HcT in S2. rewrite HfO in S3. rewrite HfT in S4.
  split_and!.
  - rewrite freshSum_app, creditSum_app.
    apply eqm64_elim in S1 as [k1 S1]. apply eqm64_elim in S2 as [k2 S2].
    apply eqm64_elim in S3 as [k3 S3]. apply eqm64_elim in S4 as [k4 S4].
    apply (eqm64_intro _ _ (k1 + k2 + k3 + k4)). lia.
  - eapply sameStatic_trans; [exact st1|].
    eapply sameStatic_trans; [exact st2|].
    eapply sameStatic_trans; [exact st3 | exact st4].
  - intros x Hx. apply elem_of_app in Hx as [Hx|Hx]; apply elem_of_app.
    + left. by apply sub3.
    + right. by apply sub4.
Qed.

(** What one call of [fetchCommitmentView] does to the sum, on logs of
    distinct entries: the returned [ourBalance] plus [theirBalance] plus
    the Amounts of the entries of the filtered view is congruent modulo
    2^64 to the chain tip's [ourBalance] plus [theirBalance], plus the
    Amounts of the filtered view's entries already committed on that chain
    (non-zero add height), plus the Amounts of the Settle/Timeout entries
    of the fetched view processed for the first time on that chain (zero
    remove height).  Every removal is credited, whether or not its parent
    Add was debited on this chain before; the total is the capacity only
    when these three terms add up to it.  The Amounts are not changed by
    the call. *)
Theorem commitment_view_balance `{Ext : Externals}
    (lc : LightningChannel) (remoteChain : bool) (ourIdx theirIdx : Z)
    (key hash : bytes) (c : commitment) (lc1 : LightningChannel) :
  NoDup (ourUpdateLog lc ++ theirUpdateLog lc) ->
  fetchCommitmentView lc remoteChain ourIdx theirIdx key hash
  = Return c lc1 ->
  exists t filtered,
    tip (chainOf lc remoteChain) = Some t
    /\ evaluateHTLCView lc (fetchHTLCView lc theirIdx ourIdx)
         (ourBalance t) (theirBalance t) (wrap64 (height t + 1)) remoteChain
       = Some (filtered, ourBalance c, theirBalance c, store lc1)
    /\ let view := fetchHTLCView lc theirIdx ourIdx in
       let kept := ourUpdates filtered ++ theirUpdates filtered in
       let fetched := ourUpdates view ++ theirUpdates view in
       let total := ourBalance c + theirBalance c + amountSum (store lc1) kept in
       let before :=
         ourBalance t + theirBalance t
         + committedSum (store lc) remoteChain kept
         + creditSum (store lc) remoteChain fetched in
       amountSum (store lc1) kept = amountSum (store lc) kept
       /\ eqm64 total before
       /\ (before = Capacity (channelState lc) ->
           eqm64 total (Capacity (channelState lc))
           /\ (- 2 ^ 64 < total - Capacity (channelState lc) < 2 ^ 64 ->
               total = Capacity (channelState lc))).
Proof.
  intros Hnd Hfetch.
  pose proof (fetchCommitmentView_inv lc remoteChain ourIdx theirIdx key hash)
    as Hinv.
  rewrite Hfetch in Hinv.
  destruct Hinv as (t & filtered & s' & Htip & Heval & -> & _).
  exists t, filtered. split; [exact Htip|]. split; [exact Heval|].
  intros view kept fetched total before.
  change (store (set_store s' lc)) with s' in total.
  assert (HndV : NoDup (ourUpdates (fetchHTLCView lc theirIdx ourIdx)
                        ++ theirUpdates (fetchHTLCView lc theirIdx ourIdx))).
  { cbn [fetchHTLCView ourUpdates theirUpdates].
    apply NoDup_app in Hnd as (HndO & Hdisj & HndT).
    apply NoDup_app. split_and!.
    - by apply NoDup_filter.
    - intros x Hx Hx'. apply list_elem_of_filter in Hx as [_ Hx].
      apply list_elem_of_filter in Hx' as [_ Hx']. by apply (Hdisj x).
    - by apply NoDup_filter. }
  destruct (evaluateHTLCView_sum _ _ _ _ _ _ _ _ _ _ HndV Heval)
    as (Hsum & Hst & _).
  assert (Hamt : amountSum s' kept = amountSum (store lc) kept).
  { unfold amountSum. induction kept as [|x l IH]; [reflexivity|].
    cbn [foldr]. destruct (Hst x) as (-> & _). by rewrite IH. }
  assert (Htotal : eqm64 total before).
  { subst total before. rewrite Hamt.
    rewrite (amountSum_split (store lc) remoteChain kept).
    apply eqm64_elim in Hsum as [k Hsum].
    apply (eqm64_intro _ _ k). subst kept fetched view. lia. }
  split; [exact Hamt|]. split; [exact Htotal|].
  intros Hcap. rewrite <- Hcap. split; [exact Htotal|].
  intros Hrange. by apply eqm64_eq.
Qed.

(** The test channel offers an HTLC of 100: the remote view at height 1 has
    balances 400/500 and one pending entry, 1000 in total. *)
Lemma commitment_view_balance_witness :
  exists c lc1 filtered,
    @fetchCommitmentView testExternals testChannelOffering true 1 0
      (NextRevocationKey testExtension) (NextRevocationHash testExtension)
    = Return c lc1
    /\ evaluateHTLCView testChannelOffering
         (fetchHTLCView testChannelOffering 0 1) 500 500 1 true
       = Some (filtered, ourBalance c, theirBalance c, store lc1)
    /\ ourBalance c = 400 /\ theirBalance c = 500
    /\ ourBalance c + theirBalance c
       + amountSum (store lc1)
           (ourUpdates filtered ++ theirUpdates filtered)
       = Capacity (channelState testChannelOffering).
Proof.
  destruct (@fetchCommitmentView testExternals testChannelOffering true 1 0
              (NextRevocationKey testExtension)
              (NextRevocationHash testExtension))
    as [c lc1| |] eqn:Hfetch; [|exfalso; vm_compute in Hfetch; discriminate..].
  assert (Hnd : NoDup (ourUpdateLog testChannelOffering
                       ++ theirUpdateLog testChannelOffering)).
  { assert (Hl : ourUpdateLog testChannelOffering
                 ++ theirUpdateLog testChannelOffering = [O])
      by (vm_compute; reflexivity).
    rewrite Hl. apply NoDup_singleton. }
  destruct (@commitment_view_balance testExternals _ _ _ _ _ _ _ _ Hnd Hfetch)
    as (t & filtered & Htip & Heval & _ & _ & Hcap).
  assert (Ht : t = mkCommitment 0 0 0 None [] 500 500).
  { vm_compute in Htip. by injection Htip as <-. }
  subst t.
  exists c, lc1, filtered. split; [reflexivity|].
  split; [exact Heval|].
  vm_compute in Hfetch. injection Hfetch as <- <-.
  vm_compute in Heval. injection Heval as <-.
  split; [reflexivity|]. split; [reflexivity|].
  vm_compute. reflexivity.
Defined.

(** C1.  The code does not keep the balance on this input: the test
    channel (500/500, capacity 1000) receives an HTLC of 100 and settles
    it before any commitment includes it.  The settled balances are
    500 + 500 = capacity, yet the view [SignNextCommitment] builds for the
    remote chain has balances 600/500 and an empty filtered view, 1100 in
    total: [evaluateHTLCView] credits the Settle entry and skips its
    parent Add, which was never debited on this chain. *)
Lemma commitment_view_balance_broken :
  exists c lc1 filtered sig lc',
    OurBalance (channelState testChannelEarlySettle)
    + TheirBalance (channelState testChannelEarlySettle)
    = Capacity (channelState testChannelEarlySettle)
    /\ @fetchCommitmentView testExternals testChannelEarlySettle true
         (ourLogCounter testChannelEarlySettle)
         (theirLogCounter testChannelEarlySettle)
         (NextRevocationKey testExtension) (NextRevocationHash testExtension)
       = Return c lc1
    /\ evaluateHTLCView testChannelEarlySettle
         (fetchHTLCView testChannelEarlySettle
            (theirLogCounter testChannelEarlySettle)
            (ourLogCounter testChannelEarlySettle)) 500 500 1 true
       = Some (filtered, ourBalance c, theirBalance c, store lc1)
    /\ @SignNextCommitment testExternals testChannelEarlySettle
       = Return (sig, 1) lc'
    /\ tip (remoteCommitChain lc') = Some c
    /\ ourBalance c + theirBalance c
       + amountSum (store lc1)
           (ourUpdates filtered ++ theirUpdates filtered) = 1100
    /\ Capacity (channelState testChannelEarlySettle) = 1000.
Proof.
  eexists _, _, _, _, _.
  split; [vm_compute; reflexivity|].
  split; [vm_compute; reflexivity|].
  split; [vm_compute; reflexivity|].
  split; [vm_compute; reflexivity|].
  split; [vm_compute; reflexivity|].
  split; vm_compute; reflexivity.
Qed.

(** The sibling path keeps the balance.  When the received HTLC is
    committed before it is settled, the commitment that includes the Add
    debits it (500/400 with 100 pending) and the commitment that includes
    the Settle credits it back (600/400 with nothing pending): 1000 in
    total both times. *)
Lemma commitment_view_balance_sibling :
  exists sig lc' c,
    (fun c => (ourBalance c, theirBalance c))
      <$> commitments (remoteCommitChain
                         (testRun (take 8 testSettleRoundTrip)))
    = [(500, 400)]
    /\ @SignNextCommitment testExternals
         (testRun (take 8 testSettleRoundTrip)) = Return (sig, 1) lc'
    /\ tip (remoteCommitChain lc') = Some c
    /\ ourBalance c = 600 /\ theirBalance c = 400
    /\ Capacity (channelState (testRun (take 8 testSettleRoundTrip))) = 1000.
Proof.
  eexists _, _, _.
  split; [vm_compute; reflexivity|].
  split; [vm_compute; reflexivity|].
  split; [vm_compute; reflexivity|].
  split; [vm_compute; reflexivity|].
  split; vm_compute; reflexivity.
Qed.
(** ** Adding and settling HTLCs *)

(** Projections of the channel record out of the setters. *)
Ltac fields :=
  cbn [alloc set_ourLog set_theirLog set_store set_status set_currentHeight
       set_revocationWindowEdge set_revocations set_remoteCommitChain
       set_localCommitChain set_channelState set_fundingTxIn
       ourLogCounter theirLogCounter status currentHeight
       revocationWindowEdge usedRevocations revocationWindow
       remoteCommitChain localCommitChain channelState ourUpdateLog
       theirUpdateLog ourLogIndex theirLogIndex fundingTxIn fundingP2WSH
       store nextLoc Index].

Section Htlc.
Context `{Ext : Externals}.

(** The converse of [findTargetHTLC_first]: the entry the search returns is
    the first settle candidate of the log. *)
Lemma findTargetHTLC_Some s paymentHash entries e :
  findTargetHTLC s paymentHash entries = Some e ->
  exists pre post,
    entries = pre ++ e :: post
    /\ Forall (fun x => ~ settleCandidate s paymentHash x) pre
    /\ settleCandidate s paymentHash e.
Proof.
  induction entries as [|x entries IH]; simpl; [discriminate|].
  destruct (decide (EntryType (s x) <> Add)) as [Hne|Hadd].
  - intros Hfind. destruct (IH Hfind) as (pre & post & -> & Hpre & Hcand).
    exists (x :: pre), post. split_and!; [reflexivity | | exact Hcand].
    constructor; [|exact Hpre]. intros (Ht & _). contradiction.
  - destruct (settled (s x)) eqn:Hsx; simpl.
    + intros Hfind. destruct (IH Hfind) as (pre & post & -> & Hpre & Hcand).
      exists (x :: pre), post. split_and!; [reflexivity | | exact Hcand].
      constructor; [|exact Hpre]. intros (_ & Hs & _). congruence.
    + case_bool_decide as Hh.
      * intros [= <-]. exists [], entries. split_and!; [reflexivity | constructor |].
        split_and!; [|exact Hsx|exact Hh].
        destruct (decide (EntryType (s x) = Add)); [assumption|contradiction].
      * intros Hfind. destruct (IH Hfind) as (pre & post & -> & Hpre & Hcand).
        exists (x :: pre), post. split_and!; [reflexivity | | exact Hcand].
        constructor; [|exact Hpre]. intros (_ & _ & Hh'). contradiction.
Qed.

(** X1.  [AddHTLC] returns the value of our log counter, appends the new Add
    entry to our log and records it in our index under the returned index.
    [ReceiveHTLCSettle] called with that index then succeeds exactly for a
    pre-image whose hash is the request's first redemption hash: it appends
    to their log a Settle entry with the request's amount whose ParentIndex
    is the returned index; for any other pre-image it fails with the
    invalid-payment-hash error and changes nothing. *)
Theorem add_htlc_then_remote_settle
    (lc : LightningChannel) (htlc : HTLCAddRequest)
    (rhash : bytes) (rest : list bytes) (preimage : bytes) :
  RedemptionHashes htlc = rhash :: rest ->
  exists lc1,
    AddHTLC lc htlc = Return (ourLogCounter lc) lc1
    /\ ourLogCounter lc1 = wrap32 (ourLogCounter lc + 1)
    /\ ourUpdateLog lc1 = ourUpdateLog lc ++ [nextLoc lc]
    /\ ourLogIndex lc1 !! ourLogCounter lc = Some (nextLoc lc)
    /\ store lc1 (nextLoc lc)
       = mkPD rhash (Expiry htlc) (reqAmount htlc) (ourLogCounter lc) 0 []
              Add 0 0 0 0 false false
    /\ (sha256 preimage = rhash ->
        exists lc2,
          ReceiveHTLCSettle lc1 preimage (ourLogCounter lc) = Return tt lc2
          /\ theirUpdateLog lc2 = theirUpdateLog lc ++ [S (nextLoc lc)]
          /\ store lc2 (S (nextLoc lc))
             = mkPD [] 0 (reqAmount htlc) (theirLogCounter lc)
                    (ourLogCounter lc) [] Settle 0 0 0 0 false false
          /\ theirLogCounter lc2 = wrap32 (theirLogCounter lc + 1))
    /\ (sha256 preimage <> rhash ->
        ReceiveHTLCSettle lc1 preimage (ourLogCounter lc)
        = Fail ErrInvalidPaymentHash lc1).
Proof.
  intros Hh. unfold AddHTLC. rewrite Hh.
  fields.
  eexists. split; [reflexivity|].
  fields.
  split_and!; try reflexivity.
  - apply lookup_insert_eq.
  - apply storeSet_eq.
  - intros Hpre. unfold ReceiveHTLCSettle.
    fields.
    rewrite lookup_insert_eq, storeSet_eq. cbn [RHash Amount Index].
    destruct (decide (rhash <> sha256 preimage)) as [Hne|_];
      [by rewrite Hpre in Hne|].
    fields.
    eexists. split; [reflexivity|].
    fields.
    split_and!; try reflexivity. apply storeSet_eq.
  - intros Hpre. unfold ReceiveHTLCSettle.
    fields.
    rewrite lookup_insert_eq, storeSet_eq. cbn [RHash].
    destruct (decide (rhash <> sha256 preimage)) as [_|Heq]; [reflexivity|].
    exfalso. apply Hpre. symmetry.
    destruct (decide (rhash = sha256 preimage)); [assumption|contradiction].
Qed.

(** X2.  The three outcomes of [ReceiveHTLCSettle]: an index that is not in
    our index map gives the non-existent-entry error, an entry with another
    payment hash gives the invalid-payment-hash error, both without any
    change; otherwise a Settle entry is appended to their log under their
    log counter, and nothing else is written: our log, both index maps and
    every descriptor allocated before stay as they were, so the settled Add
    entry itself is not marked. *)
Theorem receive_htlc_settle_contract
    (lc : LightningChannel) (preimage : bytes) (logIndex : Z) :
  (ourLogIndex lc !! logIndex = None ->
   ReceiveHTLCSettle lc preimage logIndex = Fail ErrNonExistentLogEntry lc)
  /\ (forall e,
        ourLogIndex lc !! logIndex = Some e ->
        RHash (store lc e) <> sha256 preimage ->
        ReceiveHTLCSettle lc preimage logIndex
        = Fail ErrInvalidPaymentHash lc)
  /\ (forall e,
        ourLogIndex lc !! logIndex = Some e ->
        RHash (store lc e) = sha256 preimage ->
        exists lc',
          ReceiveHTLCSettle lc preimage logIndex = Return tt lc'
          /\ theirUpdateLog lc' = theirUpdateLog lc ++ [nextLoc lc]
          /\ store lc' (nextLoc lc)
             = mkPD [] 0 (Amount (store lc e)) (theirLogCounter lc)
                    (Index (store lc e)) [] Settle 0 0 0 0 false false
          /\ theirLogCounter lc' = wrap32 (theirLogCounter lc + 1)
          /\ ourUpdateLog lc' = ourUpdateLog lc
          /\ ourLogCounter lc' = ourLogCounter lc
          /\ ourLogIndex lc' = ourLogIndex lc
          /\ theirLogIndex lc' = theirLogIndex lc
          /\ (forall l, l <> nextLoc lc -> store lc' l = store lc l)).
Proof.
  split_and!.
  - intros Hnone. unfold ReceiveHTLCSettle. by rewrite Hnone.
  - intros e He Hne. unfold ReceiveHTLCSettle. rewrite He.
    destruct (decide (RHash (store lc e) <> sha256 preimage));
      [reflexivity|contradiction].
  - intros e He Heq. unfold ReceiveHTLCSettle. rewrite He.
    destruct (decide (RHash (store lc e) <> sha256 preimage));
      [contradiction|].
    fields.
    eexists. split; [reflexivity|].
    fields.
    split_and!; try reflexivity.
    + apply storeSet_eq.
    + intros l Hl. by apply storeSet_ne.
Qed.

(** X3.  [ReceiveHTLCSettle] keeps no record of the settlement on the Add
    entry: after a successful call the same call succeeds again and appends
    a second Settle entry with the same parent and the same amount. *)
Theorem receive_htlc_settle_repeatable
    (lc lc1 : LightningChannel) (preimage : bytes) (logIndex : Z) :
  (forall k e, ourLogIndex lc !! k = Some e -> (e < nextLoc lc)%nat) ->
  ReceiveHTLCSettle lc preimage logIndex = Return tt lc1 ->
  exists lc2,
    ReceiveHTLCSettle lc1 preimage logIndex = Return tt lc2
    /\ theirUpdateLog lc2
       = theirUpdateLog lc ++ [nextLoc lc; S (nextLoc lc)]
    /\ EntryType (store lc2 (nextLoc lc)) = Settle
    /\ EntryType (store lc2 (S (nextLoc lc))) = Settle
    /\ ParentIndex (store lc2 (S (nextLoc lc)))
       = ParentIndex (store lc2 (nextLoc lc))
    /\ Amount (store lc2 (S (nextLoc lc))) = Amount (store lc2 (nextLoc lc)).
Proof.
  intros Halloc. unfold ReceiveHTLCSettle at 1.
  destruct (ourLogIndex lc !! logIndex) as [e|] eqn:He; [|discriminate].
  destruct (decide (RHash (store lc e) <> sha256 preimage)) as [|Heq];
    [discriminate|].
  fields.
  intros [= <-].
  assert (Hfresh : e <> nextLoc lc) by (specialize (Halloc _ _ He); lia).
  unfold ReceiveHTLCSettle.
  fields.
  rewrite He, (storeSet_ne _ _ _ _ Hfresh).
  destruct (decide (RHash (store lc e) <> sha256 preimage));
    [contradiction|].
  fields.
  eexists. split; [reflexivity|].
  fields.
  rewrite storeSet_eq, storeSet_ne, storeSet_eq by lia.
  rewrite <- app_assoc. repeat split.
Qed.

(** What a successful [SettleHTLC] did, in terms of the search result. *)
Lemma SettleHTLC_inv (lc lc1 : LightningChannel) (preimage : bytes) (idx : Z) :
  logsAllocated lc ->
  SettleHTLC lc preimage = Return idx lc1 ->
  exists e,
    e ∈ theirUpdateLog lc
    /\ settleCandidate (store lc) (sha256 preimage) e
    /\ idx = Index (store lc e)
    /\ theirUpdateLog lc1 = theirUpdateLog lc
    /\ store lc1 e = set_settled true (store lc e)
    /\ (forall x, x ∈ theirUpdateLog lc -> x <> e -> store lc1 x = store lc x)
    /\ logsAllocated lc1.
Proof.
  intros Halloc. unfold SettleHTLC.
  destruct (findTargetHTLC _ _ _) as [e|] eqn:Hfind; [|discriminate].
  destruct (findTargetHTLC_Some _ _ _ _ Hfind)
    as (pre & post & Hlog & Hpre & Hcand).
  assert (Hin : e ∈ theirUpdateLog lc).
  { rewrite Hlog. apply elem_of_app. right. apply elem_of_cons. by left. }
  unfold logsAllocated in Halloc. rewrite Forall_app in Halloc.
  destruct Halloc as [Hours Htheirs].
  assert (Hold : forall x, x ∈ theirUpdateLog lc -> x <> nextLoc lc).
  { intros x Hx. rewrite Forall_forall in Htheirs.
    specialize (Htheirs x Hx). lia. }
  fields. intros [= <- <-]. exists e. fields.
  rewrite !(storeSet_ne _ _ _ e (Hold e Hin)), !storeSet_eq.
  split_and!; try done.
  - intros x Hx Hne. by rewrite (storeSet_ne _ _ _ x (Hold x Hx)), storeSet_ne.
  - unfold logsAllocated. fields. rewrite !Forall_app. split_and!.
    + eapply Forall_impl; [exact Hours|]. simpl. lia.
    + repeat constructor.
    + eapply Forall_impl; [exact Htheirs|]. simpl. lia.
Qed.

(** X4.  [SettleHTLC] marks the entry it settles, and only that entry, so a
    later call with the same pre-image cannot pick it again: if the later
    call succeeds, it has settled a different entry of their log that
    carried the same payment hash. *)
Theorem settle_htlc_at_most_once
    (lc lc1 : LightningChannel) (preimage : bytes) (idx : Z) :
  logsAllocated lc ->
  SettleHTLC lc preimage = Return idx lc1 ->
  exists e,
    e ∈ theirUpdateLog lc
    /\ settleCandidate (store lc) (sha256 preimage) e
    /\ idx = Index (store lc e)
    /\ settled (store lc1 e) = true
    /\ theirUpdateLog lc1 = theirUpdateLog lc
    /\ (forall x, x ∈ theirUpdateLog lc -> x <> e -> store lc1 x = store lc x)
    /\ (forall idx2 lc2,
          SettleHTLC lc1 preimage = Return idx2 lc2 ->
          exists e2,
            e2 ∈ theirUpdateLog lc /\ e2 <> e
            /\ settleCandidate (store lc) (sha256 preimage) e2
            /\ idx2 = Index (store lc e2)).
Proof.
  intros Halloc Hret.
  destruct (SettleHTLC_inv _ _ _ _ Halloc Hret)
    as (e & Hin & Hcand & -> & Hlog1 & Hset & Hother & Halloc1).
  exists e. split_and!; try done.
  - by rewrite Hset.
  - intros idx2 lc2 Hret2.
    destruct (SettleHTLC_inv _ _ _ _ Halloc1 Hret2)
      as (e2 & Hin2 & Hcand2 & -> & _).
    rewrite Hlog1 in Hin2.
    assert (Hne : e2 <> e).
    { intros ->. destruct Hcand2 as (_ & Hs & _).
      rewrite Hset in Hs. discriminate. }
    exists e2. unfold settleCandidate in Hcand2.
    rewrite (Hother e2 Hin2 Hne) in Hcand2.
    split_and!; try done. by rewrite (Hother e2 Hin2 Hne).
Qed.

(** X5.  [ReceiveHTLC] returns the value of their log counter and records
    the new Add entry in their log and their index.  If no entry of their
    log was waiting for the same payment hash, [SettleHTLC] with a matching
    pre-image then settles exactly this entry: it returns the index
    [ReceiveHTLC] returned and appends to our log a Settle entry for the
    request's amount. *)
Theorem receive_htlc_then_settle
    (lc : LightningChannel) (htlc : HTLCAddRequest)
    (rhash : bytes) (rest : list bytes) (preimage : bytes) :
  logsAllocated lc ->
  RedemptionHashes htlc = rhash :: rest ->
  sha256 preimage = rhash ->
  Forall (fun x => ~ settleCandidate (store lc) rhash x) (theirUpdateLog lc) ->
  exists lc1 lc2,
    ReceiveHTLC lc htlc = Return (theirLogCounter lc) lc1
    /\ theirUpdateLog lc1 = theirUpdateLog lc ++ [nextLoc lc]
    /\ theirLogIndex lc1 !! theirLogCounter lc = Some (nextLoc lc)
    /\ theirLogCounter lc1 = wrap32 (theirLogCounter lc + 1)
    /\ SettleHTLC lc1 preimage = Return (theirLogCounter lc) lc2
    /\ settled (store lc2 (nextLoc lc)) = true
    /\ ourUpdateLog lc2 = ourUpdateLog lc ++ [S (nextLoc lc)]
    /\ store lc2 (S (nextLoc lc))
       = mkPD [] 0 (reqAmount htlc) (ourLogCounter lc) (theirLogCounter lc)
              [] Settle 0 0 0 0 false false.
Proof.
  intros Halloc Hh Hpre Hnone. unfold ReceiveHTLC. rewrite Hh.
  fields.
  eexists. eexists. split; [reflexivity|].
  fields.
  split; [reflexivity|]. split; [apply lookup_insert_eq|].
  split; [reflexivity|]. split.
  - unfold SettleHTLC. fields. rewrite Hpre.
    rewrite (findTargetHTLC_first _ rhash (theirUpdateLog lc) (nextLoc lc) []).
    + fields.
      rewrite storeSet_ne by lia. rewrite !storeSet_eq. reflexivity.
    + unfold logsAllocated in Halloc. rewrite Forall_app in Halloc.
      destruct Halloc as [_ Htheirs].
      rewrite Forall_forall in Htheirs, Hnone. apply Forall_forall.
      intros x Hx. unfold settleCandidate.
      rewrite storeSet_ne by (specialize (Htheirs x Hx); lia).
      exact (Hnone x Hx).
    + unfold settleCandidate. rewrite storeSet_eq. repeat split.
  - fields. rewrite !storeSet_eq.
    rewrite storeSet_ne by lia. rewrite !storeSet_eq.
    split_and!; reflexivity.
Qed.

End Htlc.
(** ** What the operations leave alone *)

Section Frames.
Context `{Ext : Externals}.

Ltac split_matches :=
  repeat match goal with
    | |- context [match ?x with _ => _ end] => destruct x eqn:?
    end.

Ltac framed :=
  split_matches; cbn [after]; intros Hafter;
  first [discriminate Hafter
        | injection Hafter as <-; repeat split; reflexivity].

Lemma compactLogs_frame lc lt rt lc' :
  compactLogs lc lt rt = Some lc' ->
  exists l1 i1 l2 i2,
    lc' = set_theirLog (theirLogCounter lc) l2 i2
            (set_ourLog (ourLogCounter lc) l1 i1 lc).
Proof.
  unfold compactLogs.
  destruct (compactLog _ _ _ _ _ _ _ _) as [[[[a b] c] d]|]; [|discriminate].
  destruct (compactLog _ _ _ _ _ _ _ _) as [[[[a' b'] c'] d']|];
    [|discriminate].
  intros [= <-]. eauto.
Qed.

Lemma SignNextCommitment_frame lc lc' :
  after (SignNextCommitment lc) = Some lc' ->
  status lc' = status lc /\ localState lc' = localState lc.
Proof.
  pose proof (SignNextCommitment_inv lc) as Hinv.
  destruct (SignNextCommitment lc) as [[sig idx] lc1|e lc1|];
    [| |discriminate]; cbn [after]; intros [= <-].
  - destruct Hinv as (r & w & t & c & lc2 & tx & _ & _ & _ & _
                      & [s' ->] & _ & _ & _ & _ & _ & _ & ->). done.
  - destruct Hinv as [(_ & -> & _)|[_ [s' ->]]]; done.
Qed.

Lemma ReceiveRevocation_frame lc revMsg lc' :
  after (ReceiveRevocation lc revMsg) = Some lc' ->
  status lc' = status lc /\ localState lc' = localState lc.
Proof.
  unfold ReceiveRevocation.
  destruct (decide (zeroHash = Revocation revMsg)); [cbn; by intros [= <-]|].
  destruct (elkremAddNext _ _) as [remoteElkrem|]; [|cbn; by intros [= <-]].
  destruct (decide _); [cbn; by intros [= <-]|].
  destruct (_ && _); [cbn; by intros [= <-]|].
  cbn [usedRevocations set_channelState].
  destruct (usedRevocations lc) as [|r used']; [discriminate|].
  cbn [remoteCommitChain set_revocations set_channelState].
  destruct (tail (remoteCommitChain lc)); [|discriminate].
  destruct (negb _); [cbn; by intros [= <-]|].
  destruct (advanceTail (remoteCommitChain lc)) as [chain'|]; [|discriminate].
  cbn [remoteCommitChain localCommitChain set_remoteCommitChain
       set_revocations set_channelState].
  destruct (tail chain'); [|discriminate].
  destruct (tail (localCommitChain lc)); [|discriminate].
  destruct (forwardPass _ _ _ _) as [s' fwd].
  destruct (compactLogs _ _ _) as [lc5|] eqn:Hcompact; [|discriminate].
  cbn [after]. intros [= <-].
  apply compactLogs_frame in Hcompact as (l1 & i1 & l2 & i2 & ->). done.
Qed.

Lemma ExtendRevocationWindow_frame lc lc' :
  after (ExtendRevocationWindow lc) = Some lc' ->
  status lc' = status lc /\ localState lc' = localState lc.
Proof. unfold ExtendRevocationWindow. framed. Qed.

Lemma AddHTLC_frame lc htlc lc' :
  after (AddHTLC lc htlc) = Some lc' ->
  status lc' = status lc /\ localState lc' = localState lc
  /\ remoteCommitChain lc' = remoteCommitChain lc.
Proof. unfold AddHTLC, alloc. framed. Qed.

Lemma ReceiveHTLC_frame lc htlc lc' :
  after (ReceiveHTLC lc htlc) = Some lc' ->
  status lc' = status lc /\ localState lc' = localState lc
  /\ remoteCommitChain lc' = remoteCommitChain lc.
Proof. unfold ReceiveHTLC, alloc. framed. Qed.

Lemma SettleHTLC_frame lc preimage lc' :
  after (SettleHTLC lc preimage) = Some lc' ->
  status lc' = status lc /\ localState lc' = localState lc
  /\ remoteCommitChain lc' = remoteCommitChain lc.
Proof. unfold SettleHTLC, alloc. framed. Qed.

Lemma ReceiveHTLCSettle_frame lc preimage i lc' :
  after (ReceiveHTLCSettle lc preimage i) = Some lc' ->
  status lc' = status lc /\ localState lc' = localState lc
  /\ remoteCommitChain lc' = remoteCommitChain lc.
Proof. unfold ReceiveHTLCSettle, alloc. framed. Qed.

Lemma InitCooperativeClose_frame lc lc' :
  after (InitCooperativeClose lc) = Some lc' ->
  closeStarted lc' /\ localState lc' = localState lc.
Proof.
  unfold InitCooperativeClose, closeStarted.
  case_bool_decide as H1; [cbn; intros [= <-]; auto|].
  case_bool_decide as H2; [cbn; intros [= <-]; auto|].
  cbn [orb]. split_matches; cbn [after]; intros Hafter;
    first [discriminate Hafter | injection Hafter as <-; auto].
Qed.

(** The write of the witness keeps the status, the heights and the
    balances; the transactions of the chains see it. *)
Lemma writeFundingTxIn_frame old new lc :
  status (writeFundingTxIn old new lc) = status lc
  /\ localState (writeFundingTxIn old new lc)
     = (currentHeight lc, shareTxInChain old new (localCommitChain lc),
        OurBalance (channelState lc), TheirBalance (channelState lc))
  /\ logSide (writeFundingTxIn old new lc) = logSide lc
  /\ store (writeFundingTxIn old new lc) = store lc.
Proof.
  unfold writeFundingTxIn, localState, logSide.
  destruct (decide (ourCommitTxOfTail lc)); done.
Qed.

(** [CompleteCooperativeClose] leaves the channel closing or closed; the
    local side is as before, up to the witness in the transactions of the
    local chain. *)
Lemma CompleteCooperativeClose_frame lc remoteSig lc' :
  after (CompleteCooperativeClose lc remoteSig) = Some lc' ->
  closeStarted lc'
  /\ (localState lc' = localState lc
      \/ exists old new,
           localState lc'
           = (currentHeight lc, shareTxInChain old new (localCommitChain lc),
              OurBalance (channelState lc), TheirBalance (channelState lc))).
Proof.
  intros Hafter. split.
  - revert Hafter. unfold CompleteCooperativeClose, closeStarted.
    case_bool_decide as H1; [cbn; intros [= <-]; auto|].
    case_bool_decide as H2; [cbn; intros [= <-]; auto|].
    cbn [orb]. split_matches; cbn [after]; intros Hafter;
      first [discriminate Hafter | injection Hafter as <-; auto].
    all: right; by rewrite (proj1 (writeFundingTxIn_frame _ _ _)).
  - apply CompleteCooperativeClose_after in Hafter
      as [->|[->|(old & new & ->)]]; [by left..|].
    right. exists old, new.
    by rewrite (proj1 (proj2 (writeFundingTxIn_frame _ _ _))).
Qed.

(** [ReceiveNewCommitment] leaves the local side alone or appends one
    commitment, one above the tip, to the local chain. *)
Lemma ReceiveNewCommitment_frame lc rawSig i lc' :
  after (ReceiveNewCommitment lc rawSig i) = Some lc' ->
  status lc' = status lc
  /\ currentHeight lc' = currentHeight lc
  /\ channelState lc' = channelState lc
  /\ (localCommitChain lc' = localCommitChain lc
      \/ exists t c,
           tip (localCommitChain lc) = Some t
           /\ height c = wrap64 (height t + 1)
           /\ localCommitChain lc' = addCommitment c (localCommitChain lc)).
Proof.
  unfold ReceiveNewCommitment.
  destruct (elkremAtIndex _ _) as [revocation|];
    [|cbn; intros [= <-]; auto].
  pose proof (fetchCommitmentView_inv lc false i (theirLogCounter lc)
                (deriveRevocationPubkey (TheirCommitKey (channelState lc))
                                        revocation)
                (sha256 revocation)) as Hinv.
  destruct (fetchCommitmentView _ _ _ _ _ _) as [c lc1|e lc1|];
    [|destruct Hinv as [_ [s' ->]]; cbn; intros [= <-]; auto|discriminate].
  destruct Hinv as (t & filtered & s' & Htip & _ & -> & Hh & _).
  destruct (txn c); [|discriminate].
  destruct (CalcWitnessSigHash _ _ _ _); [|cbn; intros [= <-]; auto].
  destruct (ParseSignature rawSig); [|cbn; intros [= <-]; auto].
  destruct (negb _); cbn; intros [= <-]; [auto|].
  split_and!; try reflexivity. right. eexists t, _.
  split_and!; [exact Htip | | reflexivity]. exact Hh.
Qed.

(** [RevokeCurrentCommitment] leaves the local side alone (when the elkrem
    sender fails) or drops the oldest local commitment and makes the next
    one the current state. *)
Lemma RevokeCurrentCommitment_frame lc lc' :
  after (RevokeCurrentCommitment lc) = Some lc' ->
  status lc' = status lc
  /\ (localState lc' = localState lc
      \/ exists old new rest,
           commitments (localCommitChain lc) = old :: new :: rest
           /\ commitments (localCommitChain lc') = new :: rest
           /\ currentHeight lc' = wrap64 (currentHeight lc + 1)
           /\ OurBalance (channelState lc') = ourBalance new
           /\ TheirBalance (channelState lc') = theirBalance new).
Proof.
  unfold RevokeCurrentCommitment.
  destruct (elkremAtIndex _ _) as [cur|]; [|cbn; intros [= <-]; auto].
  cbn [channelState set_revocationWindowEdge revocationWindowEdge].
  destruct (elkremAtIndex _ _) as [edge|]; [|cbn; intros [= <-]; auto].
  cbn [localCommitChain set_revocationWindowEdge].
  unfold advanceTail.
  destruct (commitments (localCommitChain lc)) as [|old rest] eqn:Hchain;
    [discriminate|].
  cbn [localCommitChain set_localCommitChain set_currentHeight tail
       commitments].
  destruct rest as [|new rest]; [discriminate|]. cbn [head].
  assert (Hright : forall lc1,
            status lc1 = status lc ->
            commitments (localCommitChain lc1) = new :: rest ->
            currentHeight lc1 = wrap64 (currentHeight lc + 1) ->
            OurBalance (channelState lc1) = ourBalance new ->
            TheirBalance (channelState lc1) = theirBalance new ->
            after (if negb (FullSync (channelState lc1))
                   then Fail (ErrExt DbError) lc1
                   else Return
                          (mkCommitRevocation (ChanID (channelState lc1))
                             cur (deriveRevocationPubkey
                                    (TheirCommitKey (channelState lc)) edge)
                             (sha256 edge)) lc1) = Some lc' ->
            status lc' = status lc
            /\ (localState lc' = localState lc
                \/ exists old0 new0 rest0,
                     old :: new :: rest = old0 :: new0 :: rest0
                     /\ commitments (localCommitChain lc') = new0 :: rest0
                     /\ currentHeight lc' = wrap64 (currentHeight lc + 1)
                     /\ OurBalance (channelState lc') = ourBalance new0
                     /\ TheirBalance (channelState lc') = theirBalance new0)).
  { intros lc1 H1 H2 H3 H4 H5.
    destruct (negb _); cbn; intros [= <-]; (split; [exact H1|]); right;
      exists old, new, rest; done. }
  apply Hright; reflexivity.
Qed.

End Frames.
(** ** The local chain and the status over runs *)

Section LocalChain.
Context `{Ext : Externals}.

Lemma localInvariant_frame lc lc' :
  localState lc' = localState lc -> localInvariant lc -> localInvariant lc'.
Proof.
  unfold localState, localInvariant. intros [= Hh Hc Ho Ht].
  rewrite Hh, Hc, Ho, Ht. done.
Qed.

Lemma tail_shareTxIn old new l :
  tail (shareTxInChain old new l) = shareTxInCommitment old new <$> tail l.
Proof.
  unfold tail, shareTxInChain. cbn [commitments].
  by destruct (commitments l).
Qed.

Lemma localInvariant_shareTxIn old new lc lc' :
  localState lc'
  = (currentHeight lc, shareTxInChain old new (localCommitChain lc),
     OurBalance (channelState lc), TheirBalance (channelState lc)) ->
  localInvariant lc -> localInvariant lc'.
Proof.
  unfold localState, localInvariant.
  intros [= Hh Hc Ho Ht] (Hcont & t & Htail & Hht & Hob & Htb).
  rewrite Hh, Hc, Ho, Ht. split.
  - cbn [shareTxInChain commitments]. by apply contiguous_shareTxIn.
  - exists (shareTxInCommitment old new t).
    rewrite tail_shareTxIn, Htail. done.
Qed.

Lemma tail_snoc l c t :
  tail l = Some t -> tail (addCommitment c l) = Some t.
Proof.
  unfold tail, addCommitment. cbn [commitments].
  destruct (commitments l); [discriminate|]. done.
Qed.

Lemma step_localInvariant lc op lc' :
  localInvariant lc -> step lc op = Some lc' -> localInvariant lc'.
Proof.
  intros Hinv. destruct op; cbn [step]; intros Hstep.
  - apply SignNextCommitment_frame in Hstep as [_ Hl].
    by apply (localInvariant_frame lc).
  - apply ReceiveNewCommitment_frame in Hstep as (_ & Hh & Hcs & Hchain).
    destruct Hinv as (Hcont & t & Htail & Hht & Hob & Htb).
    unfold localInvariant. rewrite Hh, Hcs.
    destruct Hchain as [-> | (tp & c & Htip & Hc & ->)].
    { split; [exact Hcont|]. exists t. by split_and!. }
    split.
    + cbn [addCommitment commitments].
      by apply (contiguous_snoc _ tp).
    + exists t. split_and!; try done. by apply tail_snoc.
  - apply RevokeCurrentCommitment_frame in Hstep as [_ Hl].
    destruct Hl as [Hl | (old & new & rest & Hchain & Hchain' & Hh & Ho & Ht)].
    + by apply (localInvariant_frame lc).
    + destruct Hinv as (Hcont & t & Htail & Hht & _).
      unfold localInvariant, tail. rewrite Hchain'.
      unfold tail in Htail. rewrite Hchain in Htail, Hcont.
      injection Htail as <-. destruct Hcont as [Hnew Hcont].
      split; [exact Hcont|]. exists new. cbn [head].
      split_and!; try done. by rewrite Hh, Hnew, Hht.
  - apply ReceiveRevocation_frame in Hstep as [_ Hl].
    by apply (localInvariant_frame lc).
  - apply ExtendRevocationWindow_frame in Hstep as [_ Hl].
    by apply (localInvariant_frame lc).
  - apply AddHTLC_frame in Hstep as (_ & Hl & _).
    by apply (localInvariant_frame lc).
  - apply ReceiveHTLC_frame in Hstep as (_ & Hl & _).
    by apply (localInvariant_frame lc).
  - apply SettleHTLC_frame in Hstep as (_ & Hl & _).
    by apply (localInvariant_frame lc).
  - apply ReceiveHTLCSettle_frame in Hstep as (_ & Hl & _).
    by apply (localInvariant_frame lc).
  - apply InitCooperativeClose_frame in Hstep as [_ Hl].
    by apply (localInvariant_frame lc).
  - apply CompleteCooperativeClose_frame in Hstep as [_ [Hl|(old & new & Hl)]].
    + by apply (localInvariant_frame lc).
    + by apply (localInvariant_shareTxIn old new lc).
Qed.

(** X6.  In every state a run of operations reaches from a channel made by
    [NewLightningChannel], the local chain is not empty, its commitments are
    one height apart, and its oldest commitment is the channel's current
    state: its height is [currentHeight] and its balances are the balances
    of the persisted channel record. *)
Theorem local_chain_invariant
    (state : OpenChannel) (lc0 lc : LightningChannel) (ops : list Op) :
  NewLightningChannel state = inr lc0 ->
  run lc0 ops = Some lc ->
  localInvariant lc.
Proof.
  intros Hnew Hrun.
  assert (Hinit : localInvariant lc0).
  { unfold NewLightningChannel in Hnew.
    destruct (witnessScriptHash _); [|discriminate].
    injection Hnew as <-. split; [exact I|]. eexists. by split_and!. }
  clear Hnew. revert lc0 Hinit Hrun.
  induction ops as [|op ops IH]; intros lc0 Hinit; cbn [run].
  - by intros [= <-].
  - destruct (step lc0 op) as [lc1|] eqn:Hstep; [|discriminate].
    apply IH. by apply (step_localInvariant lc0 op).
Qed.

Lemma step_status lc op lc' :
  closeStarted lc -> step lc op = Some lc' -> status lc' = status lc.
Proof.
  intros Hclose. destruct op; cbn [step]; intros Hstep.
  - by apply SignNextCommitment_frame in Hstep as [? _].
  - by apply ReceiveNewCommitment_frame in Hstep as [? _].
  - by apply RevokeCurrentCommitment_frame in Hstep as [? _].
  - by apply ReceiveRevocation_frame in Hstep as [? _].
  - by apply ExtendRevocationWindow_frame in Hstep as [? _].
  - by apply AddHTLC_frame in Hstep as [? _].
  - by apply ReceiveHTLC_frame in Hstep as [? _].
  - by apply SettleHTLC_frame in Hstep as [? _].
  - by apply ReceiveHTLCSettle_frame in Hstep as [? _].
  - revert Hstep. unfold InitCooperativeClose.
    destruct Hclose as [Hc | Hc]; rewrite Hc; cbn; by intros [= <-].
  - revert Hstep. unfold CompleteCooperativeClose.
    destruct Hclose as [Hc | Hc]; rewrite Hc; cbn; by intros [= <-].
Qed.

Lemma run_status lc ops lc' :
  closeStarted lc -> run lc ops = Some lc' -> status lc' = status lc.
Proof.
  revert lc. induction ops as [|op ops IH]; intros lc Hclose; cbn [run].
  - by intros [= <-].
  - destruct (step lc op) as [lc1|] eqn:Hstep; [|discriminate].
    pose proof (step_status _ _ _ Hclose Hstep) as Hst.
    intros Hrun. rewrite <- Hst. apply IH; [|exact Hrun].
    unfold closeStarted. by rewrite Hst.
Qed.

(** X7.  A cooperative close is final.  Whatever a call of
    [InitCooperativeClose] or [CompleteCooperativeClose] returns (a result
    or any error), the channel is afterwards closing or closed; no run of
    operations changes the status again, and every later call of either
    close function fails with [ErrChanClosing] and changes nothing.  In
    particular the side that called [InitCooperativeClose] cannot call
    [CompleteCooperativeClose], and a completion that failed cannot be
    tried again. *)
Theorem cooperative_close_is_final
    (lc lc1 lc2 : LightningChannel) (op : Op) (ops : list Op) :
  (op = OpInitCooperativeClose
   \/ exists remoteSig, op = OpCompleteCooperativeClose remoteSig) ->
  step lc op = Some lc1 ->
  run lc1 ops = Some lc2 ->
  closeStarted lc1
  /\ status lc2 = status lc1
  /\ InitCooperativeClose lc2 = Fail ErrChanClosing lc2
  /\ forall remoteSig,
       CompleteCooperativeClose lc2 remoteSig = Fail ErrChanClosing lc2.
Proof.
  intros Hop Hstep Hrun.
  assert (Hclose : closeStarted lc1).
  { destruct Hop as [-> | [remoteSig ->]]; cbn [step] in Hstep.
    - by apply InitCooperativeClose_frame in Hstep as [? _].
    - by apply CompleteCooperativeClose_frame in Hstep as [? _]. }
  pose proof (run_status _ _ _ Hclose Hrun) as Hst.
  split_and!; try done.
  - unfold InitCooperativeClose. rewrite Hst.
    destruct Hclose as [-> | ->]; reflexivity.
  - intros remoteSig. unfold CompleteCooperativeClose. rewrite Hst.
    destruct Hclose as [-> | ->]; reflexivity.
Qed.

End LocalChain.
(** ** The commitment protocol, call by call *)

Section Protocol.
Context `{Ext : Externals}.

(** X8.  [ExtendRevocationWindow] fails only when the elkrem sender fails,
    and then changes nothing.  Otherwise it advances
    [revocationWindowEdge] by one and nothing else, and the message it
    returns carries the zero pre-image with the revocation key and hash
    derived from the elkrem pre-image at the new edge.  Any channel that
    receives this message in [ReceiveRevocation] appends it to its
    revocation window, forwards nothing and changes nothing else. *)
Theorem window_extension_message (lc : LightningChannel) :
  (forall revMsg lc',
     ExtendRevocationWindow lc = Return revMsg lc' ->
     lc' = set_revocationWindowEdge (wrap64 (revocationWindowEdge lc + 1)) lc
     /\ Revocation revMsg = zeroHash
     /\ ChannelPoint revMsg = ChanID (channelState lc)
     /\ (exists r,
           elkremAtIndex (LocalElkrem (channelState lc))
                         (wrap64 (revocationWindowEdge lc + 1)) = Some r
           /\ NextRevocationKey revMsg
              = deriveRevocationPubkey (TheirCommitKey (channelState lc)) r
           /\ NextRevocationHash revMsg = sha256 r)
     /\ forall peer,
          ReceiveRevocation peer revMsg
          = Return [] (set_revocations (usedRevocations peer)
                         (revocationWindow peer ++ [revMsg]) peer))
  /\ (forall e lc',
        ExtendRevocationWindow lc = Fail e lc' ->
        e = ErrExt ElkremError /\ lc' = lc
        /\ elkremAtIndex (LocalElkrem (channelState lc))
                         (wrap64 (revocationWindowEdge lc + 1)) = None)
  /\ ExtendRevocationWindow lc <> Panic.
Proof.
  unfold ExtendRevocationWindow.
  destruct (elkremAtIndex _ _) as [r|]; split_and!; try discriminate.
  - intros revMsg lc' [= <- <-]. cbn [Revocation ChannelPoint
      NextRevocationKey NextRevocationHash].
    split; [reflexivity|]. split; [reflexivity|]. split; [reflexivity|].
    split; [eauto|].
    intros peer. unfold ReceiveRevocation. cbn [Revocation].
    by rewrite decide_True.
  - intros e lc' [= <- <-]. done.
Qed.

(** X9.  When [RevokeCurrentCommitment] returns a message, the local chain
    held at least two commitments; the oldest one has been dropped, the
    next one has become the current state (its balances, transaction and
    signature are copied into the channel record and [NumUpdates] grows by
    one), [currentHeight] and [revocationWindowEdge] have advanced by one,
    and the message reveals the elkrem pre-image of the old height together
    with the key and hash for the new window edge.  With a single local
    commitment, that is with no newer commitment to move to, the call
    panics instead of returning an error; and when the second elkrem
    derivation fails the error is returned with the window edge already
    advanced. *)
Theorem revoke_current_commitment_contract (lc : LightningChannel) :
  (forall msg lc',
     RevokeCurrentCommitment lc = Return msg lc' ->
     exists old new rest cur edge,
       commitments (localCommitChain lc) = old :: new :: rest
       /\ commitments (localCommitChain lc') = new :: rest
       /\ currentHeight lc' = wrap64 (currentHeight lc + 1)
       /\ revocationWindowEdge lc' = wrap64 (revocationWindowEdge lc + 1)
       /\ channelState lc' = set_fromTail new (channelState lc)
       /\ elkremAtIndex (LocalElkrem (channelState lc)) (currentHeight lc)
          = Some cur
       /\ elkremAtIndex (LocalElkrem (channelState lc))
                        (wrap64 (revocationWindowEdge lc + 1)) = Some edge
       /\ msg = mkCommitRevocation (ChanID (channelState lc)) cur
                  (deriveRevocationPubkey (TheirCommitKey (channelState lc))
                                          edge)
                  (sha256 edge)
       /\ revState lc' = revState lc
       /\ ourUpdateLog lc' = ourUpdateLog lc
       /\ theirUpdateLog lc' = theirUpdateLog lc
       /\ store lc' = store lc)
  /\ (forall cur edge,
        elkremAtIndex (LocalElkrem (channelState lc)) (currentHeight lc)
        = Some cur ->
        elkremAtIndex (LocalElkrem (channelState lc))
                      (wrap64 (revocationWindowEdge lc + 1)) = Some edge ->
        (length (commitments (localCommitChain lc)) <= 1)%nat ->
        RevokeCurrentCommitment lc = Panic)
  /\ (forall cur,
        elkremAtIndex (LocalElkrem (channelState lc)) (currentHeight lc)
        = Some cur ->
        elkremAtIndex (LocalElkrem (channelState lc))
                      (wrap64 (revocationWindowEdge lc + 1)) = None ->
        RevokeCurrentCommitment lc
        = Fail (ErrExt ElkremError)
            (set_revocationWindowEdge
               (wrap64 (revocationWindowEdge lc + 1)) lc)).
Proof.
  unfold RevokeCurrentCommitment.
  cbn [channelState set_revocationWindowEdge revocationWindowEdge
       localCommitChain].
  split_and!.
  - destruct (elkremAtIndex _ (currentHeight lc)) as [cur|]; [|discriminate].
    destruct (elkremAtIndex _ (wrap64 _)) as [edge|]; [|discriminate].
    unfold advanceTail.
    destruct (commitments (localCommitChain lc)) as [|old rest];
      [discriminate|].
    cbn [localCommitChain set_localCommitChain set_currentHeight tail
         commitments].
    destruct rest as [|new rest]; [discriminate|].
    unfold tail. cbn [commitments head].
    destruct (FullSync _); [|discriminate]. cbn [negb].
    intros msg lc' [= <- <-]. exists old, new, rest, cur, edge.
    split_and!; reflexivity.
  - intros cur edge -> -> Hlen. unfold advanceTail.
    destruct (commitments (localCommitChain lc)) as [|old rest];
      [reflexivity|].
    destruct rest; [reflexivity|]. cbn [length] in Hlen. lia.
  - intros cur -> ->. reflexivity.
Qed.

(** X10.  [ReceiveNewCommitment] extends the local chain only when the
    signature verifies: the commitment it appends is the view built for
    our log up to the given index and their log up to [theirLogCounter], it
    sits one above the local tip and keeps the received signature.  On
    every error, the rejected signature included, both chains, the logs,
    the counters and the channel record are as before; only commit heights
    written into the descriptors while the view was built remain. *)
Theorem receive_new_commitment_contract
    (lc : LightningChannel) (rawSig : bytes) (ourIdx : Z) :
  (forall lc',
     ReceiveNewCommitment lc rawSig ourIdx = Return tt lc' ->
     exists t c s' revocation tx sigHash sig,
       tip (localCommitChain lc) = Some t
       /\ elkremAtIndex (LocalElkrem (channelState lc))
                        (wrap64 (currentHeight lc + 1)) = Some revocation
       /\ fetchCommitmentView lc false ourIdx (theirLogCounter lc)
            (deriveRevocationPubkey (TheirCommitKey (channelState lc))
                                    revocation)
            (sha256 revocation)
          = Return c (set_store s' lc)
       /\ height c = wrap64 (height t + 1)
       /\ ourMessageIndex c = ourIdx
       /\ theirMessageIndex c = theirLogCounter lc
       /\ txn c = Some tx
       /\ CalcWitnessSigHash (FundingRedeemScript (channelState lc)) tx 0
                             (Capacity (channelState lc)) = Some sigHash
       /\ ParseSignature rawSig = Some sig
       /\ sigVerify sig sigHash (TheirMultiSigKey (channelState lc)) = true
       /\ lc' = set_localCommitChain
                  (addCommitment
                     (mkCommitment (height c) (ourMessageIndex c)
                        (theirMessageIndex c) (txn c) rawSig
                        (ourBalance c) (theirBalance c))
                     (localCommitChain lc))
                  (set_store s' lc))
  /\ (forall e lc',
        ReceiveNewCommitment lc rawSig ourIdx = Fail e lc' ->
        exists s', lc' = set_store s' lc)
  /\ (forall lc',
        ReceiveNewCommitment lc rawSig ourIdx = Fail ErrInvalidCommitSig lc' ->
        exists sig sigHash,
          ParseSignature rawSig = Some sig
          /\ sigVerify sig sigHash (TheirMultiSigKey (channelState lc))
             = false).
Proof.
  unfold ReceiveNewCommitment.
  destruct (elkremAtIndex _ _) as [revocation|].
  2:{ split_and!; try discriminate.
      intros e lc' [= <- <-]. exists (store lc). by destruct lc. }
  pose proof (fetchCommitmentView_inv lc false ourIdx (theirLogCounter lc)
                (deriveRevocationPubkey (TheirCommitKey (channelState lc))
                                        revocation)
                (sha256 revocation)) as Hinv.
  destruct (fetchCommitmentView _ _ _ _ _ _) as [c lc1|e lc1|] eqn:Hfetch.
  - destruct Hinv as (t & filtered & s' & Htip & _ & -> & Hh & Ho & Ht & _).
    cbn [channelState set_store].
    destruct (txn c) as [tx|] eqn:Htx;
      [|split_and!; discriminate].
    destruct (CalcWitnessSigHash _ _ _ _) as [sigHash|] eqn:Hhash.
    2:{ split_and!; try discriminate. intros e lc' [= <- <-]. eauto. }
    destruct (ParseSignature rawSig) as [sig|] eqn:Hparse.
    2:{ split_and!; try discriminate. intros e lc' [= <- <-]. eauto. }
    destruct (sigVerify sig sigHash _) eqn:Hverify; cbn [negb].
    + split_and!; try discriminate.
      intros lc' [= <-].
      exists t, c, s', revocation, tx, sigHash, sig.
      unfold chainOf in Htip. rewrite Htx. by split_and!.
    + split_and!; try discriminate.
      * intros e lc' [= <- <-]. eauto.
      * intros lc' _. eauto.
  - destruct Hinv as [[x ->] [s' ->]].
    split_and!; try discriminate. intros e' lc' [= <- <-]. eauto.
  - split_and!; discriminate.
Qed.

(** With empty logs and a remote commitment to build on, signing cannot
    panic. *)
Lemma SignNextCommitment_no_panic (lc : LightningChannel) :
  ourUpdateLog lc = [] -> theirUpdateLog lc = [] ->
  commitments (remoteCommitChain lc) <> [] ->
  SignNextCommitment lc <> Panic.
Proof.
  intros Hours Htheirs Hchain. unfold SignNextCommitment.
  destruct (revocationWindow lc) as [|r w]; [discriminate|].
  destruct (decide _); [discriminate|].
  pose proof (fetchCommitmentView_inv lc true (ourLogCounter lc)
                (theirLogCounter lc) (NextRevocationKey r)
                (NextRevocationHash r)) as Hinv.
  destruct (fetchCommitmentView _ _ _ _ _ _) as [c lc1|e lc1|] eqn:Hfetch.
  - destruct Hinv as (t & filtered & s' & _ & _ & _ & _ & _ & _ & [tx Htx]).
    rewrite Htx. destruct (RawTxInWitnessSignature _ _ _ _ _); discriminate.
  - discriminate.
  - exfalso. revert Hfetch. unfold fetchCommitmentView.
    destruct (tip (remoteCommitChain lc)) as [t|] eqn:Htip.
    2:{ unfold tip in Htip. apply last_None in Htip. contradiction. }
    unfold fetchHTLCView, evaluateHTLCView. rewrite Hours, Htheirs.
    cbn [filter list_filter ourUpdates theirUpdates removePass addPass].
    repeat match goal with
      | |- context [match ?x with _ => _ end] => destruct x
      end; discriminate.
Qed.

(** X11.  A channel made by [NewLightningChannel] holds one commitment, at
    height [NumUpdates] with the persisted balances, on each chain; its
    logs are empty, so there is nothing to settle, and its revocation
    window is empty, so [SignNextCommitment] fails with [ErrNoWindow].
    Once the counterparty has extended the window, [SignNextCommitment]
    no longer panics or fails for the window: it returns a signature with
    their log index 0 and a second remote commitment, or the error of an
    external builder. *)
Theorem new_channel_needs_window
    (state : OpenChannel) (lc : LightningChannel) :
  NewLightningChannel state = inr lc ->
  status lc = channelPending
  /\ currentHeight lc = NumUpdates state
  /\ revocationWindowEdge lc = NumUpdates state
  /\ (exists c,
        commitments (localCommitChain lc) = [c]
        /\ commitments (remoteCommitChain lc) = [c]
        /\ height c = NumUpdates state
        /\ ourBalance c = OurBalance state
        /\ theirBalance c = TheirBalance state)
  /\ PendingUpdates lc = Some false
  /\ SignNextCommitment lc = Fail ErrNoWindow lc
  /\ (forall preimage,
        SettleHTLC lc preimage = Fail ErrInvalidPaymentHash lc)
  /\ (forall preimage logIndex,
        ReceiveHTLCSettle lc preimage logIndex
        = Fail ErrNonExistentLogEntry lc)
  /\ (forall revMsg lc1,
        Revocation revMsg = zeroHash ->
        after (ReceiveRevocation lc revMsg) = Some lc1 ->
        match SignNextCommitment lc1 with
        | Return (sig, idx) lc2 =>
            idx = 0
            /\ length (commitments (remoteCommitChain lc2)) = 2%nat
            /\ usedRevocations lc2 = [revMsg]
        | Fail e lc2 => exists x, e = ErrExt x
        | Panic => False
        end).
Proof.
  unfold NewLightningChannel.
  destruct (witnessScriptHash _) as [fundingPkScript|]; [|discriminate].
  intros [= <-]. split_and!; try reflexivity.
  - eexists. split_and!; reflexivity.
  - intros revMsg lc1 Hz. unfold ReceiveRevocation. rewrite Hz.
    destruct (decide (zeroHash = zeroHash)); [|contradiction].
    cbn [after]. intros [= <-].
    match goal with |- match SignNextCommitment ?l with _ => _ end =>
      pose proof (SignNextCommitment_inv l) as Hinv;
      assert (Hnp : SignNextCommitment l <> Panic);
      [|destruct (SignNextCommitment l) as [[sig idx] lc2|err lc2|]]
    end.
    + by apply SignNextCommitment_no_panic.
    + destruct Hinv as (r & w & t & c & lc3 & tx & Hw & _ & _ & _
                        & [s' ->] & _ & _ & _ & _ & _ & -> & ->).
      cbn in Hw. injection Hw as <- <-. cbn. done.
    + destruct Hinv as [(_ & _ & [Hw | Hu])|[Hx _]]; [| |exact Hx].
      * cbn in Hw. discriminate.
      * cbn in Hu. discriminate.
    + contradiction.
Qed.

End Protocol.
(** ** Pending updates and the completion of a close *)

Section Closing.
Context `{Ext : Externals}.

(** X12.  [PendingUpdates] looks at the two chain tips only.  Adding or
    settling an HTLC does not change its answer, so an update that no
    commitment includes yet is not reported.  After [SignNextCommitment]
    has returned a signature, the answer is whether our log counter
    differs from the index recorded in the local tip.  It panics exactly
    when one of the chains is empty. *)
Theorem pending_updates_compares_tips (lc : LightningChannel) :
  (forall op lc',
     isLogUpdate op = true -> step lc op = Some lc' ->
     PendingUpdates lc' = PendingUpdates lc)
  /\ (forall sig idx lc' localTip,
        SignNextCommitment lc = Return (sig, idx) lc' ->
        tip (localCommitChain lc) = Some localTip ->
        PendingUpdates lc'
        = Some (negb (ourMessageIndex localTip =? ourLogCounter lc)))
  /\ (PendingUpdates lc = None
      <-> commitments (localCommitChain lc) = []
          \/ commitments (remoteCommitChain lc) = []).
Proof.
  split_and!.
  - intros op lc' Hop Hstep.
    assert (Hsame : localState lc' = localState lc
                    /\ remoteCommitChain lc' = remoteCommitChain lc).
    { destruct op; try discriminate Hop; cbn [step] in Hstep.
      - by apply AddHTLC_frame in Hstep as (_ & ? & ?).
      - by apply ReceiveHTLC_frame in Hstep as (_ & ? & ?).
      - by apply SettleHTLC_frame in Hstep as (_ & ? & ?).
      - by apply ReceiveHTLCSettle_frame in Hstep as (_ & ? & ?). }
    destruct Hsame as [[= _ Hl _ _] Hr]. unfold PendingUpdates.
    by rewrite Hl, Hr.
  - intros sig idx lc' localTip Hsign Htip.
    pose proof (SignNextCommitment_inv lc) as Hinv. rewrite Hsign in Hinv.
    destruct Hinv as (r & w & t & c & lc1 & tx & _ & _ & _ & _
                      & [s' ->] & _ & Ho & _ & _ & _ & _ & ->).
    unfold PendingUpdates.
    cbn [localCommitChain remoteCommitChain set_revocations
         set_remoteCommitChain set_store].
    rewrite Htip. unfold tip, addCommitment. cbn [commitments].
    by rewrite last_snoc, Ho.
  - unfold PendingUpdates, tip.
    destruct (commitments (localCommitChain lc)) as [|a l] eqn:Hl using rev_ind.
    { cbn. split; [by left | done]. }
    rewrite last_snoc.
    destruct (commitments (remoteCommitChain lc)) as [|b m] eqn:Hr
      using rev_ind.
    { cbn. split; [by right | done]. }
    rewrite last_snoc. split; [discriminate|].
    intros [H | H]; by apply app_nil in H as [_ ?].
Qed.

(** X13.  [CompleteCooperativeClose] refuses a channel that is closing or
    closed.  Otherwise the transaction it returns has the outputs of the
    transaction [InitCooperativeClose] signs (one dust output per party
    with a non-zero balance and the OP_RETURN output) and spends the
    funding input with the two-signature witness; the script engine has
    accepted it and the channel is closed.  The witness is written into
    the funding input itself, an object the close transaction shares with
    the channel and with every commitment transaction: the channel's
    funding input carries the witness afterwards, and so does that input
    in the transactions of the commitments of both chains and in
    [OurCommitTx] when it is the transaction of the local tail; nothing
    else of the channel state changes.  When the call fails for another
    reason than the status, the channel is left closed as well, and after
    a failure of the script engine the witness has been written all the
    same. *)
Theorem complete_cooperative_close_contract
    (lc : LightningChannel) (remoteSig : bytes) :
  (closeStarted lc ->
   CompleteCooperativeClose lc remoteSig = Fail ErrChanClosing lc)
  /\ (forall tx lc',
        CompleteCooperativeClose lc remoteSig = Return tx lc' ->
        exists opReturn closeSig,
          ~ closeStarted lc
          /\ EncodeCcInstructions
               (instructionsOf
                  (sortBy outputLess (settledOutputs (channelState lc))))
             = Some opReturn
          /\ RawTxInWitnessSignature (coloredCloseTx lc opReturn) 0
               (Capacity (channelState lc))
               (FundingRedeemScript (channelState lc))
               (OurMultiSigKey (channelState lc)) = Some closeSig
          /\ txIn tx
             = [mkTxIn (PreviousOutPoint (fundingTxIn lc))
                       (SignatureScript (fundingTxIn lc))
                       (spendMultiSig (FundingRedeemScript (channelState lc))
                          (PubKey (OurMultiSigKey (channelState lc)))
                          closeSig
                          (TheirMultiSigKey (channelState lc)) remoteSig)
                       (Sequence (fundingTxIn lc))]
          /\ txOut tx = txOut (coloredCloseTx lc opReturn)
          /\ Version tx = 1 /\ LockTime tx = 0
          /\ engineExecute (fundingP2WSH lc) tx 0
                           (Capacity (channelState lc)) = true
          /\ status lc' = channelClosed
          /\ txIn tx = [fundingTxIn lc']
          /\ remoteCommitChain lc'
             = shareTxInChain (fundingTxIn lc) (fundingTxIn lc')
                              (remoteCommitChain lc)
          /\ localCommitChain lc'
             = shareTxInChain (fundingTxIn lc) (fundingTxIn lc')
                              (localCommitChain lc)
          /\ channelState lc'
             = (if decide (ourCommitTxOfTail lc) then
                  set_OurCommitTx
                    (shareTxIn (fundingTxIn lc) (fundingTxIn lc')
                       <$> OurCommitTx (channelState lc))
                    (channelState lc)
                else channelState lc)
          /\ logSide lc' = logSide lc /\ store lc' = store lc
          /\ revocationWindow lc' = revocationWindow lc
          /\ usedRevocations lc' = usedRevocations lc
          /\ currentHeight lc' = currentHeight lc)
  /\ (forall e lc',
        CompleteCooperativeClose lc remoteSig = Fail e lc' ->
        e <> ErrChanClosing ->
        status lc' = channelClosed
        /\ (e = ErrExt SignError /\ lc' = set_status channelClosed lc
            \/ e = ErrExt EngineError
               /\ exists opReturn closeSig,
                    EncodeCcInstructions
                      (instructionsOf
                         (sortBy outputLess
                            (settledOutputs (channelState lc))))
                    = Some opReturn
                    /\ RawTxInWitnessSignature (coloredCloseTx lc opReturn) 0
                         (Capacity (channelState lc))
                         (FundingRedeemScript (channelState lc))
                         (OurMultiSigKey (channelState lc)) = Some closeSig
                    /\ Witness (fundingTxIn lc')
                       = spendMultiSig
                           (FundingRedeemScript (channelState lc))
                           (PubKey (OurMultiSigKey (channelState lc)))
                           closeSig
                           (TheirMultiSigKey (channelState lc)) remoteSig)).
Proof.
  unfold CompleteCooperativeClose, closeStarted.
  case_bool_decide as H1.
  { cbn [orb]. split_and!; try discriminate; [done|].
    intros e lc' [= <- <-]. done. }
  case_bool_decide as H2.
  { cbn [orb]. split_and!; try discriminate; [done|].
    intros e lc' [= <- <-]. done. }
  cbn [orb]. rewrite createCooperativeCloseTx_closed.
  change (channelState (set_status channelClosed lc)) with (channelState lc).
  change (coloredCloseTx (set_status channelClosed lc))
    with (coloredCloseTx lc).
  destruct (EncodeCcInstructions _) as [opReturn|] eqn:Henc;
    [|split_and!; try discriminate; tauto].
  destruct (RawTxInWitnessSignature _ _ _ _ _) as [closeSig|] eqn:Hsig.
  2:{ split_and!; try discriminate; [tauto|].
      intros e lc' [= <- <-] _. auto. }
  cbn [txIn coloredCloseTx].
  assert (Hwrite : forall old new,
            fundingTxIn (writeFundingTxIn old new
                           (set_status channelClosed lc)) = new
            /\ fundingP2WSH (writeFundingTxIn old new
                               (set_status channelClosed lc))
               = fundingP2WSH lc).
  { intros old new. unfold writeFundingTxIn.
    by destruct (decide (ourCommitTxOfTail _)). }
  rewrite (proj2 (Hwrite _ _)).
  destruct (engineExecute _ _ _ _) eqn:Hengine; cbn [negb].
  - split_and!; try discriminate; [tauto|].
    intros tx lc' [= <- <-]. exists opReturn, closeSig.
    rewrite (proj1 (Hwrite _ _)).
    unfold writeFundingTxIn, ourCommitTxOfTail.
    cbn [localCommitChain channelState set_status].
    split_and!; try reflexivity; try exact Hengine; try exact Hsig;
      try tauto.
    all: fold (ourCommitTxOfTail lc);
      by destruct (decide (ourCommitTxOfTail lc)).
  - split_and!; try discriminate; [tauto|].
    intros e lc' [= <- <-] _. rewrite (proj1 (Hwrite _ _)).
    split.
    + unfold writeFundingTxIn.
      by destruct (decide (ourCommitTxOfTail _)).
    + right. split; [reflexivity|]. exists opReturn, closeSig. done.
Qed.

End Closing.
(** ** Forwarding *)

Section Forwarding.
Context `{Ext : Externals}.

Lemma forwardPass_cons rt lt e rest s :
  forwardPass rt lt (e :: rest) s
  = if decide (isForwarded (s e) = false /\ lockedIn rt lt (s e)) then
      let '(s', fwd) :=
        forwardPass rt lt rest (storeSet e (set_isForwarded true (s e)) s) in
      (s', e :: fwd)
    else forwardPass rt lt rest s.
Proof.
  cbn [forwardPass].
  destruct (decide (isForwarded (s e) = false /\ lockedIn rt lt (s e)))
    as [[Hf Hl]|Hno].
  - rewrite Hf. unfold lockedIn in Hl.
    destruct (decide (EntryType (s e) = Add)) as [Ha|Ha].
    + rewrite (bool_decide_eq_true_2 _ Ha).
      rewrite (bool_decide_eq_false_2 (EntryType (s e) <> Add)) by tauto.
      destruct Hl as (H1 & H2 & H3 & H4).
      destruct (addCommitHeightRemote (s e) =? 0) eqn:E1; [lia|].
      destruct (addCommitHeightLocal (s e) =? 0) eqn:E2; [lia|].
      destruct (rt >=? addCommitHeightRemote (s e)) eqn:E3; [|lia].
      destruct (lt >=? addCommitHeightLocal (s e)) eqn:E4; [|lia].
      reflexivity.
    + rewrite (bool_decide_eq_false_2 _ Ha).
      rewrite (bool_decide_eq_true_2 (EntryType (s e) <> Add)) by tauto.
      destruct Hl as (H3 & H4).
      destruct (rt >=? removeCommitHeightRemote (s e)) eqn:E3; [|lia].
      destruct (lt >=? removeCommitHeightLocal (s e)) eqn:E4; [|lia].
      reflexivity.
  - destruct (isForwarded (s e)) eqn:Hf; [reflexivity|].
    assert (Hnl : ~ lockedIn rt lt (s e)) by tauto.
    unfold lockedIn in Hnl.
    destruct (decide (EntryType (s e) = Add)) as [Ha|Ha].
    + rewrite (bool_decide_eq_true_2 _ Ha).
      rewrite (bool_decide_eq_false_2 (EntryType (s e) <> Add)) by tauto.
      destruct (addCommitHeightRemote (s e) =? 0) eqn:E1; [reflexivity|].
      destruct (addCommitHeightLocal (s e) =? 0) eqn:E2; [reflexivity|].
      destruct (rt >=? addCommitHeightRemote (s e)) eqn:E3; [|reflexivity].
      destruct (lt >=? addCommitHeightLocal (s e)) eqn:E4; [|reflexivity].
      exfalso. apply Hnl. lia.
    + rewrite (bool_decide_eq_false_2 _ Ha).
      rewrite (bool_decide_eq_true_2 (EntryType (s e) <> Add)) by tauto.
      destruct (rt >=? removeCommitHeightRemote (s e)) eqn:E3; [|reflexivity].
      destruct (lt >=? removeCommitHeightLocal (s e)) eqn:E4; [|reflexivity].
      exfalso. apply Hnl. lia.
Qed.

Lemma forwardPass_spec rt lt entries :
  forall s s' fwd,
    forwardPass rt lt entries s = (s', fwd) ->
    (forall e, e ∈ fwd
               <-> e ∈ entries /\ isForwarded (s e) = false
                   /\ lockedIn rt lt (s e))
    /\ NoDup fwd
    /\ fwd `sublist_of` entries
    /\ (forall x, s' x = if decide (x ∈ fwd)
                         then set_isForwarded true (s x) else s x).
Proof.
  induction entries as [|e rest IH]; intros s s' fwd.
  { intros [= <- <-]. split_and!; [|constructor|done|done].
    intros e. rewrite !elem_of_nil. tauto. }
  rewrite forwardPass_cons.
  destruct (decide _) as [[Hf Hl]|Hno].
  - destruct (forwardPass rt lt rest _) as [s1 fwd1] eqn:Hrest.
    intros [= <- <-].
    destruct (IH _ _ _ Hrest) as (Hin & Hnd & Hsub & Hst).
    assert (Hfresh : e ∉ fwd1).
    { intros He. apply Hin in He as (_ & He & _).
      rewrite storeSet_eq in He. discriminate. }
    split_and!.
    + intros x. rewrite !elem_of_cons, Hin.
      destruct (decide (x = e)) as [->|Hne]; [tauto|].
      rewrite (storeSet_ne _ _ _ _ Hne). tauto.
    + by constructor.
    + by constructor.
    + intros x. rewrite Hst.
      destruct (decide (x = e)) as [->|Hne].
      * rewrite storeSet_eq.
        destruct (decide (e ∈ fwd1)); [contradiction|].
        destruct (decide (e ∈ e :: fwd1)) as [|Hn]; [done|].
        exfalso. apply Hn, elem_of_cons. by left.
      * rewrite (storeSet_ne _ _ _ _ Hne).
        destruct (decide (x ∈ fwd1)) as [Hx|Hx];
          destruct (decide (x ∈ e :: fwd1)) as [Hx'|Hx']; try done.
        -- exfalso. apply Hx', elem_of_cons. by right.
        -- apply elem_of_cons in Hx' as [?|?]; contradiction.
  - intros Hrest. destruct (IH _ _ _ Hrest) as (Hin & Hnd & Hsub & Hst).
    split_and!; try done.
    + intros x. rewrite elem_of_cons, Hin. split; [tauto|].
      intros ([->|Hx] & Hf & Hl); [exfalso; by apply Hno | tauto].
    + by constructor.
Qed.

(** X14.  The forwarding loop of [ReceiveRevocation] returns, in log
    order and each once, exactly the entries of their log that were not
    forwarded before and are locked in at the two chain tails; it marks
    them forwarded and writes nothing else.  A Settle or Timeout entry that
    no commitment includes yet (zero remove heights) counts as locked in,
    an Add entry with a zero add height does not.  No later pass, over any
    log and for any tails, returns one of these entries again, as long as
    nothing clears the mark. *)
Theorem forward_pass_contract
    (remoteChainTail localChainTail : Z) (entries : list loc)
    (s s' : Store) (fwd : list loc) :
  forwardPass remoteChainTail localChainTail entries s = (s', fwd) ->
  (forall e, e ∈ fwd
             <-> e ∈ entries /\ isForwarded (s e) = false
                 /\ lockedIn remoteChainTail localChainTail (s e))
  /\ NoDup fwd
  /\ (fwd `sublist_of` entries)
  /\ (forall e, e ∈ fwd -> s' e = set_isForwarded true (s e))
  /\ (forall x, x ∉ fwd -> s' x = s x)
  /\ (forall e, e ∈ entries -> EntryType (s e) <> Add ->
        isForwarded (s e) = false ->
        removeCommitHeightRemote (s e) = 0 ->
        removeCommitHeightLocal (s e) = 0 ->
        0 <= remoteChainTail -> 0 <= localChainTail -> e ∈ fwd)
  /\ (forall e, e ∈ fwd -> EntryType (s e) = Add ->
        addCommitHeightRemote (s e) <> 0 /\ addCommitHeightLocal (s e) <> 0)
  /\ (forall rt2 lt2 entries2 s2,
        (forall x, isForwarded (s' x) = true -> isForwarded (s2 x) = true) ->
        forall e, e ∈ fwd -> e ∉ (forwardPass rt2 lt2 entries2 s2).2).
Proof.
  intros Hrun.
  destruct (forwardPass_spec _ _ _ _ _ _ Hrun) as (Hin & Hnd & Hsub & Hst).
  split_and!; try done.
  - intros e He. rewrite Hst. by rewrite decide_True.
  - intros x Hx. rewrite Hst. by rewrite decide_False.
  - intros e He Ht Hf Hr Hl Hrt Hlt. apply Hin. split_and!; try done.
    unfold lockedIn. rewrite decide_False by done. lia.
  - intros e He Ha. apply Hin in He as (_ & _ & Hl).
    unfold lockedIn in Hl. rewrite decide_True in Hl by done. tauto.
  - intros rt2 lt2 entries2 s2 Hmono e He He2.
    destruct (forwardPass rt2 lt2 entries2 s2) as [s3 fwd2] eqn:Hrun2.
    destruct (forwardPass_spec _ _ _ _ _ _ Hrun2) as (Hin2 & _).
    apply Hin2 in He2 as (_ & Hf2 & _).
    rewrite Hmono in Hf2; [discriminate|].
    rewrite Hst. by rewrite decide_True.
Qed.

End Forwarding.
(** ** Descriptors over time *)

Lemma laterVersion_refl p : laterVersion p p.
Proof. unfold laterVersion. split_and!; done. Qed.

Lemma laterVersion_trans p1 p2 p3 :
  laterVersion p1 p2 -> laterVersion p2 p3 -> laterVersion p1 p3.
Proof.
  unfold laterVersion.
  intros (A1 & A2 & A3 & A4 & A5 & A6 & A7 & A8 & A9 & A10 & A11 & A12 & A13)
         (B1 & B2 & B3 & B4 & B5 & B6 & B7 & B8 & B9 & B10 & B11 & B12 & B13).
  split_and!; try congruence.
  - intros H. rewrite B8; rewrite A8; done.
  - intros H. rewrite B9; rewrite A9; done.
  - intros H. rewrite B10; rewrite A10; done.
  - intros H. rewrite B11; rewrite A11; done.
  - auto.
  - auto.
Qed.

Lemma processRemoveEntry_later htlc o t h rc inc :
  laterVersion htlc (processRemoveEntry htlc o t h rc inc).1.1.
Proof.
  unfold processRemoveEntry.
  destruct (removeHeight rc htlc =? 0) eqn:Hz; cbn [negb];
    [|apply laterVersion_refl].
  apply Z.eqb_eq in Hz.
  destruct (match inc with true => _ | false => _ end) as [o' t'].
  cbn [fst]. unfold laterVersion.
  destruct rc; cbn in Hz |- *; split_and!; try done; intros; congruence.
Qed.

Lemma processAddEntry_later htlc o t h rc inc :
  laterVersion htlc (processAddEntry htlc o t h rc inc).1.1.
Proof.
  unfold processAddEntry.
  destruct (addHeight rc htlc =? 0) eqn:Hz; cbn [negb];
    [|apply laterVersion_refl].
  apply Z.eqb_eq in Hz.
  destruct inc; cbn [fst]; unfold laterVersion;
    destruct rc; cbn in Hz |- *; split_and!; try done; intros; congruence.
Qed.

Lemma storeSet_later e p s x :
  laterVersion (s e) p -> laterVersion (s x) (storeSet e p s x).
Proof.
  intros Hp. unfold storeSet.
  destruct (decide (x = e)) as [->|]; [exact Hp | apply laterVersion_refl].
Qed.

Lemma removePass_later index h rc inc entries :
  forall s skip o t s' skip' o' t',
    removePass index h rc inc entries s skip o t = Some (s', skip', o', t') ->
    forall x, laterVersion (s x) (s' x).
Proof.
  induction entries as [|e rest IH]; intros s skip o t s' skip' o' t' Hrun x.
  { injection Hrun as <- <- <- <-. apply laterVersion_refl. }
  cbn [removePass] in Hrun.
  destruct (decide (EntryType (s e) = Add)); [by eapply IH|].
  destruct (index !! ParentIndex (s e)) as [parent|]; [|discriminate].
  pose proof (processRemoveEntry_later (s e) o t h rc inc) as Hone.
  destruct (processRemoveEntry (s e) o t h rc inc) as [[entry' o1] t1].
  cbn [fst] in Hone.
  eapply laterVersion_trans; [|eapply IH, Hrun].
  by apply storeSet_later.
Qed.

Lemma addPass_later h rc inc skip entries :
  forall s o t s' kept o' t',
    addPass h rc inc skip entries s o t = (s', kept, o', t') ->
    forall x, laterVersion (s x) (s' x).
Proof.
  induction entries as [|e rest IH]; intros s o t s' kept o' t' Hrun x.
  { injection Hrun as <- <- <- <-. apply laterVersion_refl. }
  cbn [addPass] in Hrun.
  destruct (_ || _); [by eapply IH|].
  pose proof (processAddEntry_later (s e) o t h rc inc) as Hone.
  destruct (processAddEntry (s e) o t h rc inc) as [[entry' o1] t1].
  cbn [fst] in Hone.
  destruct (addPass h rc inc skip rest (storeSet e entry' s) o1 t1)
    as [[[s1 kept1] o2] t2] eqn:Hrest.
  injection Hrun as <- <- <- <-.
  eapply laterVersion_trans; [|eapply IH, Hrest].
  by apply storeSet_later.
Qed.

Lemma evaluateHTLCView_later lc view o t h rc filtered o' t' s' :
  evaluateHTLCView lc view o t h rc = Some (filtered, o', t', s') ->
  forall x, laterVersion (store lc x) (s' x).
Proof.
  unfold evaluateHTLCView.
  destruct (removePass _ _ _ _ _ _ _ _ _) as [[[[s1 skipThem] o1] t1]|] eqn:H1;
    [|discriminate].
  destruct (removePass _ _ _ _ _ s1 _ _ _) as [[[[s2 skipUs] o2] t2]|] eqn:H2;
    [|discriminate].
  destruct (addPass _ _ _ _ _ s2 _ _) as [[[s3 ourKept] o3] t3] eqn:H3.
  destruct (addPass _ _ _ _ _ s3 _ _) as [[[s4 theirKept] o4] t4] eqn:H4.
  intros [= <- <- <- <-] x.
  eapply laterVersion_trans; [eapply removePass_later, H1|].
  eapply laterVersion_trans; [eapply removePass_later, H2|].
  eapply laterVersion_trans; [eapply addPass_later, H3|].
  eapply addPass_later, H4.
Qed.

Section Descriptors.
Context `{Ext : Externals}.

Ltac split_matches :=
  repeat match goal with
    | |- context [match ?x with _ => _ end] => destruct x eqn:?
    end.

(** [fetchCommitmentView] writes the store only, and only by way of
    [evaluateHTLCView]. *)
Lemma fetchCommitmentView_later lc rc ourIdx theirIdx key hash lc' :
  after (fetchCommitmentView lc rc ourIdx theirIdx key hash) = Some lc' ->
  exists s', lc' = set_store s' lc
             /\ forall x, laterVersion (store lc x) (s' x).
Proof.
  unfold fetchCommitmentView.
  destruct (tip _); [|discriminate].
  destruct (evaluateHTLCView _ _ _ _ _ _) as [[[[v ob] tb] s']|] eqn:Hev;
    [|discriminate].
  pose proof (evaluateHTLCView_later _ _ _ _ _ _ _ _ _ _ Hev) as Hlater.
  destruct (if rc then _ else _) as [[[[selfKey remoteKey] delay] db] pb].
  split_matches; cbn [after]; intros [= <-]; eauto.
Qed.

(** The operations that neither allocate nor touch the logs. *)
Lemma SignNextCommitment_later lc lc' :
  after (SignNextCommitment lc) = Some lc' ->
  logSide lc' = logSide lc
  /\ forall x, laterVersion (store lc x) (store lc' x).
Proof.
  unfold SignNextCommitment.
  destruct (revocationWindow lc) as [|r w].
  { cbn. intros [= <-]. split; [done|]. intros x. apply laterVersion_refl. }
  destruct (decide _).
  { cbn. intros [= <-]. split; [done|]. intros x. apply laterVersion_refl. }
  destruct (fetchCommitmentView _ _ _ _ _ _) as [c lc1|e lc1|] eqn:Hfetch;
    [| |discriminate].
  - destruct (fetchCommitmentView_later lc true (ourLogCounter lc)
                (theirLogCounter lc) (NextRevocationKey r)
                (NextRevocationHash r) lc1) as (s' & -> & Hlater).
    { by rewrite Hfetch. }
    destruct (txn c); [|discriminate].
    destruct (RawTxInWitnessSignature _ _ _ _ _); cbn; intros [= <-]; done.
  - destruct (fetchCommitmentView_later lc true (ourLogCounter lc)
                (theirLogCounter lc) (NextRevocationKey r)
                (NextRevocationHash r) lc1) as (s' & -> & Hlater).
    { by rewrite Hfetch. }
    cbn. intros [= <-]. done.
Qed.

Lemma ReceiveNewCommitment_later lc rawSig i lc' :
  after (ReceiveNewCommitment lc rawSig i) = Some lc' ->
  logSide lc' = logSide lc
  /\ forall x, laterVersion (store lc x) (store lc' x).
Proof.
  unfold ReceiveNewCommitment.
  destruct (elkremAtIndex _ _) as [revocation|].
  2:{ cbn. intros [= <-]. split; [done|]. intros x. apply laterVersion_refl. }
  destruct (fetchCommitmentView _ _ _ _ _ _) as [c lc1|e lc1|] eqn:Hfetch;
    [| |discriminate].
  - destruct (fetchCommitmentView_later lc false i (theirLogCounter lc)
                (deriveRevocationPubkey (TheirCommitKey (channelState lc))
                                        revocation)
                (sha256 revocation) lc1) as (s' & -> & Hlater).
    { by rewrite Hfetch. }
    split_matches; cbn [after]; intros Hafter;
      first [discriminate Hafter | injection Hafter as <-; done].
  - destruct (fetchCommitmentView_later lc false i (theirLogCounter lc)
                (deriveRevocationPubkey (TheirCommitKey (channelState lc))
                                        revocation)
                (sha256 revocation) lc1) as (s' & -> & Hlater).
    { by rewrite Hfetch. }
    cbn. intros [= <-]. done.
Qed.

Lemma untouched_later lc lc' :
  store lc' = store lc -> forall x, laterVersion (store lc x) (store lc' x).
Proof. intros -> x. apply laterVersion_refl. Qed.

Lemma RevokeCurrentCommitment_later lc lc' :
  after (RevokeCurrentCommitment lc) = Some lc' ->
  logSide lc' = logSide lc /\ store lc' = store lc.
Proof.
  unfold RevokeCurrentCommitment.
  split_matches; cbn [after]; intros Hafter;
    first [discriminate Hafter | injection Hafter as <-; done].
Qed.

Lemma ExtendRevocationWindow_later lc lc' :
  after (ExtendRevocationWindow lc) = Some lc' ->
  logSide lc' = logSide lc /\ store lc' = store lc.
Proof.
  unfold ExtendRevocationWindow.
  split_matches; cbn [after]; intros Hafter;
    first [discriminate Hafter | injection Hafter as <-; done].
Qed.

Lemma InitCooperativeClose_later lc lc' :
  after (InitCooperativeClose lc) = Some lc' ->
  logSide lc' = logSide lc /\ store lc' = store lc.
Proof.
  unfold InitCooperativeClose.
  split_matches; cbn [after]; intros Hafter;
    first [discriminate Hafter | injection Hafter as <-; done].
Qed.

Lemma CompleteCooperativeClose_later lc remoteSig lc' :
  after (CompleteCooperativeClose lc remoteSig) = Some lc' ->
  logSide lc' = logSide lc /\ store lc' = store lc.
Proof.
  unfold CompleteCooperativeClose.
  split_matches; cbn [after]; intros Hafter;
    first [discriminate Hafter | injection Hafter as <-; done].
Qed.

(** What [ReceiveRevocation] does to the logs and the store. *)
Lemma ReceiveRevocation_inv lc revMsg :
  match ReceiveRevocation lc revMsg with
  | Panic => True
  | Fail _ lc' => logSide lc' = logSide lc /\ store lc' = store lc
  | Return fwd lc' =>
      (fwd = [] /\ logSide lc' = logSide lc /\ store lc' = store lc)
      \/ exists rt lt our1 their1 theirIdx1 ourIdx1,
           forwardPass rt lt (theirUpdateLog lc) (store lc)
           = (store lc', fwd)
           /\ compactLog (store lc') lt rt (ourUpdateLog lc)
                (ourUpdateLog lc) (theirUpdateLog lc) (theirLogIndex lc)
                (ourLogIndex lc)
              = Some (our1, their1, theirIdx1, ourIdx1)
           /\ compactLog (store lc') lt rt their1 their1 our1 ourIdx1
                theirIdx1
              = Some (theirUpdateLog lc', ourUpdateLog lc', ourLogIndex lc',
                      theirLogIndex lc')
           /\ nextLoc lc' = nextLoc lc
  end.
Proof.
  unfold ReceiveRevocation.
  destruct (decide (zeroHash = Revocation revMsg)); [by left|].
  destruct (elkremAddNext _ _) as [remoteElkrem|]; [|done].
  destruct (decide _); [done|].
  destruct (_ && _); [done|].
  cbn [usedRevocations set_channelState].
  destruct (usedRevocations lc) as [|r used']; [done|].
  cbn [remoteCommitChain set_revocations set_channelState].
  destruct (tail (remoteCommitChain lc)); [|done].
  destruct (negb _); [done|].
  destruct (advanceTail (remoteCommitChain lc)) as [chain'|]; [|done].
  cbn [remoteCommitChain localCommitChain set_remoteCommitChain
       set_revocations set_channelState theirUpdateLog store].
  destruct (tail chain') as [rtl|]; [|done].
  destruct (tail (localCommitChain lc)) as [ltl|]; [|done].
  destruct (forwardPass _ _ _ _) as [s' fwd] eqn:Hfwd.
  unfold compactLogs.
  cbn [store ourUpdateLog theirUpdateLog ourLogIndex theirLogIndex
       set_store set_remoteCommitChain set_revocations set_channelState
       ourLogCounter theirLogCounter].
  destruct (compactLog _ _ _ _ _ _ _ _)
    as [[[[our1 their1] theirIdx1] ourIdx1]|] eqn:Hpass1; [|done].
  lazy beta iota.
  destruct (compactLog s' _ _ their1 _ _ _ _)
    as [[[[their2 our2] ourIdx2] theirIdx2]|] eqn:Hpass2; [|done].
  right.
  exists (height rtl), (height ltl), our1, their1, theirIdx1, ourIdx1.
  split_and!; done.
Qed.

End Descriptors.
(** ** Invariants of the logs, the index maps and the store *)

Section LogInvariants.
Context `{Ext : Externals}.

Lemma storeGrows_refl lc : storeGrows lc lc.
Proof. split; [lia|]. intros x _. apply laterVersion_refl. Qed.

Lemma storeGrows_trans lc1 lc2 lc3 :
  storeGrows lc1 lc2 -> storeGrows lc2 lc3 -> storeGrows lc1 lc3.
Proof.
  intros [Hn1 H1] [Hn2 H2]. split; [lia|].
  intros x Hx. eapply laterVersion_trans; [by apply H1|].
  apply H2. lia.
Qed.

Lemma storeGrows_same lc lc' :
  logSide lc' = logSide lc ->
  (forall x, laterVersion (store lc x) (store lc' x)) ->
  storeGrows lc lc'.
Proof.
  intros [= _ _ _ _ Hn] Hlater. split; [lia|]. intros x _. apply Hlater.
Qed.

Lemma set_settled_later p : laterVersion p (set_settled true p).
Proof. unfold laterVersion. cbn. split_and!; done. Qed.

Lemma set_isForwarded_later p : laterVersion p (set_isForwarded true p).
Proof. unfold laterVersion. cbn. split_and!; done. Qed.

Lemma forwardPass_later rt lt entries s s' fwd :
  forwardPass rt lt entries s = (s', fwd) ->
  forall x, laterVersion (s x) (s' x).
Proof.
  intros Hrun x.
  destruct (forwardPass_spec _ _ _ _ _ _ Hrun) as (_ & _ & _ & Hst).
  rewrite Hst. destruct (decide _);
    [apply set_isForwarded_later | apply laterVersion_refl].
Qed.

Lemma step_storeGrows lc op lc' :
  step lc op = Some lc' -> storeGrows lc lc'.
Proof.
  destruct op; cbn [step]; intros Hstep.
  - apply SignNextCommitment_later in Hstep as [Hl Hs].
    by apply storeGrows_same.
  - apply ReceiveNewCommitment_later in Hstep as [Hl Hs].
    by apply storeGrows_same.
  - apply RevokeCurrentCommitment_later in Hstep as [Hl Hs].
    apply storeGrows_same; [done | by apply untouched_later].
  - pose proof (ReceiveRevocation_inv lc revMsg) as Hinv.
    destruct (ReceiveRevocation lc revMsg) as [fwd lc1|e lc1|];
      [| |discriminate]; injection Hstep as ->.
    + destruct Hinv as [(_ & Hl & Hs)
                       |(rt & lt & o1 & t1 & ti1 & oi1 & Hf & _ & _ & Hn)].
      * apply storeGrows_same; [done | by apply untouched_later].
      * split; [lia|]. intros x _. eapply forwardPass_later, Hf.
    + destruct Hinv as [Hl Hs].
      apply storeGrows_same; [done | by apply untouched_later].
  - apply ExtendRevocationWindow_later in Hstep as [Hl Hs].
    apply storeGrows_same; [done | by apply untouched_later].
  - revert Hstep. unfold AddHTLC.
    destruct (RedemptionHashes htlc); [discriminate|].
    cbn. intros [= <-]. split; cbn; [lia|].
    intros x Hx. rewrite storeSet_ne by lia. apply laterVersion_refl.
  - revert Hstep. unfold ReceiveHTLC.
    destruct (RedemptionHashes htlc); [discriminate|].
    cbn. intros [= <-]. split; cbn; [lia|].
    intros x Hx. rewrite storeSet_ne by lia. apply laterVersion_refl.
  - revert Hstep. unfold SettleHTLC.
    destruct (findTargetHTLC _ _ _) as [e|];
      [|cbn; intros [= <-]; apply storeGrows_refl].
    cbn. intros [= <-]. split; cbn; [lia|].
    intros x Hx. rewrite storeSet_ne by lia.
    apply storeSet_later, set_settled_later.
  - revert Hstep. unfold ReceiveHTLCSettle.
    destruct (ourLogIndex lc !! logIndex) as [e|];
      [|cbn; intros [= <-]; apply storeGrows_refl].
    destruct (decide _); [cbn; intros [= <-]; apply storeGrows_refl|].
    cbn. intros [= <-]. split; cbn; [lia|].
    intros x Hx. rewrite storeSet_ne by lia. apply laterVersion_refl.
  - apply InitCooperativeClose_later in Hstep as [Hl Hs].
    apply storeGrows_same; [done | by apply untouched_later].
  - apply CompleteCooperativeClose_later in Hstep as [Hl Hs].
    apply storeGrows_same; [done | by apply untouched_later].
Qed.

Lemma run_storeGrows lc ops lc' :
  run lc ops = Some lc' -> storeGrows lc lc'.
Proof.
  revert lc. induction ops as [|op ops IH]; intros lc; cbn [run].
  - intros [= <-]. apply storeGrows_refl.
  - destruct (step lc op) as [lc1|] eqn:Hstep; [|discriminate].
    intros Hrun. eapply storeGrows_trans; [by eapply step_storeGrows|].
    by apply IH.
Qed.

(** X15.  Descriptors are write-once.  Over any run of operations no
    descriptor is freed, and for every descriptor allocated before the
    run: the fields given at creation (payment hash, timeout, amount,
    Index, ParentIndex, entry type) never change; each of the four commit
    heights, once written with a non-zero height, keeps that height; and
    the forwarded and settled marks are never cleared. *)
Theorem descriptors_write_once
    (lc lc' : LightningChannel) (ops : list Op) :
  run lc ops = Some lc' -> storeGrows lc lc'.
Proof. apply run_storeGrows. Qed.

(** Well-formedness only depends on the fields given at creation. *)
Lemma indexWellFormed_later s s' n log index :
  (forall x, laterVersion (s x) (s' x)) ->
  indexWellFormed s n log index -> indexWellFormed s' n log index.
Proof.
  intros Hlater Hwf k e Hk. destruct (Hwf k e Hk) as (Hn & Ht & Hi & Hin).
  destruct (Hlater e) as (_ & _ & _ & Hi' & _ & _ & Ht' & _).
  split_and!; congruence.
Qed.

Lemma wellFormed_same lc lc' :
  logSide lc' = logSide lc ->
  (forall x, laterVersion (store lc x) (store lc' x)) ->
  wellFormed lc -> wellFormed lc'.
Proof.
  intros [= Ho Ht Hoi Hti Hn] Hlater (Ha & Hwo & Hwt).
  unfold wellFormed, logsAllocated. rewrite Ho, Ht, Hoi, Hti, Hn.
  split_and!; [exact Ha | |]; by eapply indexWellFormed_later.
Qed.

(** Allocation: the old entries stay allocated and unchanged. *)
Lemma indexWellFormed_alloc s n log index pd e' :
  indexWellFormed s n log index ->
  indexWellFormed (storeSet n pd s) (S n) (log ++ [e']) index.
Proof.
  intros Hwf k e Hk. destruct (Hwf k e Hk) as (Hn & Ht & Hi & Hin).
  rewrite storeSet_ne by lia.
  split_and!; try done; [lia|]. apply elem_of_app. by left.
Qed.

Lemma indexWellFormed_weaken s n log index pd :
  indexWellFormed s n log index ->
  indexWellFormed (storeSet n pd s) (S n) log index.
Proof.
  intros Hwf k e Hk. destruct (Hwf k e Hk) as (Hn & Ht & Hi & Hin).
  rewrite storeSet_ne by lia. split_and!; try done. lia.
Qed.

Lemma indexWellFormed_insert s n log index pd :
  EntryType pd = Add ->
  indexWellFormed s n log index ->
  indexWellFormed (storeSet n pd s) (S n) (log ++ [n])
                  (<[Index pd := n]> index).
Proof.
  intros Hadd Hwf k e Hk.
  apply lookup_insert_Some in Hk as [[<- <-]|[Hne Hk]].
  - rewrite storeSet_eq. split_and!; try done; [lia|].
    apply elem_of_app. right. by apply list_elem_of_singleton.
  - by apply (indexWellFormed_alloc s n log index pd n Hwf).
Qed.

Lemma logsAllocated_snoc (n : loc) (l1 l2 : list loc) :
  Forall (fun e => (e < n)%nat) (l1 ++ l2) ->
  Forall (fun e => (e < S n)%nat) (l1 ++ l2)
  /\ Forall (fun e => (e < S n)%nat) ((l1 ++ [n]) ++ l2)
  /\ Forall (fun e => (e < S n)%nat) (l1 ++ (l2 ++ [n])).
Proof.
  rewrite !Forall_app. intros [H1 H2].
  assert (H1' : Forall (fun e => (e < S n)%nat) l1).
  { eapply Forall_impl; [exact H1|]. simpl. lia. }
  assert (H2' : Forall (fun e => (e < S n)%nat) l2).
  { eapply Forall_impl; [exact H2|]. simpl. lia. }
  split_and!; try done; repeat constructor.
Qed.

(** Compaction keeps the index maps well formed. *)
Lemma compactLog_wellFormed s n lt rt iter :
  forall logA logB indexB indexA logA' logB' indexB' indexA',
    compactLog s lt rt iter logA logB indexB indexA
    = Some (logA', logB', indexB', indexA') ->
    indexWellFormed s n logA indexA -> indexWellFormed s n logB indexB ->
    indexWellFormed s n logA' indexA' /\ indexWellFormed s n logB' indexB'.
Proof.
  induction iter as [|e0 rest IH];
    intros logA logB indexB indexA logA' logB' indexB' indexA' Hrun HA HB.
  { by injection Hrun as <- <- <- <-. }
  rewrite compactLog_cons in Hrun.
  destruct (decide (evictable s lt rt e0)) as [Hev|Hev];
    [|by eapply IH].
  destruct (indexB !! ParentIndex (s e0)) as [parent|] eqn:Hparent;
    [|discriminate].
  eapply IH; [exact Hrun | |].
  - intros k e Hk. apply lookup_delete_Some in Hk as [Hne Hk].
    destruct (HA k e Hk) as (Hn & Ht & Hi & Hin).
    split_and!; try done. apply elem_of_listRemove. split; [done|].
    intros ->. destruct Hev as [Hna _]. contradiction.
  - intros k e Hk. apply lookup_delete_Some in Hk as [Hne Hk].
    destruct (HB k e Hk) as (Hn & Ht & Hi & Hin).
    split_and!; try done. apply elem_of_listRemove. split; [done|].
    intros ->. congruence.
Qed.

Lemma step_wellFormed lc op lc' :
  wellFormed lc -> step lc op = Some lc' -> wellFormed lc'.
Proof.
  intros Hwf. destruct op; cbn [step]; intros Hstep.
  - apply SignNextCommitment_later in Hstep as [Hl Hs].
    by apply (wellFormed_same lc).
  - apply ReceiveNewCommitment_later in Hstep as [Hl Hs].
    by apply (wellFormed_same lc).
  - apply RevokeCurrentCommitment_later in Hstep as [Hl Hs].
    apply (wellFormed_same lc); [done | by apply untouched_later | done].
  - pose proof (ReceiveRevocation_inv lc revMsg) as Hinv.
    destruct (ReceiveRevocation lc revMsg) as [fwd lc1|e lc1|];
      [| |discriminate]; injection Hstep as ->.
    + destruct Hinv as [(_ & Hl & Hs)
                       |(rt & lt & o1 & t1 & ti1 & oi1 & Hf & H1 & H2 & Hn)].
      * apply (wellFormed_same lc); [done | by apply untouched_later | done].
      * destruct Hwf as (Ha & Hwo & Hwt).
        pose proof (forwardPass_later _ _ _ _ _ _ Hf) as Hlater.
        apply (indexWellFormed_later _ _ _ _ _ Hlater) in Hwo, Hwt.
        destruct (compactLog_wellFormed _ _ _ _ _ _ _ _ _ _ _ _ _ H1 Hwo Hwt)
          as [Hwo1 Hwt1].
        destruct (compactLog_wellFormed _ _ _ _ _ _ _ _ _ _ _ _ _ H2 Hwt1 Hwo1)
          as [Hwt2 Hwo2].
        destruct (compactLog_spec _ _ _ _ _ _ _ _ _ _ _ _ H1)
          as (_ & _ & _ & _ & _ & Hs1 & Hs2).
        destruct (compactLog_spec _ _ _ _ _ _ _ _ _ _ _ _ H2)
          as (_ & _ & _ & _ & _ & Hs3 & Hs4).
        unfold wellFormed, logsAllocated. rewrite Hn.
        split_and!; try done.
        unfold logsAllocated in Ha. rewrite Forall_app in Ha |- *.
        destruct Ha as [Hao Hat]. split.
        -- rewrite Forall_forall in Hao |- *. intros x Hx. apply Hao.
           eapply elem_of_sublist; [|exact Hs1].
           eapply elem_of_sublist; [exact Hx | exact Hs4].
        -- rewrite Forall_forall in Hat |- *. intros x Hx. apply Hat.
           eapply elem_of_sublist; [|exact Hs2].
           eapply elem_of_sublist; [exact Hx | exact Hs3].
    + destruct Hinv as [Hl Hs].
      apply (wellFormed_same lc); [done | by apply untouched_later | done].
  - apply ExtendRevocationWindow_later in Hstep as [Hl Hs].
    apply (wellFormed_same lc); [done | by apply untouched_later | done].
  - revert Hstep. unfold AddHTLC.
    destruct (RedemptionHashes htlc); [discriminate|].
    destruct Hwf as (Ha & Hwo & Hwt).
    cbn. intros [= <-]. unfold wellFormed, logsAllocated. cbn.
    split_and!.
    + by apply logsAllocated_snoc.
    + by apply (indexWellFormed_insert _ _ _ _
                  (mkPD _ _ _ (ourLogCounter lc) _ _ _ _ _ _ _ _ _)).
    + by apply indexWellFormed_weaken.
  - revert Hstep. unfold ReceiveHTLC.
    destruct (RedemptionHashes htlc); [discriminate|].
    destruct Hwf as (Ha & Hwo & Hwt).
    cbn. intros [= <-]. unfold wellFormed, logsAllocated. cbn.
    split_and!.
    + by apply logsAllocated_snoc.
    + by apply indexWellFormed_weaken.
    + by apply (indexWellFormed_insert _ _ _ _
                  (mkPD _ _ _ (theirLogCounter lc) _ _ _ _ _ _ _ _ _)).
  - revert Hstep. unfold SettleHTLC.
    destruct (findTargetHTLC _ _ _) as [e|]; [|cbn; by intros [= <-]].
    destruct Hwf as (Ha & Hwo & Hwt).
    assert (Hlater : forall x,
              laterVersion (store lc x)
                (storeSet e (set_settled true (store lc e)) (store lc) x)).
    { intros x. apply storeSet_later, set_settled_later. }
    apply (indexWellFormed_later _ _ _ _ _ Hlater) in Hwo, Hwt.
    cbn. intros [= <-]. unfold wellFormed, logsAllocated. cbn.
    split_and!.
    + by apply logsAllocated_snoc.
    + by apply indexWellFormed_alloc.
    + by apply indexWellFormed_weaken.
  - revert Hstep. unfold ReceiveHTLCSettle.
    destruct (ourLogIndex lc !! logIndex) as [e|]; [|cbn; by intros [= <-]].
    destruct (decide _); [cbn; by intros [= <-]|].
    destruct Hwf as (Ha & Hwo & Hwt).
    cbn. intros [= <-]. unfold wellFormed, logsAllocated. cbn.
    split_and!.
    + by apply logsAllocated_snoc.
    + by apply indexWellFormed_weaken.
    + by apply indexWellFormed_alloc.
  - apply InitCooperativeClose_later in Hstep as [Hl Hs].
    apply (wellFormed_same lc); [done | by apply untouched_later | done].
  - apply CompleteCooperativeClose_later in Hstep as [Hl Hs].
    apply (wellFormed_same lc); [done | by apply untouched_later | done].
Qed.

Lemma NewLightningChannel_wellFormed state lc0 :
  NewLightningChannel state = inr lc0 -> wellFormed lc0.
Proof.
  unfold NewLightningChannel.
  destruct (witnessScriptHash _); [|discriminate].
  intros [= <-]. split_and!; [constructor | |];
    intros k e Hk; cbn in Hk; by rewrite lookup_empty in Hk.
Qed.

Lemma run_wellFormed ops :
  forall lc0 lc, wellFormed lc0 -> run lc0 ops = Some lc -> wellFormed lc.
Proof.
  induction ops as [|op ops IH]; intros lc0 lc Hinit; cbn [run].
  - by intros [= <-].
  - destruct (step lc0 op) as [lc1|] eqn:Hstep; [|discriminate].
    apply IH. by apply (step_wellFormed lc0 op).
Qed.

(** X16.  In every state a run of operations reaches from a channel made
    by [NewLightningChannel], every entry of the two logs is an allocated
    descriptor, and each index map leads only to allocated Add entries of
    its own log, each stored under its own Index. *)
Theorem reachable_states_well_formed
    (state : OpenChannel) (lc0 lc : LightningChannel) (ops : list Op) :
  NewLightningChannel state = inr lc0 ->
  run lc0 ops = Some lc ->
  wellFormed lc.
Proof.
  intros Hnew Hrun.
  apply (run_wellFormed ops lc0); [|done].
  by apply (NewLightningChannel_wellFormed state).
Qed.

(** X17.  No HTLC is handed to the forwarder twice.  If a call of
    [ReceiveRevocation] returns a list of entries to forward, then after
    any run of further operations no later call of [ReceiveRevocation]
    returns one of them again; the returned entries were entries of their
    log that had not been forwarded before, and the list has no
    duplicates. *)
Theorem no_htlc_forwarded_twice
    (lc lc1 lc2 lc3 : LightningChannel) (revMsg revMsg2 : CommitRevocation)
    (fwd fwd2 : list loc) (ops : list Op) :
  logsAllocated lc ->
  ReceiveRevocation lc revMsg = Return fwd lc1 ->
  run lc1 ops = Some lc2 ->
  ReceiveRevocation lc2 revMsg2 = Return fwd2 lc3 ->
  NoDup fwd
  /\ (forall e, e ∈ fwd ->
        e ∈ theirUpdateLog lc /\ isForwarded (store lc e) = false
        /\ isForwarded (store lc1 e) = true)
  /\ (forall e, e ∈ fwd -> e ∉ fwd2).
Proof.
  intros Halloc Hrev Hrun Hrev2.
  pose proof (ReceiveRevocation_inv lc revMsg) as Hinv.
  rewrite Hrev in Hinv.
  destruct Hinv as [(-> & _)
                   |(rt & lt & o1 & t1 & ti1 & oi1 & Hf & _ & _ & Hn)].
  { split_and!; [constructor | |]; intros e He; by apply elem_of_nil in He. }
  destruct (forwardPass_spec _ _ _ _ _ _ Hf) as (Hin & Hnd & _ & Hst).
  assert (Hmark : forall e, e ∈ fwd -> isForwarded (store lc1 e) = true).
  { intros e He. rewrite Hst. by rewrite decide_True. }
  split_and!; [exact Hnd | |].
  - intros e He. pose proof (Hmark e He).
    apply Hin in He as (? & ? & _). done.
  - intros e He He2.
    assert (Hlt : (e < nextLoc lc1)%nat).
    { rewrite Hn. apply Hin in He as (He & _).
      unfold logsAllocated in Halloc. rewrite Forall_app in Halloc.
      destruct Halloc as [_ Ht]. rewrite Forall_forall in Ht. by apply Ht. }
    destruct (run_storeGrows _ _ _ Hrun) as [_ Hlater].
    destruct (Hlater e Hlt) as (_ & _ & _ & _ & _ & _ & _ & _ & _ & _ & _
                                & Hfw & _).
    specialize (Hfw (Hmark e He)).
    pose proof (ReceiveRevocation_inv lc2 revMsg2) as Hinv2.
    rewrite Hrev2 in Hinv2.
    destruct Hinv2 as [(-> & _)
                      |(rt2 & lt2 & o2 & t2 & ti2 & oi2 & Hf2 & _)].
    { by apply elem_of_nil in He2. }
    destruct (forwardPass_spec _ _ _ _ _ _ Hf2) as (Hin2 & _).
    apply Hin2 in He2 as (_ & He2 & _). congruence.
Qed.

End LogInvariants.
(** ** What a commitment view holds *)

Lemma removedParents_nil s index : removedParents s index [] = ∅.
Proof. reflexivity. Qed.

Lemma removedParents_cons s index e rest :
  removedParents s index (e :: rest)
  = (if decide (EntryType (s e) = Add) then ∅
     else match index !! ParentIndex (s e) with
          | Some parent => {[ Index (s parent) ]}
          | None => ∅
          end) ∪ removedParents s index rest.
Proof.
  unfold removedParents. cbn [omap list_omap].
  destruct (decide (EntryType (s e) = Add)).
  { cbn. by rewrite (left_id_L ∅ (∪)). }
  destruct (index !! ParentIndex (s e)); cbn; [reflexivity|].
  by rewrite (left_id_L ∅ (∪)).
Qed.

Lemma removedParents_later s s' index entries :
  (forall x, laterVersion (s x) (s' x)) ->
  removedParents s' index entries = removedParents s index entries.
Proof.
  intros Hlater.
  assert (Hst : forall x, EntryType (s' x) = EntryType (s x)
                          /\ Index (s' x) = Index (s x)
                          /\ ParentIndex (s' x) = ParentIndex (s x)).
  { intros x. destruct (Hlater x) as (_ & _ & _ & ? & ? & _ & ? & _). done. }
  induction entries as [|e rest IH]; [reflexivity|].
  rewrite !removedParents_cons, IH.
  destruct (Hst e) as (-> & _ & ->).
  destruct (decide _); [reflexivity|].
  destruct (index !! _) as [parent|]; [|reflexivity].
  by destruct (Hst parent) as (_ & -> & _).
Qed.

Lemma liveAdds_later s s' removed entries :
  (forall x, laterVersion (s x) (s' x)) ->
  liveAdds s' removed entries = liveAdds s removed entries.
Proof.
  intros Hlater. unfold liveAdds.
  induction entries as [|e rest IH]; [reflexivity|].
  rewrite !filter_cons, IH.
  destruct (Hlater e) as (_ & _ & _ & -> & _ & _ & -> & _).
  reflexivity.
Qed.

Lemma removePass_skip index h rc inc entries :
  forall s skip o t s' skip' o' t',
    removePass index h rc inc entries s skip o t = Some (s', skip', o', t') ->
    skip' = removedParents s index entries ∪ skip.
Proof.
  induction entries as [|e rest IH]; intros s skip o t s' skip' o' t' Hrun.
  { injection Hrun as <- <- <- <-.
    by rewrite removedParents_nil, (left_id_L ∅ (∪)). }
  rewrite removedParents_cons. cbn [removePass] in Hrun.
  destruct (decide (EntryType (s e) = Add)).
  { rewrite (IH _ _ _ _ _ _ _ _ Hrun). by rewrite (left_id_L ∅ (∪)). }
  destruct (index !! ParentIndex (s e)) as [parent|]; [|discriminate].
  pose proof (processRemoveEntry_later (s e) o t h rc inc) as Hone.
  destruct (processRemoveEntry (s e) o t h rc inc) as [[entry' o1] t1].
  cbn [fst] in Hone.
  rewrite (IH _ _ _ _ _ _ _ _ Hrun).
  rewrite (removedParents_later s).
  - apply set_eq. intros x. rewrite !elem_of_union. tauto.
  - intros x. by apply storeSet_later.
Qed.

Lemma removePass_None index h rc inc entries :
  forall s skip o t,
    removePass index h rc inc entries s skip o t = None
    <-> exists e, e ∈ entries /\ EntryType (s e) <> Add
                  /\ index !! ParentIndex (s e) = None.
Proof.
  induction entries as [|e rest IH]; intros s skip o t.
  { cbn. split; [discriminate|]. intros (e & He & _).
    by apply elem_of_nil in He. }
  cbn [removePass].
  destruct (decide (EntryType (s e) = Add)) as [Ha|Ha].
  { rewrite IH. split.
    - intros (x & Hx & ?). exists x. split; [|done].
      apply elem_of_cons. by right.
    - intros (x & Hx & Hn & Hp). apply elem_of_cons in Hx as [->|Hx];
        [contradiction|]. eauto. }
  destruct (index !! ParentIndex (s e)) as [parent|] eqn:Hparent.
  2:{ split; [|done]. intros _. exists e. split_and!; try done.
      apply elem_of_cons. by left. }
  pose proof (processRemoveEntry_later (s e) o t h rc inc) as Hone.
  destruct (processRemoveEntry (s e) o t h rc inc) as [[entry' o1] t1].
  cbn [fst] in Hone. rewrite IH.
  assert (Hst : forall x,
            EntryType (storeSet e entry' s x) = EntryType (s x)
            /\ ParentIndex (storeSet e entry' s x) = ParentIndex (s x)).
  { intros x. destruct (storeSet_later e entry' s x Hone)
      as (_ & _ & _ & _ & ? & _ & ? & _). done. }
  split.
  - intros (x & Hx & Hn & Hp). destruct (Hst x) as [Ht Hpi].
    rewrite Ht in Hn. rewrite Hpi in Hp.
    exists x. split_and!; try done. apply elem_of_cons. by right.
  - intros (x & Hx & Hn & Hp). apply elem_of_cons in Hx as [->|Hx];
      [congruence|].
    destruct (Hst x) as [Ht Hpi].
    exists x. by rewrite Ht, Hpi.
Qed.

Lemma addPass_kept h rc inc skip entries :
  forall s o t s' kept o' t',
    addPass h rc inc skip entries s o t = (s', kept, o', t') ->
    kept = liveAdds s skip entries.
Proof.
  induction entries as [|e rest IH]; intros s o t s' kept o' t' Hrun.
  { by injection Hrun as <- <- <- <-. }
  cbn [addPass] in Hrun. unfold liveAdds. rewrite filter_cons.
  fold (liveAdds s skip rest).
  destruct (decide (EntryType (s e) = Add /\ Index (s e) ∉ skip))
    as [[Ha Hs]|Hno].
  - rewrite (bool_decide_eq_false_2 (EntryType (s e) <> Add)) in Hrun
      by tauto.
    rewrite (bool_decide_eq_false_2 _ Hs) in Hrun. cbn [orb] in Hrun.
    pose proof (processAddEntry_later (s e) o t h rc inc) as Hone.
    destruct (processAddEntry (s e) o t h rc inc) as [[entry' o1] t1].
    cbn [fst] in Hone.
    destruct (addPass h rc inc skip rest (storeSet e entry' s) o1 t1)
      as [[[s1 kept1] o2] t2] eqn:Hrest.
    injection Hrun as <- <- <- <-.
    rewrite (IH _ _ _ _ _ _ _ Hrest). f_equal.
    apply liveAdds_later. intros x. by apply storeSet_later.
  - assert (Hskip : bool_decide (EntryType (s e) <> Add)
                    || bool_decide (Index (s e) ∈ skip) = true).
    { destruct (decide (EntryType (s e) = Add)) as [Ha|Ha].
      - rewrite (bool_decide_eq_false_2 (EntryType (s e) <> Add)) by tauto.
        cbn [orb]. apply bool_decide_eq_true_2.
        destruct (decide (Index (s e) ∈ skip)); [done|tauto].
      - by rewrite (bool_decide_eq_true_2 _ Ha). }
    rewrite Hskip in Hrun. by apply (IH _ _ _ _ _ _ _ Hrun).
Qed.

Lemma sortInsert_length {A} (less : A -> A -> bool) x l :
  length (sortInsert less x l) = S (length l).
Proof.
  induction l as [|y l IH]; [reflexivity|]. cbn [sortInsert].
  destruct (less y x); cbn [length]; [by rewrite IH | reflexivity].
Qed.

Lemma sortBy_length {A} (less : A -> A -> bool) l :
  length (sortBy less l) = length l.
Proof.
  unfold sortBy. induction l as [|x l IH]; [reflexivity|].
  cbn [foldr]. by rewrite sortInsert_length, IH.
Qed.

Section ViewShape.
Context `{Ext : Externals}.

(** X18.  The view a commitment is built from holds exactly the Add
    entries of each log that are not named as parent by a Settle or
    Timeout entry present in the other log's part of the view, in log
    order; Settle and Timeout entries themselves are never in it.  The
    evaluation panics exactly when a Settle or Timeout entry names a
    parent that the other log's index map does not hold. *)
Theorem view_holds_live_htlcs
    (lc : LightningChannel) (view : htlcView) (ourBal theirBal : Z)
    (nextHeight : Z) (remoteChain : bool) :
  (forall filtered ourBal' theirBal' s',
     evaluateHTLCView lc view ourBal theirBal nextHeight remoteChain
     = Some (filtered, ourBal', theirBal', s') ->
     ourUpdates filtered
     = liveAdds (store lc)
         (removedParents (store lc) (ourLogIndex lc) (theirUpdates view))
         (ourUpdates view)
     /\ theirUpdates filtered
        = liveAdds (store lc)
            (removedParents (store lc) (theirLogIndex lc) (ourUpdates view))
            (theirUpdates view)
     /\ Forall (fun e => EntryType (s' e) = Add)
               (ourUpdates filtered ++ theirUpdates filtered))
  /\ (evaluateHTLCView lc view ourBal theirBal nextHeight remoteChain = None
      <-> exists e,
            EntryType (store lc e) <> Add
            /\ ((e ∈ ourUpdates view
                 /\ theirLogIndex lc !! ParentIndex (store lc e) = None)
                \/ (e ∈ theirUpdates view
                    /\ ourLogIndex lc !! ParentIndex (store lc e) = None))).
Proof.
  unfold evaluateHTLCView. split.
  - intros filtered ourBal' theirBal' s'.
    destruct (removePass _ _ _ _ _ _ _ _ _)
      as [[[[s1 skipThem] o1] t1]|] eqn:H1; [|discriminate].
    destruct (removePass _ _ _ _ _ s1 _ _ _)
      as [[[[s2 skipUs] o2] t2]|] eqn:H2; [|discriminate].
    destruct (addPass _ _ _ _ _ s2 _ _) as [[[s3 ourKept] o3] t3] eqn:H3.
    destruct (addPass _ _ _ _ _ s3 _ _) as [[[s4 theirKept] o4] t4] eqn:H4.
    intros [= <- <- <- <-]. cbn [ourUpdates theirUpdates].
    pose proof (removePass_later _ _ _ _ _ _ _ _ _ _ _ _ _ H1) as L1.
    pose proof (removePass_later _ _ _ _ _ _ _ _ _ _ _ _ _ H2) as L2.
    pose proof (addPass_later _ _ _ _ _ _ _ _ _ _ _ _ H3) as L3.
    pose proof (addPass_later _ _ _ _ _ _ _ _ _ _ _ _ H4) as L4.
    assert (L12 : forall x, laterVersion (store lc x) (s2 x)).
    { intros x. eapply laterVersion_trans; [apply L1 | apply L2]. }
    assert (L13 : forall x, laterVersion (store lc x) (s3 x)).
    { intros x. eapply laterVersion_trans; [apply L12 | apply L3]. }
    assert (L14 : forall x, laterVersion (store lc x) (s4 x)).
    { intros x. eapply laterVersion_trans; [apply L13 | apply L4]. }
    apply removePass_skip in H1, H2.
    rewrite (right_id_L ∅ (∪)) in H1, H2.
    rewrite (removedParents_later (store lc)) in H2 by exact L1.
    apply addPass_kept in H3, H4.
    rewrite (liveAdds_later (store lc)) in H3 by exact L12.
    rewrite (liveAdds_later (store lc)) in H4 by exact L13.
    subst. split_and!; try reflexivity.
    apply Forall_app. split; apply Forall_forall; intros e He;
      unfold liveAdds in He; apply list_elem_of_filter in He as [[Ha _] _];
      destruct (L14 e) as (_ & _ & _ & _ & _ & _ & Ht & _); congruence.
  - destruct (removePass _ _ _ _ _ _ _ _ _)
      as [[[[s1 skipThem] o1] t1]|] eqn:H1.
    + pose proof (removePass_later _ _ _ _ _ _ _ _ _ _ _ _ _ H1) as L1.
      assert (Hno1 : ~ exists e, e ∈ ourUpdates view
                        /\ EntryType (store lc e) <> Add
                        /\ theirLogIndex lc !! ParentIndex (store lc e)
                           = None).
      { intros Hex.
        apply (proj2 (removePass_None (theirLogIndex lc) nextHeight
                        remoteChain true (ourUpdates view) (store lc) ∅
                        ourBal theirBal)) in Hex.
        rewrite H1 in Hex. discriminate. }
      destruct (removePass _ _ _ _ _ s1 _ _ _)
        as [[[[s2 skipUs] o2] t2]|] eqn:H2.
      * destruct (addPass _ _ _ _ _ s2 _ _) as [[[s3 ourKept] o3] t3].
        destruct (addPass _ _ _ _ _ s3 _ _) as [[[s4 theirKept] o4] t4].
        split; [discriminate|].
        intros (e & Hn & [[He Hp]|[He Hp]]).
        -- exfalso. apply Hno1. eauto.
        -- assert (Hnone : removePass (ourLogIndex lc) nextHeight
                             remoteChain false (theirUpdates view) s1 ∅ o1 t1
                           = None).
           { apply removePass_None. exists e.
             destruct (L1 e) as (_ & _ & _ & _ & Hpi & _ & Ht & _).
             rewrite Ht, Hpi. done. }
           congruence.
      * split; [|done]. intros _.
        apply removePass_None in H2 as (e & He & Hn & Hp).
        destruct (L1 e) as (_ & _ & _ & _ & Hpi & _ & Ht & _).
        rewrite Ht in Hn. rewrite Hpi in Hp. eauto 10.
    + split; [|done]. intros _.
      apply removePass_None in H1 as (e & He & Hn & Hp). eauto 10.
Qed.

Lemma createCommitTx_shape fundingOutput selfKey theirKey revokeKey
    csvTimeout amountToSelf amountToThem tx :
  createCommitTx fundingOutput selfKey theirKey revokeKey csvTimeout
                 amountToSelf amountToThem = inr tx ->
  Version tx = 2 /\ txIn tx = [fundingOutput] /\ LockTime tx = 0
  /\ length (txOut tx)
     = (outputsFor amountToSelf + outputsFor amountToThem)%nat.
Proof.
  unfold createCommitTx.
  destruct (commitScriptToSelf _ _ _); [|discriminate].
  destruct (witnessScriptHash _); [|discriminate].
  destruct (commitScriptUnencumbered _); [|discriminate].
  intros [= <-]. unfold outputsFor.
  destruct (decide (amountToSelf = 0)), (decide (amountToThem = 0));
    destruct (decide (amountToSelf <> 0)), (decide (amountToThem <> 0));
    try contradiction; try tauto; split_and!; reflexivity.
Qed.

Lemma addHTLCs_shape lc tx ourCommit entries revocation delay inc tx' :
  addHTLCs lc tx ourCommit entries revocation delay inc = inr tx' ->
  Version tx' = Version tx /\ txIn tx' = txIn tx
  /\ LockTime tx' = LockTime tx
  /\ length (txOut tx') = (length (txOut tx) + length entries)%nat.
Proof.
  revert tx. induction entries as [|e rest IH]; intros tx; cbn [addHTLCs].
  { intros [= <-]. split_and!; try done; cbn [length]; lia. }
  destruct (addHTLC _ _ _ _ _ _ _) as [|tx1] eqn:Hone; [discriminate|].
  intros Hrest. destruct (IH _ Hrest) as (Hv & Hi & Hl & Hn).
  revert Hone. unfold addHTLC.
  destruct (match inc with true => _ | false => _ end); [|discriminate].
  destruct (witnessScriptHash _); [|discriminate].
  intros [= <-]. cbn in Hv, Hi, Hl, Hn.
  rewrite length_app in Hn. cbn in Hn |- *.
  split_and!; try done. lia.
Qed.

(** X19.  The transaction of a commitment built by [fetchCommitmentView]
    has version 2 and lock time 0, spends the funding input and nothing
    else, and has one output for each non-zero balance, one output for
    each HTLC of the filtered view and the OP_RETURN output. *)
Theorem commitment_transaction_shape
    (lc lc' : LightningChannel) (remoteChain : bool)
    (ourIdx theirIdx : Z) (key hash : bytes) (c : commitment) :
  fetchCommitmentView lc remoteChain ourIdx theirIdx key hash
  = Return c lc' ->
  exists t filtered tx,
    tip (chainOf lc remoteChain) = Some t
    /\ evaluateHTLCView lc (fetchHTLCView lc theirIdx ourIdx)
         (ourBalance t) (theirBalance t) (wrap64 (height t + 1)) remoteChain
       = Some (filtered, ourBalance c, theirBalance c, store lc')
    /\ txn c = Some tx
    /\ Version tx = 2 /\ LockTime tx = 0
    /\ txIn tx = [fundingTxIn lc]
    /\ length (txOut tx)
       = (outputsFor (ourBalance c) + outputsFor (theirBalance c)
          + length (ourUpdates filtered) + length (theirUpdates filtered)
          + 1)%nat.
Proof.
  unfold fetchCommitmentView. fold (chainOf lc remoteChain).
  destruct (tip _) as [t|]; [|discriminate].
  destruct (evaluateHTLCView _ _ _ _ _ _) as [[[[v ob] tb] s']|] eqn:Hev;
    [|discriminate].
  destruct (if remoteChain then _ else _)
    as [[[[selfKey remoteKey] delay] db] pb] eqn:Hside.
  destruct (createCommitTx _ _ _ _ _ _ _) as [|tx1] eqn:H1; [discriminate|].
  destruct (addHTLCs _ _ _ _ _ _ _) as [|tx2] eqn:H2; [discriminate|].
  destruct (addHTLCs _ tx2 _ _ _ _ _) as [|tx3] eqn:H3; [discriminate|].
  rewrite ColorifyTx_commit.
  destruct (EncodeCcInstructions _) as [opReturn|]; [|discriminate].
  intros [= <- <-]. exists t, v. eexists.
  split; [reflexivity|]. split; [exact Hev|]. split; [reflexivity|].
  apply createCommitTx_shape in H1 as (Hv1 & Hi1 & Hl1 & Hn1).
  apply addHTLCs_shape in H2 as (Hv2 & Hi2 & Hl2 & Hn2).
  apply addHTLCs_shape in H3 as (Hv3 & Hi3 & Hl3 & Hn3).
  cbn [Version LockTime txIn txOut InPlaceSort ourBalance theirBalance].
  split_and!.
  - congruence.
  - reflexivity.
  - rewrite Hi3, Hi2, Hi1. reflexivity.
  - rewrite length_app, length_map, sortBy_length, Hn3, Hn2, Hn1.
    cbn [length].
    assert (Hbal : (outputsFor db + outputsFor pb
                    = outputsFor ob + outputsFor tb)%nat).
    { destruct remoteChain; injection Hside as <- <- <- <- <-; lia. }
    lia.
Qed.

(** X20.  [ColorifyTx] in both modes: the result keeps the version and the
    inputs of the transaction but not its lock time, which is 0; each
    original output keeps its script and gets the value 8190 (15 times the
    dust amount) for a funding transaction and 546 otherwise; the
    instructions handed to the encoder are the same in both modes and
    carry the original values; the only error is the encoder's. *)
Theorem colorify_modes (tx : MsgTx) (isFunding : bool) :
  match EncodeCcInstructions (instructionsOf (txOut tx)) with
  | None => ColorifyTx tx isFunding = inl (ErrExt EncodeError)
  | Some opReturn =>
      exists newTx,
        ColorifyTx tx isFunding = inr newTx
        /\ Version newTx = Version tx
        /\ txIn newTx = txIn tx
        /\ LockTime newTx = 0
        /\ txOut newTx
           = map (fun o => mkTxOut (if isFunding then 8190 else 546)
                                   (PkScript o)) (txOut tx)
             ++ [mkTxOut 0 (OP_RETURN :: WriteVarBytes opReturn)]
  end.
Proof.
  unfold ColorifyTx. fold (instructionsOf (txOut tx)).
  destruct (EncodeCcInstructions _) as [opReturn|]; [|reflexivity].
  eexists. split; [reflexivity|].
  destruct isFunding.
  - rewrite (foldl_AddTxOut
               (fun o => NewTxOut (dustAmount * 15) (PkScript o))).
    rewrite foldl_AddTxIn. split_and!; reflexivity.
  - rewrite (foldl_AddTxOut (fun o => NewTxOut dustAmount (PkScript o))).
    rewrite foldl_AddTxIn. split_and!; reflexivity.
Qed.

End ViewShape.
(** ** The reservation workflow *)

Lemma foldl_lockOutpoint (selected : list OutPoint) (l : LightningWallet) :
  foldl (fun w coin => lockOutpoint coin w) l selected
  = mkWallet (fundingLimbo l) (nextFundingID l)
      (list_to_set selected ∪ lockedOutPoints l)
      (controllerCalls l ++ map CallLockOutpoint selected).
Proof.
  revert l. induction selected as [|coin rest IH]; intros l; cbn [foldl].
  - cbn. rewrite (left_id_L ∅ (∪)), app_nil_r. by destruct l.
  - rewrite IH. cbn. f_equal.
    + apply set_eq. intros x. rewrite !elem_of_union. tauto.
    + by rewrite <- app_assoc.
Qed.

Lemma foldl_unlockOutpoint (ins : list TxIn) (l : LightningWallet) :
  foldl (fun w (i : TxIn) => unlockOutpoint (PreviousOutPoint i) w) l ins
  = mkWallet (fundingLimbo l) (nextFundingID l)
      (lockedOutPoints l ∖ list_to_set (map PreviousOutPoint ins))
      (controllerCalls l
       ++ map CallUnlockOutpoint (map PreviousOutPoint ins)).
Proof.
  revert l. induction ins as [|i rest IH]; intros l; cbn [foldl].
  - cbn. rewrite app_nil_r. destruct l. cbn. f_equal.
    apply set_eq. intros x. rewrite elem_of_difference, elem_of_empty. tauto.
  - rewrite IH. cbn. f_equal.
    + apply set_eq. intros x.
      rewrite !elem_of_difference, elem_of_union, elem_of_singleton. tauto.
    + by rewrite <- app_assoc.
Qed.

(** X21.  [selectCoinsAndChange] returns the error of the coin listing or
    of the coin selection without locking anything or touching the
    contribution.  Once the selection has succeeded, every selected
    outpoint is locked (in the wallet's set and by one [LockOutpoint] call
    each, in selection order) and becomes an input of the contribution
    with empty scripts; a change output for the excess is recorded exactly
    when the excess is not zero.  If the change address or its script
    cannot be produced, the error is returned with the coins still
    locked. *)
Theorem select_coins_and_change_contract
    (answers : WalletAnswers) (l : LightningWallet) (feeRate amt : Z)
    (contribution : ChannelContribution) :
  (listUnspentWitness answers = None ->
   selectCoinsAndChange answers l feeRate amt contribution
   = Some (Some ErrController, l, contribution))
  /\ (forall coins e,
        listUnspentWitness answers = Some coins ->
        coinSelect feeRate amt coins (globallyActiveAssetId answers)
        = RErr e ->
        selectCoinsAndChange answers l feeRate amt contribution
        = Some (Some (ErrSelection e), l, contribution))
  /\ (forall coins selected change,
        listUnspentWitness answers = Some coins ->
        coinSelect feeRate amt coins (globallyActiveAssetId answers)
        = ROk (selected, change) ->
        exists err l' contribution',
          selectCoinsAndChange answers l feeRate amt contribution
          = Some (err, l', contribution')
          /\ lockedOutPoints l' = list_to_set selected ∪ lockedOutPoints l
          /\ controllerCalls l'
             = controllerCalls l ++ map CallLockOutpoint selected
          /\ fundingLimbo l' = fundingLimbo l
          /\ nextFundingID l' = nextFundingID l
          /\ Inputs contribution'
             = map (fun coin => NewTxIn coin [] []) selected
          /\ (change = 0 ->
              err = None
              /\ ChangeOutputs contribution' = ChangeOutputs contribution)
          /\ (change <> 0 ->
              match newChangeAddress answers with
              | None => err = Some ErrAddress
              | Some changeAddr =>
                  match payToAddrScript answers changeAddr with
                  | None => err = Some ErrAddrScript
                  | Some changeScript =>
                      err = None
                      /\ ChangeOutputs contribution'
                         = [mkTxOut change changeScript]
                  end
              end)).
Proof.
  unfold selectCoinsAndChange. split_and!.
  - by intros ->.
  - by intros coins e -> ->.
  - intros coins selected change -> ->. rewrite foldl_lockOutpoint.
    destruct (decide (change <> 0)) as [Hc|Hc].
    + destruct (newChangeAddress answers) as [changeAddr|].
      * destruct (payToAddrScript answers changeAddr) as [changeScript|];
          eexists _, _, _; (split; [reflexivity|]);
          cbn; split_and!; try done.
      * eexists _, _, _. split; [reflexivity|]. cbn. split_and!; done.
    + eexists _, _, _. split; [reflexivity|]. cbn. split_and!; try done.
Qed.

(** X22.  [handleFundingCancelRequest] fails for an id that is not in the
    limbo map and changes nothing.  For a reservation in limbo it unlocks
    the outpoint of each of the reservation's inputs (in the wallet's set
    and by one [UnlockOutpoint] call each) and removes the reservation, so
    that a second cancel of the same id fails. *)
Theorem funding_cancel_contract (l : LightningWallet) (id : Z) :
  (fundingLimbo l !! id = None ->
   handleFundingCancelRequest l id = (Some ErrUnknownFundingState, l))
  /\ (forall r,
        fundingLimbo l !! id = Some r ->
        exists l',
          handleFundingCancelRequest l id = (None, l')
          /\ fundingLimbo l' = delete id (fundingLimbo l)
          /\ lockedOutPoints l'
             = lockedOutPoints l ∖ list_to_set (reservedOutPoints r)
          /\ controllerCalls l'
             = controllerCalls l
               ++ map CallUnlockOutpoint (reservedOutPoints r)
          /\ nextFundingID l' = nextFundingID l
          /\ handleFundingCancelRequest l' id
             = (Some ErrUnknownFundingState, l')).
Proof.
  unfold handleFundingCancelRequest at 1 2. split.
  - by intros ->.
  - intros r ->. rewrite foldl_unlockOutpoint. eexists.
    split; [reflexivity|]. cbn. split_and!; try reflexivity.
    unfold handleFundingCancelRequest. cbn.
    by rewrite lookup_delete_eq.
Qed.

(** X23.  A reservation that is made and then cancelled leaves the limbo
    map and the set of locked outpoints as they were, provided the new id
    was free and none of the reservation's outpoints was locked before;
    only the id counter has advanced. *)
Theorem reserve_then_cancel
    (answers : WalletAnswers) (fresh : Z -> ChannelReservation)
    (l l1 : LightningWallet) (req : initFundingReserveMsg)
    (id : Z) (r : ChannelReservation) :
  handleFundingReserveRequest answers fresh l req = Some (inr (id, r), l1) ->
  fundingLimbo l !! id = None ->
  (forall o, o ∈ reservedOutPoints r -> o ∉ lockedOutPoints l) ->
  id = wrap64 (nextFundingID l + 1)
  /\ fundingLimbo l1 = <[id := r]> (fundingLimbo l)
  /\ (forall o, o ∈ lockedOutPoints l1 ->
        o ∈ lockedOutPoints l \/ o ∈ reservedOutPoints r)
  /\ exists l2,
       handleFundingCancelRequest l1 id = (None, l2)
       /\ fundingLimbo l2 = fundingLimbo l
       /\ lockedOutPoints l2 = lockedOutPoints l
       /\ nextFundingID l2 = id.
Proof.
  unfold handleFundingReserveRequest. intros Hres Hfree Hunlocked.
  set (l0 := mkWallet (fundingLimbo l) (wrap64 (nextFundingID l + 1))
               (lockedOutPoints l) (controllerCalls l)) in *.
  set (c0 := set_CsvDelay (csvDelay req)
               (ourContribution (fresh (wrap64 (nextFundingID l + 1))))) in *.
  assert (Hsel : forall l' c',
            (if decide (fundingAmount req <> 0)
             then selectCoinsAndChange answers l0 10
                    (wrapI64 (fundingAmount req + commitFee)) c0
             else Some (None, l0, c0)) = Some (None, l', c') ->
            fundingLimbo l' = fundingLimbo l
            /\ nextFundingID l' = wrap64 (nextFundingID l + 1)
            /\ (forall o, o ∈ lockedOutPoints l' ->
                  o ∈ lockedOutPoints l
                  \/ o ∈ map PreviousOutPoint (Inputs c'))
            /\ (forall o, o ∈ lockedOutPoints l -> o ∈ lockedOutPoints l')).
  { intros l' c'. destruct (decide _); [|intros [= <- <-]; auto].
    unfold selectCoinsAndChange.
    destruct (listUnspentWitness answers) as [coins|]; [|discriminate].
    destruct (coinSelect _ _ _ _) as [[selected change]| |];
      [|discriminate|discriminate].
    rewrite foldl_lockOutpoint.
    assert (Hin : forall o, o ∈ selected ->
              o ∈ map PreviousOutPoint
                    (map (fun coin => NewTxIn coin [] []) selected)).
    { intros o Ho. rewrite map_map. cbn. by rewrite map_id. }
    destruct (decide (change <> 0)).
    - destruct (newChangeAddress answers) as [a|]; [|discriminate].
      destruct (payToAddrScript answers a); [|discriminate].
      intros [= <- <-]. cbn. split_and!; try done.
      + intros o. rewrite elem_of_union, elem_of_list_to_set.
        intros [Ho|Ho]; [right; by apply Hin | by left].
      + intros o Ho. apply elem_of_union. by right.
    - intros [= <- <-]. cbn. split_and!; try done.
      + intros o. rewrite elem_of_union, elem_of_list_to_set.
        intros [Ho|Ho]; [right; by apply Hin | by left].
      + intros o Ho. apply elem_of_union. by right. }
  destruct (if decide (fundingAmount req <> 0) then _ else _)
    as [[[[err|] l'] c']|]; [discriminate| |discriminate].
  destruct (Hsel l' c' eq_refl) as (Hlimbo & Hnext & Hlocked & Hkept).
  destruct (newRawKeys answers) as [[multiSigKey|] [commitKey|]];
    try discriminate.
  destruct (newDeliveryAddress answers) as [deliveryAddress|];
    [|discriminate].
  destruct (payToAddrScript answers deliveryAddress) as [deliveryScript|];
    [|discriminate].
  injection Hres as <- <- <-.
  split; [reflexivity|]. split; [cbn; by rewrite Hlimbo|].
  split; [exact Hlocked|].
  unfold handleFundingCancelRequest. cbn [fundingLimbo].
  rewrite lookup_insert_eq, foldl_unlockOutpoint. eexists.
  split; [reflexivity|]. cbn. split_and!.
  - rewrite delete_insert_eq, Hlimbo. by apply delete_id.
  - apply set_eq. intros o.
    rewrite elem_of_difference, elem_of_list_to_set. split.
    + intros [Ho Hn]. destruct (Hlocked o Ho) as [?|?]; [done|].
      contradiction.
    + intros Ho. split; [by apply Hkept|].
      intros Hr. by apply (Hunlocked o).
  - exact Hnext.
Qed.

(** X24.  A reservation request that fails consumes its id and records
    nothing in the limbo map.  If the failure comes after the coin
    selection (a change address, a key or the delivery address could not
    be produced), the selected outpoints stay locked, although no
    reservation holds them. *)
Theorem failed_reservation_keeps_locks
    (answers : WalletAnswers) (fresh : Z -> ChannelReservation)
    (l l1 : LightningWallet) (req : initFundingReserveMsg)
    (err : WalletError) :
  handleFundingReserveRequest answers fresh l req = Some (inl err, l1) ->
  fundingLimbo l1 = fundingLimbo l
  /\ nextFundingID l1 = wrap64 (nextFundingID l + 1)
  /\ (forall coins selected change,
        fundingAmount req <> 0 ->
        listUnspentWitness answers = Some coins ->
        coinSelect 10 (wrapI64 (fundingAmount req + commitFee)) coins
                   (globallyActiveAssetId answers)
        = ROk (selected, change) ->
        lockedOutPoints l1 = list_to_set selected ∪ lockedOutPoints l
        /\ controllerCalls l1
           = controllerCalls l ++ map CallLockOutpoint selected
        /\ (err = ErrAddress \/ err = ErrAddrScript \/ err = ErrRawKey))
  /\ ((fundingAmount req = 0
       \/ err = ErrController \/ exists e, err = ErrSelection e) ->
      lockedOutPoints l1 = lockedOutPoints l
      /\ controllerCalls l1 = controllerCalls l).
Proof.
  unfold handleFundingReserveRequest. intros Hres.
  (* the part after the coin selection, on a wallet [w] *)
  assert (Hkeys : forall w c,
            match newRawKeys answers with
            | (None, _) | (Some _, None) => Some (inl ErrRawKey, w)
            | (Some multiSigKey, Some commitKey) =>
                match newDeliveryAddress answers with
                | None => Some (inl ErrAddress, w)
                | Some deliveryAddress =>
                    match payToAddrScript answers deliveryAddress with
                    | None => Some (inl ErrAddrScript, w)
                    | Some deliveryScript =>
                        Some (inr (wrap64 (nextFundingID l + 1),
                                   c multiSigKey commitKey deliveryAddress
                                     deliveryScript),
                              mkWallet
                                (<[wrap64 (nextFundingID l + 1)
                                   := c multiSigKey commitKey deliveryAddress
                                        deliveryScript]> (fundingLimbo w))
                                (nextFundingID w) (lockedOutPoints w)
                                (controllerCalls w))
                    end
                end
            end = Some (inl err, l1) ->
            l1 = w
            /\ (err = ErrAddress \/ err = ErrAddrScript \/ err = ErrRawKey)).
  { intros w c.
    destruct (newRawKeys answers) as [[multiSigKey|] [commitKey|]];
      try (intros [= <- <-]; auto).
    destruct (newDeliveryAddress answers) as [deliveryAddress|];
      try (intros [= <- <-]; auto).
    destruct (payToAddrScript answers deliveryAddress);
      [discriminate | intros [= <- <-]; auto]. }
  destruct (decide (fundingAmount req <> 0)) as [Hf|Hf].
  - unfold selectCoinsAndChange in Hres. cbn [fundingLimbo] in Hres.
    destruct (listUnspentWitness answers) as [coins|].
    2:{ injection Hres as <- <-. by split_and!. }
    destruct (coinSelect _ _ _ _) as [[selected change]|e|] eqn:Hsel;
      [| |discriminate].
    2:{ injection Hres as <- <-. split_and!; try done.
        intros coins' selected' change' _ [= <-] Hok. congruence. }
    rewrite foldl_lockOutpoint in Hres.
    assert (Hgoal : l1 = mkWallet (fundingLimbo l)
                           (wrap64 (nextFundingID l + 1))
                           (list_to_set selected ∪ lockedOutPoints l)
                           (controllerCalls l
                            ++ map CallLockOutpoint selected)
              /\ (err = ErrAddress \/ err = ErrAddrScript
                  \/ err = ErrRawKey)).
    { destruct (decide (change <> 0)).
      - destruct (newChangeAddress answers) as [a|].
        2:{ injection Hres as <- <-. auto. }
        destruct (payToAddrScript answers a).
        2:{ injection Hres as <- <-. auto. }
        eapply Hkeys. exact Hres.
      - eapply Hkeys. exact Hres. }
    destruct Hgoal as [-> Herr]. cbn.
    split_and!; try done.
    + intros coins' selected' change' _ [= <-] Hok.
      rewrite Hsel in Hok. by injection Hok as <- <-.
    + intros [?|[->|[e ->]]]; [contradiction| |];
        destruct Herr as [?|[?|?]]; discriminate.
  - assert (Hz : fundingAmount req = 0).
    { destruct (decide (fundingAmount req = 0)); [done|contradiction]. }
    apply Hkeys in Hres as [-> Herr]. cbn.
    by split_and!.
Qed.

(** ** The wallet driver registry *)

Lemma registerAll_snoc drivers driver :
  registerAll (drivers ++ [driver])
  = match RegisterWallet driver (registerAll drivers) with
    | Some wallets' => wallets'
    | None => registerAll drivers
    end.
Proof. unfold registerAll. by rewrite foldl_app. Qed.

(** X25.  [RegisterWallet] fails exactly when a driver of the same wallet
    type is registered, and then the registry is as before.  Otherwise
    the driver is stored under its type and nothing else changes:
    [SupportedWallets] and [RegisteredWallets] list one more entry, the
    new type and the new driver.  A registered driver is never replaced:
    after any sequence of registrations the driver found under a type is
    the first one of the sequence with that type.  [SupportedWallets]
    never lists a type twice. *)
Theorem register_wallet_contract
    (driver : WalletDriver) (wallets : gmap string WalletDriver) :
  (RegisterWallet driver wallets = None
   <-> is_Some (wallets !! WalletType driver))
  /\ (forall wallets',
        RegisterWallet driver wallets = Some wallets' ->
        wallets' !! WalletType driver = Some driver
        /\ (forall name, name <> WalletType driver ->
                         wallets' !! name = wallets !! name)
        /\ SupportedWallets wallets'
           ≡ₚ WalletType driver :: SupportedWallets wallets
        /\ RegisteredWallets wallets' ≡ₚ driver :: RegisteredWallets wallets
        /\ forall other, WalletType other = WalletType driver ->
                         RegisterWallet other wallets' = None)
  /\ NoDup (SupportedWallets wallets)
  /\ (forall name,
        name ∈ SupportedWallets wallets <-> is_Some (wallets !! name))
  /\ (forall drivers name,
        registerAll drivers !! name
        = head (filter (fun d => WalletType d = name) drivers)).
Proof.
  unfold RegisterWallet. split_and!.
  - destruct (wallets !! WalletType driver) as [d|]; split; try done;
      try (intros _; eauto); try (intros [? ?]; discriminate).
  - intros wallets'.
    destruct (wallets !! WalletType driver) as [d|] eqn:Hfree; [discriminate|].
    intros [= <-]. split_and!.
    + apply lookup_insert_eq.
    + intros name Hne. by apply lookup_insert_ne.
    + unfold SupportedWallets. by rewrite map_to_list_insert.
    + unfold RegisteredWallets. by rewrite map_to_list_insert.
    + intros other ->. by rewrite lookup_insert_eq.
  - unfold SupportedWallets. apply NoDup_fst_map_to_list.
  - intros name. unfold SupportedWallets.
    rewrite list_elem_of_fmap. split.
    + intros ([k d] & -> & Hin). apply elem_of_map_to_list in Hin. eauto.
    + intros [d Hd]. exists (name, d). split; [done|].
      by apply elem_of_map_to_list.
  - intros drivers name.
    induction drivers as [|d drivers IH] using rev_ind; [done|].
    rewrite registerAll_snoc, filter_app. unfold RegisterWallet.
    destruct (registerAll drivers !! WalletType d) as [d0|] eqn:Hd.
    + rewrite IH. rewrite filter_cons, filter_nil.
      destruct (decide (WalletType d = name)) as [<-|Hne].
      * rewrite IH in Hd.
        destruct (filter _ drivers); [discriminate|reflexivity].
      * by rewrite app_nil_r.
    + rewrite filter_cons, filter_nil.
      destruct (decide (WalletType d = name)) as [<-|Hne].
      * rewrite lookup_insert_eq. rewrite IH in Hd.
        destruct (filter _ drivers); [reflexivity|discriminate].
      * rewrite lookup_insert_ne by done. by rewrite app_nil_r.
Qed.
(** ** Removals that name the same parent *)

(** One pass of [compactLog] that returns leaves the Settle/Timeout entries
    of the other log in place, in their order: the entries it takes out of
    [logB] come from the index map, which holds Add entries. *)
Lemma compactLog_removals_stay s lt rt iter :
  forall logA logB indexB indexA logA' logB' indexB' indexA',
    indexesAdds s indexB ->
    compactLog s lt rt iter logA logB indexB indexA
    = Some (logA', logB', indexB', indexA') ->
    filter (evictable s lt rt) logB' = filter (evictable s lt rt) logB.
Proof.
  induction iter as [|e0 rest IH];
    intros logA logB indexB indexA logA' logB' indexB' indexA' Hadds Hrun.
  { by injection Hrun as <- <- <- <-. }
  rewrite compactLog_cons in Hrun.
  destruct (decide (evictable s lt rt e0)) as [Hev|Hev].
  - destruct (indexB !! ParentIndex (s e0)) as [parent|] eqn:Hparent;
      [|discriminate].
    apply IH in Hrun.
    + rewrite Hrun. unfold listRemove. rewrite list_filter_filter.
      apply list_filter_iff. intros x. split; [by intros [? _]|].
      intros Hx. split; [done|]. intros ->.
      destruct Hx as [Hx _]. apply Hx. by apply (Hadds _ _ Hparent).
    + intros k e Hk. apply lookup_delete_Some in Hk as [_ Hk].
      by apply (Hadds _ _ Hk).
  - by apply (IH _ _ _ _ _ _ _ _ Hadds Hrun).
Qed.

(** One pass of [compactLog] can only return when no two evictable entries
    name the same parent: the first one deletes the parent's key. *)
Lemma compactLog_distinct_parents s lt rt iter :
  forall logA logB indexB indexA logA' logB' indexB' indexA',
    (forall k e, indexB !! k = Some e -> Index (s e) = k) ->
    compactLog s lt rt iter logA logB indexB indexA
    = Some (logA', logB', indexB', indexA') ->
    NoDup ((fun e => ParentIndex (s e))
           <$> filter (evictable s lt rt) iter).
Proof.
  induction iter as [|e0 rest IH];
    intros logA logB indexB indexA logA' logB' indexB' indexA' Hkeys Hrun.
  { constructor. }
  rewrite compactLog_cons in Hrun.
  destruct (decide (evictable s lt rt e0)) as [Hev|Hev].
  - rewrite filter_cons_True by done.
    destruct (indexB !! ParentIndex (s e0)) as [parent|] eqn:Hparent;
      [|discriminate].
    rewrite fmap_cons. apply NoDup_cons. split.
    + intros Hin. apply list_elem_of_fmap in Hin as (e & Hsame & Hin).
      apply list_elem_of_filter in Hin as [Heve Hin].
      destruct (compactLog_spec _ _ _ _ _ _ _ _ _ _ _ _ Hrun)
        as (_ & _ & _ & _ & Hgone & _).
      destruct (Hgone e Hin Heve) as (p & Hp & _).
      rewrite <- Hsame, <- (Hkeys _ _ Hparent) in Hp.
      by rewrite lookup_delete_eq in Hp.
    + apply (IH _ _ _ _ _ _ _ _) in Hrun; [done|].
      intros k e Hk. apply lookup_delete_Some in Hk as [_ Hk].
      by apply Hkeys.
  - rewrite filter_cons_False by done.
    by apply (IH _ _ _ _ _ _ _ _ Hkeys Hrun).
Qed.

Lemma duplicate_parents s lt rt (pre mid post : list loc) e1 e2 :
  evictable s lt rt e1 -> evictable s lt rt e2 ->
  ParentIndex (s e1) = ParentIndex (s e2) ->
  ~ NoDup ((fun e => ParentIndex (s e))
           <$> filter (evictable s lt rt) (pre ++ e1 :: mid ++ e2 :: post)).
Proof.
  intros H1 H2 Hsame.
  rewrite filter_app, filter_cons_True, filter_app, filter_cons_True by done.
  rewrite fmap_app, fmap_cons, fmap_app, fmap_cons.
  intros Hnd. apply NoDup_app in Hnd as (_ & _ & Hnd).
  apply NoDup_cons in Hnd as [Hnotin _]. apply Hnotin.
  apply elem_of_app. right. rewrite Hsame. apply elem_of_cons. by left.
Qed.

(** X26.  Compaction panics on duplicate removals.  On a well-formed
    channel, when one of the two logs holds two evictable Settle/Timeout
    entries that name the same parent, [compactLogs] does not return: the
    first eviction deletes the parent's key from the index map and the
    second one dereferences the missing map entry. *)
Theorem duplicate_removals_panic
    (lc : LightningChannel) (localChainTail remoteChainTail : Z)
    (pre mid post : list loc) (e1 e2 : loc) :
  wellFormed lc ->
  ourUpdateLog lc = pre ++ e1 :: mid ++ e2 :: post
  \/ theirUpdateLog lc = pre ++ e1 :: mid ++ e2 :: post ->
  evictable (store lc) localChainTail remoteChainTail e1 ->
  evictable (store lc) localChainTail remoteChainTail e2 ->
  ParentIndex (store lc e1) = ParentIndex (store lc e2) ->
  compactLogs lc localChainTail remoteChainTail = None.
Proof.
  intros (_ & Wour & Wtheir) Hlog H1 H2 Hsame. unfold compactLogs.
  destruct (compactLog _ _ _ (ourUpdateLog lc) _ _ _ _)
    as [[[[our1 their1] theirIdx1] ourIdx1]|] eqn:Hpass1; [|reflexivity].
  destruct (compactLog _ _ _ their1 _ _ _ _)
    as [[[[their2 our2] ourIdx2] theirIdx2]|] eqn:Hpass2; [|reflexivity].
  exfalso. destruct Hlog as [Hlog|Hlog].
  - apply compactLog_distinct_parents in Hpass1.
    + rewrite Hlog in Hpass1. by apply duplicate_parents in Hpass1.
    + intros k e Hk. by destruct (Wtheir k e Hk) as (_ & _ & ? & _).
  - apply compactLog_removals_stay in Hpass1 as Hstay.
    2:{ intros k e Hk. by destruct (Wtheir k e Hk) as (_ & ? & _). }
    apply compactLog_distinct_parents in Hpass2.
    + rewrite Hstay, Hlog in Hpass2. by apply duplicate_parents in Hpass2.
    + destruct (compactLog_spec _ _ _ _ _ _ _ _ _ _ _ _ Hpass1)
        as (_ & _ & _ & Hsub & _).
      intros k e Hk. apply Hsub in Hk.
      by destruct (Wour k e Hk) as (_ & _ & ? & _).
Qed.

(** A remote party that settles one outgoing HTLC twice brings the channel
    down: once both settlements are locked in, receiving the revocation
    panics in compaction. *)
Lemma duplicate_settle_run_panics :
  @run testExternals testChannel
       (testDuplicateSettle ++ [OpReceiveRevocation testRevocation2]) = None.
Proof. vm_compute. reflexivity. Qed.

(** ** Receiving a revocation *)

Section Revocation.
Context `{Ext : Externals}.

(** X27.  [ReceiveRevocation] with a non-zero pre-image returns only when
    the pre-image extends the remote elkrem receiver, derives the stored
    revocation key and (when a hash is stored) hashes to the stored
    revocation hash.  It then takes the oldest used revocation, whose next
    key and hash become the stored ones, appends the message to the
    revocation window, drops the oldest commitment of the remote chain and
    keeps the receiver with the pre-image added; the local side and the
    status are as before. *)
Theorem receive_revocation_contract
    (lc lc' : LightningChannel) (revMsg : CommitRevocation) (fwd : list loc) :
  Revocation revMsg <> zeroHash ->
  ReceiveRevocation lc revMsg = Return fwd lc' ->
  exists used rest revoked chainRest remoteElkrem,
    usedRevocations lc = used :: rest
    /\ commitments (remoteCommitChain lc) = revoked :: chainRest
    /\ elkremAddNext (RemoteElkrem (channelState lc)) (Revocation revMsg)
       = Some remoteElkrem
    /\ PubKey (deriveRevocationPrivKey (OurCommitKey (channelState lc))
                                       (Revocation revMsg))
       = TheirCurrentRevocation (channelState lc)
    /\ (TheirCurrentRevocationHash (channelState lc) = zeroHash
        \/ TheirCurrentRevocationHash (channelState lc)
           = sha256 (Revocation revMsg))
    /\ usedRevocations lc' = rest
    /\ revocationWindow lc' = revocationWindow lc ++ [revMsg]
    /\ commitments (remoteCommitChain lc') = chainRest
    /\ channelState lc'
       = set_TheirCurrentRevocation (NextRevocationKey used)
           (NextRevocationHash used)
           (set_RemoteElkrem remoteElkrem (channelState lc))
    /\ localState lc' = localState lc
    /\ status lc' = status lc.
Proof.
  intros Hnz. unfold ReceiveRevocation.
  destruct (decide (zeroHash = Revocation revMsg)) as [Hz|_]; [by symmetry in Hz|].
  destruct (elkremAddNext _ _) as [remoteElkrem|] eqn:Helk; [|discriminate].
  destruct (decide _) as [|Hkey]; [discriminate|].
  destruct (_ && _) eqn:Hhash; [discriminate|].
  cbn [usedRevocations set_channelState].
  destruct (usedRevocations lc) as [|used rest] eqn:Hused; [discriminate|].
  cbn [remoteCommitChain set_revocations set_channelState].
  unfold tail at 1, advanceTail.
  destruct (commitments (remoteCommitChain lc)) as [|revoked chainRest]
    eqn:Hchain; [discriminate|].
  cbn [head].
  destruct (negb _); [discriminate|].
  cbn [remoteCommitChain localCommitChain set_remoteCommitChain
       set_revocations set_channelState theirUpdateLog store].
  destruct (tail _) as [rtl|]; [|discriminate].
  destruct (tail (localCommitChain lc)) as [ltl|]; [|discriminate].
  destruct (forwardPass _ _ _ _) as [s' fwd'].
  destruct (compactLogs _ _ _) as [lc5|] eqn:Hcompact; [|discriminate].
  intros [= <- <-].
  apply compactLogs_frame in Hcompact as (l1 & i1 & l2 & i2 & ->).
  exists used, rest, revoked, chainRest, remoteElkrem.
  split_and!; try reflexivity.
  - by apply dec_stable.
  - cbn [channelState set_channelState TheirCurrentRevocationHash
         set_RemoteElkrem] in Hhash.
    apply andb_false_iff in Hhash as [Hh|Hh];
      apply bool_decide_eq_false in Hh; apply dec_stable in Hh; auto.
Qed.

End Revocation.
(** ** The shared funding input *)

Section Sharing.
Context `{Ext : Externals}.

Ltac split_matches :=
  repeat match goal with
    | |- context [match ?x with _ => _ end] => destruct x eqn:?
    end.

Ltac same_side :=
  split_matches; cbn [after]; intros Hafter;
  first [discriminate Hafter | injection Hafter as <-; reflexivity].

Lemma fundingShared_same lc lc' :
  sharedSide lc' = sharedSide lc -> fundingShared lc -> fundingShared lc'.
Proof.
  unfold sharedSide, fundingShared, tail.
  intros [= Hr Hl Hf Ho]. rewrite Hr, Hl, Hf, Ho. done.
Qed.

(** A commitment built by [fetchCommitmentView] spends the funding input
    and nothing else. *)
Lemma fetchCommitmentView_txIn lc remoteChain ourIdx theirIdx key hash c lc'
    tx :
  fetchCommitmentView lc remoteChain ourIdx theirIdx key hash
  = Return c lc' ->
  txn c = Some tx -> txIn tx = [fundingTxIn lc].
Proof.
  unfold fetchCommitmentView.
  destruct (tip _) as [t|]; [|discriminate].
  destruct (evaluateHTLCView _ _ _ _ _ _) as [[[[v ob] tb] s']|];
    [|discriminate].
  destruct (if remoteChain then _ else _)
    as [[[[selfKey remoteKey] delay] db] pb].
  destruct (createCommitTx _ _ _ _ _ _ _) as [|tx1] eqn:H1; [discriminate|].
  destruct (addHTLCs _ _ _ _ _ _ _) as [|tx2] eqn:H2; [discriminate|].
  destruct (addHTLCs _ tx2 _ _ _ _ _) as [|tx3] eqn:H3; [discriminate|].
  rewrite ColorifyTx_commit.
  destruct (EncodeCcInstructions _) as [opReturn|]; [|discriminate].
  intros [= <- <-] [= <-].
  apply createCommitTx_shape in H1 as (_ & Hi1 & _).
  apply addHTLCs_shape in H2 as (_ & Hi2 & _).
  apply addHTLCs_shape in H3 as (_ & Hi3 & _).
  cbn [txIn InPlaceSort]. rewrite Hi3, Hi2, Hi1. reflexivity.
Qed.

Lemma SignNextCommitment_shared lc lc' :
  after (SignNextCommitment lc) = Some lc' ->
  sharedSide lc' = sharedSide lc
  \/ exists c,
       (forall tx, txn c = Some tx -> txIn tx = [fundingTxIn lc])
       /\ sharedSide lc'
          = (commitments (remoteCommitChain lc) ++ [c],
             commitments (localCommitChain lc), fundingTxIn lc,
             OurCommitTx (channelState lc)).
Proof.
  pose proof (SignNextCommitment_inv lc) as Hinv.
  destruct (SignNextCommitment lc) as [[sig idx] lc1|e lc1|];
    [| |discriminate]; cbn [after]; intros [= <-].
  - destruct Hinv as (r & w & t & c & lc2 & tx & _ & _ & _ & Hfetch
                      & [s' ->] & _ & _ & _ & _ & _ & _ & ->).
    right. exists c. split; [|reflexivity].
    intros tx'. by apply (fetchCommitmentView_txIn _ _ _ _ _ _ _ _ _ Hfetch).
  - left. destruct Hinv as [(_ & -> & _)|[_ [s' ->]]]; reflexivity.
Qed.

Lemma ReceiveNewCommitment_shared lc rawSig i lc' :
  after (ReceiveNewCommitment lc rawSig i) = Some lc' ->
  sharedSide lc' = sharedSide lc
  \/ exists c,
       (forall tx, txn c = Some tx -> txIn tx = [fundingTxIn lc])
       /\ commitments (localCommitChain lc) <> []
       /\ sharedSide lc'
          = (commitments (remoteCommitChain lc),
             commitments (localCommitChain lc) ++ [c], fundingTxIn lc,
             OurCommitTx (channelState lc)).
Proof.
  unfold ReceiveNewCommitment.
  destruct (elkremAtIndex _ _) as [revocation|];
    [|cbn; intros [= <-]; auto].
  pose proof (fetchCommitmentView_inv lc false i (theirLogCounter lc)
                (deriveRevocationPubkey (TheirCommitKey (channelState lc))
                                        revocation)
                (sha256 revocation)) as Hinv.
  destruct (fetchCommitmentView _ _ _ _ _ _) as [c lc1|e lc1|] eqn:Hfetch;
    [|destruct Hinv as [_ [s' ->]]; cbn; intros [= <-]; auto|discriminate].
  destruct Hinv as (t & filtered & s' & Htip & _ & -> & _).
  destruct (txn c) as [tx|] eqn:Htx; [|discriminate].
  destruct (CalcWitnessSigHash _ _ _ _); [|cbn; intros [= <-]; auto].
  destruct (ParseSignature rawSig); [|cbn; intros [= <-]; auto].
  destruct (negb _); cbn [after]; intros [= <-]; [auto|].
  right. eexists. split_and!; [| |reflexivity].
  - cbn [txn]. intros tx' [= <-].
    by apply (fetchCommitmentView_txIn _ _ _ _ _ _ _ _ _ Hfetch).
  - intros Hnil. unfold chainOf, tip in Htip. by rewrite Hnil in Htip.
Qed.

Lemma RevokeCurrentCommitment_shared lc lc' :
  after (RevokeCurrentCommitment lc) = Some lc' ->
  sharedSide lc' = sharedSide lc
  \/ exists old new rest,
       commitments (localCommitChain lc) = old :: new :: rest
       /\ sharedSide lc'
          = (commitments (remoteCommitChain lc), new :: rest,
             fundingTxIn lc, txn new).
Proof.
  unfold RevokeCurrentCommitment.
  destruct (elkremAtIndex _ _) as [cur|]; [|cbn; intros [= <-]; auto].
  cbn [channelState set_revocationWindowEdge revocationWindowEdge].
  destruct (elkremAtIndex _ _) as [edge|]; [|cbn; intros [= <-]; auto].
  cbn [localCommitChain set_revocationWindowEdge].
  unfold advanceTail.
  destruct (commitments (localCommitChain lc)) as [|old rest] eqn:Hchain;
    [discriminate|].
  cbn [localCommitChain set_localCommitChain set_currentHeight tail
       commitments].
  destruct rest as [|new rest]; [discriminate|].
  unfold tail. cbn [commitments head].
  destruct (negb _); cbn [after]; intros [= <-]; right;
    exists old, new, rest; done.
Qed.

Lemma compactLogs_shared lc lt rt lc' :
  compactLogs lc lt rt = Some lc' -> sharedSide lc' = sharedSide lc.
Proof.
  intros Hc. by apply compactLogs_frame in Hc as (l1 & i1 & l2 & i2 & ->).
Qed.

Lemma ReceiveRevocation_shared lc revMsg lc' :
  after (ReceiveRevocation lc revMsg) = Some lc' ->
  sharedSide lc' = sharedSide lc
  \/ exists c,
       sharedSide lc'
       = (commitments (remoteCommitChain lc'), 
          commitments (localCommitChain lc), fundingTxIn lc,
          OurCommitTx (channelState lc))
       /\ commitments (remoteCommitChain lc)
          = c :: commitments (remoteCommitChain lc').
Proof.
  unfold ReceiveRevocation.
  destruct (decide (zeroHash = Revocation revMsg)); [cbn; intros [= <-]; auto|].
  destruct (elkremAddNext _ _) as [remoteElkrem|]; [|cbn; intros [= <-]; auto].
  destruct (decide _); [cbn; intros [= <-]; auto|].
  destruct (_ && _); [cbn; intros [= <-]; auto|].
  cbn [usedRevocations set_channelState].
  destruct (usedRevocations lc) as [|r used']; [discriminate|].
  cbn [remoteCommitChain set_revocations set_channelState].
  destruct (tail (remoteCommitChain lc)); [|discriminate].
  destruct (negb _); [cbn; intros [= <-]; auto|].
  unfold advanceTail.
  destruct (commitments (remoteCommitChain lc)) as [|revoked rest] eqn:Hchain;
    [discriminate|].
  cbn [remoteCommitChain localCommitChain set_remoteCommitChain
       set_revocations set_channelState].
  destruct (tail _); [|discriminate].
  destruct (tail (localCommitChain lc)); [|discriminate].
  destruct (forwardPass _ _ _ _) as [s' fwd].
  destruct (compactLogs _ _ _) as [lc5|] eqn:Hcompact; [|discriminate].
  cbn [after]. intros [= <-]. right. exists revoked.
  apply compactLogs_shared in Hcompact.
  injection Hcompact as Hr Hl Hf Ho.
  unfold sharedSide. rewrite Hl, Hf, Ho, Hr. done.
Qed.

Lemma ExtendRevocationWindow_shared lc lc' :
  after (ExtendRevocationWindow lc) = Some lc' ->
  sharedSide lc' = sharedSide lc.
Proof. unfold ExtendRevocationWindow. same_side. Qed.

Lemma AddHTLC_shared lc htlc lc' :
  after (AddHTLC lc htlc) = Some lc' -> sharedSide lc' = sharedSide lc.
Proof. unfold AddHTLC, alloc. same_side. Qed.

Lemma ReceiveHTLC_shared lc htlc lc' :
  after (ReceiveHTLC lc htlc) = Some lc' -> sharedSide lc' = sharedSide lc.
Proof. unfold ReceiveHTLC, alloc. same_side. Qed.

Lemma SettleHTLC_shared lc preimage lc' :
  after (SettleHTLC lc preimage) = Some lc' -> sharedSide lc' = sharedSide lc.
Proof. unfold SettleHTLC, alloc. same_side. Qed.

Lemma ReceiveHTLCSettle_shared lc preimage i lc' :
  after (ReceiveHTLCSettle lc preimage i) = Some lc' ->
  sharedSide lc' = sharedSide lc.
Proof. unfold ReceiveHTLCSettle, alloc. same_side. Qed.

Lemma InitCooperativeClose_shared lc lc' :
  after (InitCooperativeClose lc) = Some lc' -> sharedSide lc' = sharedSide lc.
Proof. unfold InitCooperativeClose. same_side. Qed.

(** The input [CompleteCooperativeClose] writes to is the channel's own. *)
Lemma CompleteCooperativeClose_shared lc remoteSig lc' :
  after (CompleteCooperativeClose lc remoteSig) = Some lc' ->
  sharedSide lc' = sharedSide lc
  \/ exists new,
       lc' = writeFundingTxIn (fundingTxIn lc) new
               (set_status channelClosed lc).
Proof.
  unfold CompleteCooperativeClose.
  destruct (_ || _); [cbn; intros [= <-]; auto|].
  rewrite createCooperativeCloseTx_closed.
  destruct (EncodeCcInstructions _) as [opReturn|]; [|discriminate].
  destruct (RawTxInWitnessSignature _ _ _ _ _) as [closeSig|];
    [|cbn; intros [= <-]; auto].
  cbn [txIn coloredCloseTx fundingTxIn set_status].
  destruct (negb _); cbn [after]; intros [= <-]; eauto.
Qed.

Lemma shareTxIn_funding old new tx :
  txIn tx = [old] -> txIn (shareTxIn old new tx) = [new].
Proof.
  unfold shareTxIn. cbn [txIn]. intros ->. cbn.
  by destruct (decide (old = old)).
Qed.

Lemma writeFundingTxIn_shared new lc :
  fundingShared lc ->
  fundingShared (writeFundingTxIn (fundingTxIn lc) new lc).
Proof.
  intros [Hall Htail]. unfold fundingShared, writeFundingTxIn.
  cbn [remoteCommitChain localCommitChain fundingTxIn channelState
       set_channelState set_localCommitChain set_remoteCommitChain
       set_fundingTxIn shareTxInChain commitments].
  split.
  - intros c tx Hc Htx. rewrite <- fmap_app in Hc.
    apply list_elem_of_fmap in Hc as (c0 & -> & Hc0).
    cbn [shareTxInCommitment txn] in Htx.
    destruct (txn c0) as [tx0|] eqn:Htx0; [|discriminate].
    injection Htx as <-. apply shareTxIn_funding. by apply (Hall c0).
  - intros t tx. rewrite tail_shareTxIn.
    destruct (tail (localCommitChain lc)) as [t0|] eqn:Ht0; [|discriminate].
    intros [= <-]. cbn [shareTxInCommitment txn].
    destruct (txn t0) as [tx0|] eqn:Htx0; [|discriminate].
    intros [= <-]. specialize (Htail t0 tx0 eq_refl Htx0).
    destruct (decide (ourCommitTxOfTail lc)) as [_|Hn].
    + cbn [OurCommitTx set_OurCommitTx]. by rewrite Htail.
    + exfalso. apply Hn. unfold ourCommitTxOfTail. by rewrite Ht0, Htx0.
Qed.

Lemma step_fundingShared lc op lc' :
  fundingShared lc -> step lc op = Some lc' -> fundingShared lc'.
Proof.
  intros Hinv. destruct op; cbn [step]; intros Hstep.
  - apply SignNextCommitment_shared in Hstep as [Hs|(c & Hc & Hs)];
      [by apply (fundingShared_same lc)|].
    destruct Hinv as [Hall Htail]. injection Hs as Hr Hl Hf Ho.
    unfold fundingShared, tail. rewrite Hr, Hl, Hf, Ho. split; [|done].
    intros c0 tx Hin. rewrite <- app_assoc in Hin.
    apply elem_of_app in Hin as [Hin|Hin].
    + apply Hall, elem_of_app. by left.
    + apply elem_of_app in Hin as [Hin|Hin].
      * apply list_elem_of_singleton in Hin as ->. apply Hc.
      * apply Hall, elem_of_app. by right.
  - apply ReceiveNewCommitment_shared in Hstep as [Hs|(c & Hc & Hne & Hs)];
      [by apply (fundingShared_same lc)|].
    destruct Hinv as [Hall Htail]. injection Hs as Hr Hl Hf Ho.
    unfold fundingShared, tail. rewrite Hr, Hl, Hf, Ho. split.
    + intros c0 tx Hin. rewrite app_assoc in Hin.
      apply elem_of_app in Hin as [Hin|Hin]; [by apply Hall|].
      apply list_elem_of_singleton in Hin as ->. apply Hc.
    + unfold tail in Htail.
      destruct (commitments (localCommitChain lc)); [done|]. exact Htail.
  - apply RevokeCurrentCommitment_shared in Hstep
      as [Hs|(old & new & rest & Hchain & Hs)];
      [by apply (fundingShared_same lc)|].
    destruct Hinv as [Hall Htail]. injection Hs as Hr Hl Hf Ho.
    unfold fundingShared, tail. rewrite Hr, Hl, Hf, Ho. split.
    + intros c0 tx Hin. apply Hall. rewrite Hchain.
      apply elem_of_app in Hin as [Hin|Hin]; apply elem_of_app;
        [by left | right]. apply elem_of_cons. by right.
    + cbn [head]. intros t tx [= <-] Htx. done.
  - apply ReceiveRevocation_shared in Hstep as [Hs|(c & Hs & Hchain)];
      [by apply (fundingShared_same lc)|].
    destruct Hinv as [Hall Htail]. injection Hs as Hl Hf Ho.
    unfold fundingShared, tail. rewrite Hl, Hf, Ho. split; [|done].
    intros c0 tx Hin. apply Hall. rewrite Hchain.
    apply elem_of_app in Hin as [Hin|Hin]; apply elem_of_app;
      [left | by right]. apply elem_of_cons. by right.
  - apply (fundingShared_same lc); [|done].
    by apply ExtendRevocationWindow_shared.
  - apply (fundingShared_same lc); [|done]. by eapply AddHTLC_shared.
  - apply (fundingShared_same lc); [|done]. by eapply ReceiveHTLC_shared.
  - apply (fundingShared_same lc); [|done]. by eapply SettleHTLC_shared.
  - apply (fundingShared_same lc); [|done].
    by eapply ReceiveHTLCSettle_shared.
  - apply (fundingShared_same lc); [|done].
    by apply InitCooperativeClose_shared.
  - apply CompleteCooperativeClose_shared in Hstep as [Hs|(new & ->)];
      [by apply (fundingShared_same lc)|].
    apply (writeFundingTxIn_shared new (set_status channelClosed lc)).
    exact Hinv.
Qed.

(** X28.  The funding input is shared.  In every state a run of operations
    reaches from a channel made by [NewLightningChannel], the transaction
    of every commitment of both chains spends the channel's funding input
    and nothing else, and the transaction of the local tail, when it has
    one, is [OurCommitTx]: also after [CompleteCooperativeClose] has
    written the witness of the closing transaction into that input, which
    every stored commitment transaction then carries. *)
Theorem funding_input_shared
    (state : OpenChannel) (lc0 lc : LightningChannel) (ops : list Op) :
  NewLightningChannel state = inr lc0 ->
  run lc0 ops = Some lc ->
  fundingShared lc.
Proof.
  intros Hnew Hrun.
  assert (Hinit : fundingShared lc0).
  { unfold NewLightningChannel in Hnew.
    destruct (witnessScriptHash _); [|discriminate].
    injection Hnew as <-. split.
    - intros c tx Hin Htx. cbn in Hin.
      apply elem_of_cons in Hin as [->|Hin];
        [discriminate|].
      apply list_elem_of_singleton in Hin as ->. discriminate.
    - intros t tx [= <-]. discriminate. }
  clear Hnew. revert lc0 Hinit Hrun.
  induction ops as [|op ops IH]; intros lc0 Hinit; cbn [run].
  - by intros [= <-].
  - destruct (step lc0 op) as [lc1|] eqn:Hstep; [|discriminate].
    apply IH. by apply (step_fundingShared lc0 op).
Qed.

End Sharing.
(** ** The extra properties on the test channel and the test wallet *)

(** The test HTLC is added and then settled by the counterparty with the
    pre-image []. *)
Lemma add_htlc_then_remote_settle_witness :
  exists lc1 lc2,
    AddHTLC testChannel testHTLC = Return 0 lc1
    /\ @ReceiveHTLCSettle testExternals lc1 [] 0 = Return tt lc2
    /\ theirUpdateLog lc2 = [1%nat].
Proof.
  destruct (@add_htlc_then_remote_settle testExternals testChannel testHTLC
              [x01] [] [] eq_refl)
    as (lc1 & Hadd & _ & _ & _ & _ & Hok & _).
  destruct (Hok eq_refl) as (lc2 & Hset & Hlog & _).
  exists lc1, lc2. split_and!; [exact Hadd | exact Hset | exact Hlog].
Defined.

(** On the channel that offers the test HTLC: index 5 does not exist,
    index 0 is settled by the pre-image []. *)
Lemma receive_htlc_settle_contract_witness :
  @ReceiveHTLCSettle testExternals testChannelOffering [] 5
  = Fail ErrNonExistentLogEntry testChannelOffering
  /\ exists lc',
       @ReceiveHTLCSettle testExternals testChannelOffering [] 0
       = Return tt lc'
       /\ theirUpdateLog lc' = [1%nat].
Proof.
  destruct (@receive_htlc_settle_contract testExternals testChannelOffering
              [] 5) as [Hmissing _].
  destruct (@receive_htlc_settle_contract testExternals testChannelOffering
              [] 0) as (_ & _ & Hfound).
  split; [apply Hmissing; vm_compute; reflexivity|].
  destruct (Hfound 0%nat) as (lc' & Hret & Hlog & _);
    [vm_compute; reflexivity | vm_compute; reflexivity |].
  exists lc'. split; [exact Hret | exact Hlog].
Defined.

(** The same settlement is accepted twice. *)
Lemma receive_htlc_settle_repeatable_witness :
  exists lc2,
    @ReceiveHTLCSettle testExternals
      (testRun [OpReceiveRevocation testExtension; OpAddHTLC testHTLC;
                OpReceiveHTLCSettle [] 0]) [] 0
    = Return tt lc2
    /\ theirUpdateLog lc2 = [1%nat; 2%nat].
Proof.
  destruct (@receive_htlc_settle_repeatable testExternals testChannelOffering
              (testRun [OpReceiveRevocation testExtension; OpAddHTLC testHTLC;
                        OpReceiveHTLCSettle [] 0]) [] 0)
    as (lc2 & Hret & Hlog & _).
  - intros k e Hk.
    assert (Hidx : ourLogIndex testChannelOffering = {[ 0 := 0%nat ]})
      by (vm_compute; reflexivity).
    rewrite Hidx in Hk. apply lookup_singleton_Some in Hk as [_ <-].
    vm_compute. lia.
  - vm_compute. reflexivity.
  - exists lc2. split; [exact Hret | exact Hlog].
Defined.

(** The received test HTLC is settled once; a second settle with the same
    pre-image finds nothing. *)
Lemma settle_htlc_at_most_once_witness :
  exists e,
    e ∈ theirUpdateLog testChannelWithHTLC
    /\ settled (store (testRun [OpReceiveHTLC testHTLC; OpSettleHTLC []]) e)
       = true.
Proof.
  destruct (@settle_htlc_at_most_once testExternals testChannelWithHTLC
              (testRun [OpReceiveHTLC testHTLC; OpSettleHTLC []]) [] 0)
    as (e & Hin & _ & _ & Hset & _).
  - repeat constructor.
  - vm_compute. reflexivity.
  - exists e. split; [exact Hin | exact Hset].
Defined.

(** The test HTLC is received on the new test channel and settled. *)
Lemma receive_htlc_then_settle_witness :
  exists lc1 lc2,
    ReceiveHTLC testChannel testHTLC = Return 0 lc1
    /\ @SettleHTLC testExternals lc1 [] = Return 0 lc2.
Proof.
  destruct (@receive_htlc_then_settle testExternals testChannel testHTLC
              [x01] [] [])
    as (lc1 & lc2 & Hrecv & _ & _ & _ & Hsettle & _).
  - constructor.
  - reflexivity.
  - reflexivity.
  - constructor.
  - exists lc1, lc2. split; [exact Hrecv | exact Hsettle].
Defined.

(** The state after the settle round trip. *)
Lemma local_chain_invariant_witness :
  localInvariant (testRun testSettleRoundTrip).
Proof.
  apply (@local_chain_invariant testExternals testState testChannel
           (testRun testSettleRoundTrip) testSettleRoundTrip).
  - vm_compute. reflexivity.
  - vm_compute. reflexivity.
Defined.

(** After [InitCooperativeClose] on the test channel, an added HTLC later,
    both close calls fail. *)
Lemma cooperative_close_is_final_witness :
  @InitCooperativeClose testExternals
    (testRun [OpInitCooperativeClose; OpAddHTLC testHTLC])
  = Fail ErrChanClosing
      (testRun [OpInitCooperativeClose; OpAddHTLC testHTLC]).
Proof.
  destruct (@cooperative_close_is_final testExternals testChannel
              (testRun [OpInitCooperativeClose])
              (testRun [OpInitCooperativeClose; OpAddHTLC testHTLC])
              OpInitCooperativeClose [OpAddHTLC testHTLC])
    as (_ & _ & Hinit & _).
  - by left.
  - vm_compute. reflexivity.
  - vm_compute. reflexivity.
  - exact Hinit.
Defined.

(** The extension message of the test channel is accepted by the test
    channel with an HTLC. *)
Lemma window_extension_message_witness :
  exists revMsg lc',
    @ExtendRevocationWindow testExternals testChannel = Return revMsg lc'
    /\ @ReceiveRevocation testExternals testChannelWithHTLC revMsg
       = Return [] (set_revocations (usedRevocations testChannelWithHTLC)
                      (revocationWindow testChannelWithHTLC ++ [revMsg])
                      testChannelWithHTLC).
Proof.
  destruct (@window_extension_message testExternals testChannel)
    as (Hret & _ & _).
  destruct (@ExtendRevocationWindow testExternals testChannel)
    as [revMsg lc'| |] eqn:Hext; [|vm_compute in Hext; discriminate..].
  destruct (Hret revMsg lc' eq_refl) as (_ & _ & _ & _ & Hpeer).
  exists revMsg, lc'. split; [reflexivity | apply Hpeer].
Defined.

(** The new test channel has a single local commitment: revoking panics. *)
Lemma revoke_current_commitment_contract_witness :
  @RevokeCurrentCommitment testExternals testChannel = Panic.
Proof.
  destruct (@revoke_current_commitment_contract testExternals testChannel)
    as (_ & Hpanic & _).
  apply (Hpanic [x00; x0f] [x01; x0f]).
  - vm_compute. reflexivity.
  - vm_compute. reflexivity.
  - vm_compute. lia.
Defined.

(** A first commitment received on the new test channel. *)
Lemma receive_new_commitment_contract_witness :
  exists t c,
    tip (localCommitChain testChannel) = Some t
    /\ height c = wrap64 (height t + 1)
    /\ ourMessageIndex c = 0.
Proof.
  destruct (@receive_new_commitment_contract testExternals testChannel [] 0)
    as (Hret & _ & _).
  destruct (Hret (testRun [OpReceiveNewCommitment [] 0]))
    as (t & c & s' & revocation & tx & sigHash & sig & Htip & _ & _ & Hh
        & Ho & _).
  - vm_compute. reflexivity.
  - exists t, c. split_and!; [exact Htip | exact Hh | exact Ho].
Defined.

(** The new test channel. *)
Lemma new_channel_needs_window_witness :
  @SignNextCommitment testExternals testChannel
  = Fail ErrNoWindow testChannel
  /\ PendingUpdates testChannel = Some false.
Proof.
  destruct (@new_channel_needs_window testExternals testState testChannel)
    as (_ & _ & _ & _ & Hpending & Hsign & _).
  - vm_compute. reflexivity.
  - split; [exact Hsign | exact Hpending].
Defined.

(** Adding the test HTLC does not make the test channel report pending
    updates. *)
Lemma pending_updates_compares_tips_witness :
  PendingUpdates testChannelOffering
  = PendingUpdates (testRun [OpReceiveRevocation testExtension]).
Proof.
  destruct (@pending_updates_compares_tips testExternals
              (testRun [OpReceiveRevocation testExtension]))
    as (Hlog & _ & _).
  apply (Hlog (OpAddHTLC testHTLC)).
  - reflexivity.
  - vm_compute. reflexivity.
Defined.

(** The close is completed after the settle round trip: the channel is
    closed, and [OurCommitTx], the transaction of the local tail, now
    spends the funding input with the witness of the closing
    transaction. *)
Lemma complete_cooperative_close_contract_witness :
  exists tx lc',
    @CompleteCooperativeClose testExternals (testRun testSettleRoundTrip)
      [x0c]
    = Return tx lc'
    /\ status lc' = channelClosed
    /\ txIn tx = [fundingTxIn lc']
    /\ txIn <$> OurCommitTx (channelState lc') = Some (txIn tx).
Proof.
  destruct (@complete_cooperative_close_contract testExternals
              (testRun testSettleRoundTrip) [x0c]) as (_ & Hret & _).
  destruct (@CompleteCooperativeClose testExternals
              (testRun testSettleRoundTrip) [x0c])
    as [tx lc'| |] eqn:Hclose; [|vm_compute in Hclose; discriminate..].
  destruct (Hret tx lc' eq_refl)
    as (opReturn & closeSig & _ & _ & _ & _ & _ & _ & _ & _ & Hst & Hin & _
        & _ & Hcs & _).
  exists tx, lc'. split_and!; [reflexivity | exact Hst | exact Hin |].
  rewrite Hcs, Hin.
  destruct (decide (ourCommitTxOfTail (testRun testSettleRoundTrip)))
    as [_|Hn]; [|exfalso; apply Hn; vm_compute; reflexivity].
  assert (Hour : txIn <$> OurCommitTx
                            (channelState (testRun testSettleRoundTrip))
                 = Some [fundingTxIn (testRun testSettleRoundTrip)])
    by (vm_compute; reflexivity).
  cbn [OurCommitTx set_OurCommitTx].
  destruct (OurCommitTx (channelState (testRun testSettleRoundTrip)))
    as [tx0|]; [|discriminate].
  injection Hour as Hour. cbn [fmap option_fmap option_map].
  f_equal. by apply shareTxIn_funding.
Defined.

(** An entry committed at height 1 on both chains is forwarded when both
    tails are at height 1, and not a second time. *)
Lemma forward_pass_contract_witness :
  exists s' fwd,
    forwardPass 1 1 [0%nat] testStoreLockedIn = (s', fwd)
    /\ (0%nat ∈ fwd)
    /\ (0%nat ∉ (forwardPass 1 1 [0%nat] s').2).
Proof.
  destruct (forwardPass 1 1 [0%nat] testStoreLockedIn) as [s' fwd] eqn:Hrun.
  destruct (forward_pass_contract 1 1 [0%nat] testStoreLockedIn s' fwd Hrun)
    as (Hin & _ & _ & _ & _ & _ & _ & Honce).
  assert (H0 : 0%nat ∈ fwd).
  { apply Hin. split_and!.
    - apply elem_of_cons. by left.
    - reflexivity.
    - unfold lockedIn. vm_compute. repeat split; discriminate. }
  exists s', fwd. split_and!; [reflexivity | exact H0 |].
  apply Honce; [auto | exact H0].
Defined.

(** The descriptors over the settle round trip. *)
Lemma descriptors_write_once_witness :
  storeGrows testChannelWithHTLC
    (testRun [OpReceiveHTLC testHTLC; OpSettleHTLC []]).
Proof.
  apply (@descriptors_write_once testExternals testChannelWithHTLC
           (testRun [OpReceiveHTLC testHTLC; OpSettleHTLC []])
           [OpSettleHTLC []]).
  vm_compute. reflexivity.
Defined.

(** The state after the settle round trip is well formed. *)
Lemma reachable_states_well_formed_witness :
  wellFormed (testRun testSettleRoundTrip).
Proof.
  apply (@reachable_states_well_formed testExternals testState testChannel
           (testRun testSettleRoundTrip) testSettleRoundTrip).
  - vm_compute. reflexivity.
  - vm_compute. reflexivity.
Defined.

(** In the settle round trip the first revocation forwards the HTLC and the
    second one, four operations later, forwards nothing. *)
Lemma no_htlc_forwarded_twice_witness :
  NoDup [0%nat]
  /\ 0%nat ∈ theirUpdateLog (testRun testFirstRound)
  /\ 0%nat ∉ ([] : list loc).
Proof.
  assert (Halloc : logsAllocated (testRun testFirstRound)).
  { unfold logsAllocated. vm_compute. repeat constructor. }
  destruct (@no_htlc_forwarded_twice testExternals
              (testRun testFirstRound)
              (testRun (take 7 testSettleRoundTrip))
              (testRun (take 11 testSettleRoundTrip))
              (testRun testSettleRoundTrip)
              testRevocation testRevocation2 [0%nat] [] testSecondRound
              Halloc)
    as (Hnd & Hin & Honce).
  - vm_compute. reflexivity.
  - vm_compute. reflexivity.
  - vm_compute. reflexivity.
  - assert (H0 : 0%nat ∈ [0%nat]) by (apply elem_of_cons; by left).
    split_and!; [exact Hnd | by apply Hin | by apply Honce].
Defined.

(** The view of the channel whose received HTLC was settled early holds
    no HTLC. *)
Lemma view_holds_live_htlcs_witness :
  exists filtered ourBal theirBal s',
    evaluateHTLCView testChannelEarlySettle
      (fetchHTLCView testChannelEarlySettle 1 1) 500 500 1 true
    = Some (filtered, ourBal, theirBal, s')
    /\ ourUpdates filtered = [] /\ theirUpdates filtered = [].
Proof.
  destruct (view_holds_live_htlcs testChannelEarlySettle
              (fetchHTLCView testChannelEarlySettle 1 1) 500 500 1 true)
    as (Hview & _).
  destruct (evaluateHTLCView testChannelEarlySettle
              (fetchHTLCView testChannelEarlySettle 1 1) 500 500 1 true)
    as [[[[filtered ourBal] theirBal] s']|] eqn:Hev;
    [|vm_compute in Hev; discriminate].
  destruct (Hview filtered ourBal theirBal s' eq_refl) as (Ho & Ht & _).
  exists filtered, ourBal, theirBal, s'.
  split_and!; [reflexivity | |].
  - rewrite Ho. vm_compute. reflexivity.
  - rewrite Ht. vm_compute. reflexivity.
Defined.

(** The first remote commitment of the test channel with a received HTLC:
    two balance outputs, one HTLC output and the OP_RETURN output. *)
Lemma commitment_transaction_shape_witness :
  exists c lc' tx,
    @fetchCommitmentView testExternals testChannelWithHTLC true 0 1
      [x0a] [x01] = Return c lc'
    /\ txn c = Some tx /\ Version tx = 2
    /\ txIn tx = [fundingTxIn testChannelWithHTLC].
Proof.
  destruct (@fetchCommitmentView testExternals testChannelWithHTLC true 0 1
              [x0a] [x01]) as [c lc'| |] eqn:Hfetch;
    [|vm_compute in Hfetch; discriminate..].
  destruct (@commitment_transaction_shape testExternals testChannelWithHTLC
              lc' true 0 1 [x0a] [x01] c Hfetch)
    as (t & filtered & tx & _ & _ & Htx & Hv & _ & Hin & _).
  exists c, lc', tx. split_and!; [reflexivity | exact Htx | exact Hv | exact Hin].
Defined.

(** The test transaction colorified as a funding transaction. *)
Lemma colorify_modes_witness :
  exists newTx,
    @ColorifyTx testExternals testTx true = inr newTx
    /\ LockTime newTx = 0
    /\ map Value (txOut newTx) = [8190; 8190; 0].
Proof.
  destruct (@colorify_modes testExternals testTx true)
    as (newTx & Hret & _ & _ & Hlock & Houts).
  exists newTx. split_and!; [exact Hret | exact Hlock |].
  rewrite Houts. reflexivity.
Defined.

(** The test wallet selects both coins for 100 units and records a change
    output of 30. *)
Lemma select_coins_and_change_contract_witness :
  exists l' contribution',
    selectCoinsAndChange testAnswers testWallet 10 100
      (ourContribution (testFresh 1))
    = Some (None, l', contribution')
    /\ length (Inputs contribution') = 2%nat
    /\ map Value (ChangeOutputs contribution') = [30].
Proof.
  destruct (select_coins_and_change_contract testAnswers testWallet 10 100
              (ourContribution (testFresh 1))) as (_ & _ & Hok).
  destruct (Hok [testCoin 0 60; testCoin 1 70]
                [mkOutPoint [x07] 0; mkOutPoint [x07] 1] 30)
    as (err & l' & c' & Hret & _ & _ & _ & _ & Hin & _ & Hchange).
  - reflexivity.
  - vm_compute. reflexivity.
  - destruct (Hchange ltac:(lia)) as [-> Hout].
    exists l', c'. split_and!; [exact Hret | |].
    + rewrite Hin. reflexivity.
    + rewrite Hout. reflexivity.
Defined.

(** The reservation of the test wallet is cancelled once. *)
Lemma funding_cancel_contract_witness :
  handleFundingCancelRequest testWallet 1
  = (Some ErrUnknownFundingState, testWallet)
  /\ exists l',
       handleFundingCancelRequest testWalletReserved 1 = (None, l')
       /\ handleFundingCancelRequest l' 1
          = (Some ErrUnknownFundingState, l').
Proof.
  destruct (funding_cancel_contract testWallet 1) as [Hnone _].
  destruct (funding_cancel_contract testWalletReserved 1) as [_ Hsome].
  split; [apply Hnone; reflexivity|].
  destruct (fundingLimbo testWalletReserved !! 1) as [r|] eqn:Hr;
    [|vm_compute in Hr; discriminate].
  destruct (Hsome r eq_refl) as (l' & Hret & _ & _ & _ & _ & Htwice).
  exists l'. split; [exact Hret | exact Htwice].
Defined.

(** The test request is reserved on the empty test wallet and cancelled. *)
Lemma reserve_then_cancel_witness :
  exists l2,
    handleFundingCancelRequest testWalletReserved 1 = (None, l2)
    /\ fundingLimbo l2 = ∅ /\ lockedOutPoints l2 = ∅.
Proof.
  assert (Hres : handleFundingReserveRequest testAnswers testFresh testWallet
                   testReserveMsg
                 = Some (inr (1, testReservation), testWalletReserved))
    by (vm_compute; reflexivity).
  destruct (reserve_then_cancel testAnswers testFresh testWallet
              testWalletReserved testReserveMsg 1 testReservation Hres)
    as (_ & _ & _ & l2 & Hcancel & Hlimbo & Hlocked & _).
  - apply lookup_empty.
  - intros o _. apply not_elem_of_empty.
  - exists l2. split_and!; [exact Hcancel | exact Hlimbo | exact Hlocked].
Defined.

(** When key derivation fails, the two selected coins stay locked. *)
Lemma failed_reservation_keeps_locks_witness :
  handleFundingReserveRequest testAnswersNoKey testFresh testWallet
                              testReserveMsg
  = Some (inl ErrRawKey, testWalletNoKey)
  /\ fundingLimbo testWalletNoKey = ∅
  /\ lockedOutPoints testWalletNoKey
     = list_to_set [mkOutPoint [x07] 0; mkOutPoint [x07] 1] ∪ ∅.
Proof.
  assert (Hres : handleFundingReserveRequest testAnswersNoKey testFresh
                   testWallet testReserveMsg
                 = Some (inl ErrRawKey, testWalletNoKey))
    by (vm_compute; reflexivity).
  destruct (failed_reservation_keeps_locks testAnswersNoKey testFresh
              testWallet testWalletNoKey testReserveMsg ErrRawKey Hres)
    as (Hlimbo & _ & Hlocks & _).
  destruct (Hlocks [testCoin 0 60; testCoin 1 70]
                   [mkOutPoint [x07] 0; mkOutPoint [x07] 1] 30)
    as (Hlocked & _).
  - vm_compute. discriminate.
  - reflexivity.
  - vm_compute. reflexivity.
  - split_and!; [exact Hres | exact Hlimbo | exact Hlocked].
Defined.

(** The test driver is registered once. *)
Lemma register_wallet_contract_witness :
  exists wallets',
    RegisterWallet testDriver ∅ = Some wallets'
    /\ wallets' !! "btcwallet" = Some testDriver
    /\ RegisterWallet (mkDriver "btcwallet" 2) wallets' = None.
Proof.
  destruct (RegisterWallet testDriver ∅) as [wallets'|] eqn:Hreg;
    [|vm_compute in Hreg; discriminate].
  destruct (register_wallet_contract testDriver ∅) as (_ & Hok & _).
  destruct (Hok wallets' Hreg) as (Hfound & _ & _ & _ & Hfirst).
  exists wallets'. split_and!; [reflexivity | exact Hfound |].
  apply Hfirst. reflexivity.
Defined.

(** Two settlements of the same outgoing HTLC, both locked in at height 2:
    compaction at tails 2 and 2 panics. *)
Lemma duplicate_removals_panic_witness :
  compactLogs (testRun testDuplicateSettle) 2 2 = None.
Proof.
  apply (duplicate_removals_panic (testRun testDuplicateSettle) 2 2
           [] [] [] 1%nat 2%nat).
  - apply (@run_wellFormed testExternals testDuplicateSettle testChannel).
    + apply (@NewLightningChannel_wellFormed testExternals testState).
      vm_compute. reflexivity.
    + vm_compute. reflexivity.
  - right. vm_compute. reflexivity.
  - apply (bool_decide_unpack _). vm_compute. exact I.
  - apply (bool_decide_unpack _). vm_compute. exact I.
  - vm_compute. reflexivity.
Defined.

(** The first revocation of the settle round trip consumes the one used
    revocation, whose next key becomes the stored revocation key. *)
Lemma receive_revocation_contract_witness :
  exists used,
    usedRevocations (testRun testFirstRound) = [used]
    /\ TheirCurrentRevocation
         (channelState (testRun (take 7 testSettleRoundTrip)))
       = NextRevocationKey used.
Proof.
  destruct (@receive_revocation_contract testExternals
              (testRun testFirstRound)
              (testRun (take 7 testSettleRoundTrip))
              testRevocation [0%nat])
    as (used & rest & revoked & chainRest & remoteElkrem & Hused & _ & _ & _
        & _ & Hrest & _ & _ & Hcs & _).
  - vm_compute. discriminate.
  - vm_compute. reflexivity.
  - exists used. split.
    + rewrite Hused. f_equal. rewrite <- Hrest. vm_compute. reflexivity.
    + rewrite Hcs. reflexivity.
Defined.

(** After the settle round trip and the close every commitment transaction
    of the test channel spends the funding input as the channel holds it,
    witness included. *)
Lemma funding_input_shared_witness :
  fundingShared
    (testRun (testSettleRoundTrip ++ [OpCompleteCooperativeClose [x0c]])).
Proof.
  apply (@funding_input_shared testExternals testState testChannel
           (testRun (testSettleRoundTrip
                     ++ [OpCompleteCooperativeClose [x0c]]))
           (testSettleRoundTrip ++ [OpCompleteCooperativeClose [x0c]])).
  - vm_compute. reflexivity.
  - vm_compute. reflexivity.
Defined.
